(** * StretchShaderFactory: the overscroll stretch shader and its uniforms

    A shallow embedding of
    [libs/renderengine/skia/filters/StretchShaderFactory.cpp]:
    the SkSL program [stretchShader] (functions [easeIn],
    [computeOverscrollStart], [computeOverscrollEnd], [computeOverscroll]
    and [main]) and the C++ method [StretchShaderFactory::createSkShader]
    that derives the uniforms of that program from a [StretchEffect].

    Every quantity of the source is a [float].  The embedding is written
    once over an interface of float operations ([FloatOps]); two instances
    are given:
    - [binary32], IEEE 754 single precision as specified by [SpecFloat],
      the arithmetic of the program: the program is run on it bit for
      bit, and the properties of its arithmetic (continuity at the
      boundary, order of the remapped positions, range of the divisors)
      are proved from the rounding of [SpecFloat], which is related to
      the exact result in [Q];
    - [Q], exact rational arithmetic, the idealisation of the program.
    Properties that only depend on the control flow of the program are
    proved for every instance that satisfies the comparison laws
    [FloatLaws], hence for both. *)

From Stdlib Require Import ZArith QArith Qabs Qpower Lqa Lia Bool.
From Stdlib Require Import Floats.SpecFloat.

(** ** The float interface *)

Declare Scope float_scope.
Delimit Scope float_scope with F.

(** The operations the source applies to [float] values: the four
    arithmetic operators, unary minus, [abs], the comparisons [<], [<=]
    and [==], and the literals [0], [1] and [0.7f]. *)
Class FloatOps (F : Type) : Type := {
  fadd : F -> F -> F;
  fsub : F -> F -> F;
  fmul : F -> F -> F;
  fdiv : F -> F -> F;
  fneg : F -> F;
  fabs : F -> F;
  flt : F -> F -> bool;
  fle : F -> F -> bool;
  feq : F -> F -> bool;
  fzero : F;
  fone : F;
  f0_7 : F
}.

(** [x > y] and [x >= y] are [y < x] and [y <= x]. *)
Definition fgt {F} `{FloatOps F} (x y : F) : bool := flt y x.
Definition fge {F} `{FloatOps F} (x y : F) : bool := fle y x.

Notation "x + y" := (fadd x y) : float_scope.
Notation "x - y" := (fsub x y) : float_scope.
Notation "x * y" := (fmul x y) : float_scope.
Notation "x / y" := (fdiv x y) : float_scope.
Notation "- x" := (fneg x) : float_scope.
Notation "x <? y" := (flt x y) : float_scope.
Notation "x <=? y" := (fle x y) : float_scope.
Notation "x >? y" := (fgt x y) : float_scope.
Notation "x >=? y" := (fge x y) : float_scope.
Notation "x =? y" := (feq x y) : float_scope.
Notation "0" := fzero : float_scope.
Notation "1" := fone : float_scope.

(** What the control flow of the program relies on: a strict comparison
    that holds excludes the converse comparisons, and [==] excludes both
    strict ones.  Nothing is assumed of the arithmetic. *)
Class FloatLaws (F : Type) {ops : FloatOps F} : Prop := {
  flt_asym : forall x y : F, flt x y = true -> flt y x = false;
  flt_not_ge : forall x y : F, flt x y = true -> fle y x = false;
  feq_not_lt : forall x y : F, feq x y = true -> flt x y = false /\ flt y x = false
}.

Arguments FloatLaws F {ops}.

(** ** The SkSL program [stretchShader] *)

Section Shader.

Context {F : Type} `{FloatOps F}.
Local Open Scope float_scope.

(** The built-in [mix(x, y, a)] of GLSL and SkSL, the linear blend
    [x * (1 - a) + y * a]. *)
Definition mix (x y a : F) : F := x * (1 - a) + y * a.

Definition easeIn (t d : F) : F := t * d.

Definition computeOverscrollStart
    (inPos overscroll uStretchAffectedDist uInverseStretchAffectedDist
     distanceStretched interpolationStrength : F) : F :=
  let offsetPos := uStretchAffectedDist - inPos in
  let posBasedVariation :=
    mix 1 (easeIn offsetPos uInverseStretchAffectedDist) interpolationStrength in
  let stretchIntensity := overscroll * posBasedVariation in
  distanceStretched - (offsetPos / (1 + stretchIntensity)).

Definition computeOverscrollEnd
    (inPos overscroll reverseStretchDist uStretchAffectedDist
     uInverseStretchAffectedDist distanceStretched interpolationStrength : F) : F :=
  let offsetPos := inPos - reverseStretchDist in
  let posBasedVariation :=
    mix 1 (easeIn offsetPos uInverseStretchAffectedDist) interpolationStrength in
  let stretchIntensity := (- overscroll) * posBasedVariation in
  1 - (distanceStretched - (offsetPos / (1 + stretchIntensity))).

(** [outPos] is assigned at most once in each of the two [if] statements,
    which run one after the other. *)
Definition computeOverscroll
    (inPos overscroll uStretchAffectedDist uInverseStretchAffectedDist
     distanceStretched distanceDiff interpolationStrength : F) : F :=
  let outPos := inPos in
  let outPos :=
    if overscroll >? 0 then
      if inPos <=? uStretchAffectedDist then
        computeOverscrollStart inPos overscroll uStretchAffectedDist
          uInverseStretchAffectedDist distanceStretched interpolationStrength
      else if inPos >=? distanceStretched then
        distanceDiff + inPos
      else outPos
    else outPos in
  let outPos :=
    if overscroll <? 0 then
      let stretchAffectedDist := 1 - uStretchAffectedDist in
      if inPos >=? stretchAffectedDist then
        computeOverscrollEnd inPos overscroll stretchAffectedDist
          uStretchAffectedDist uInverseStretchAffectedDist distanceStretched
          interpolationStrength
      else if inPos <? stretchAffectedDist then
        - distanceDiff + inPos
      else outPos
    else outPos in
  outPos.

(** The divisors of the two easing functions, [1. + stretchIntensity], as
    [computeOverscrollStart] and [computeOverscrollEnd] compute them. *)
Definition startDenominator
    (inPos overscroll uStretchAffectedDist uInverseStretchAffectedDist
     interpolationStrength : F) : F :=
  let offsetPos := uStretchAffectedDist - inPos in
  let posBasedVariation :=
    mix 1 (easeIn offsetPos uInverseStretchAffectedDist) interpolationStrength in
  let stretchIntensity := overscroll * posBasedVariation in
  1 + stretchIntensity.

Definition endDenominator
    (inPos overscroll reverseStretchDist uInverseStretchAffectedDist
     interpolationStrength : F) : F :=
  let offsetPos := inPos - reverseStretchDist in
  let posBasedVariation :=
    mix 1 (easeIn offsetPos uInverseStretchAffectedDist) interpolationStrength in
  let stretchIntensity := (- overscroll) * posBasedVariation in
  1 + stretchIntensity.

(** The branch of [computeOverscroll] that yields the result: the tests
    of the function, in its order. *)
Inductive Region : Type :=
  | StartEasing
  | StartShift
  | EndEasing
  | EndShift
  | Identity.

Definition region (inPos overscroll uStretchAffectedDist distanceStretched : F)
    : Region :=
  if overscroll >? 0 then
    if inPos <=? uStretchAffectedDist then StartEasing
    else if inPos >=? distanceStretched then StartShift
    else Identity
  else if overscroll <? 0 then
    let stretchAffectedDist := 1 - uStretchAffectedDist in
    if inPos >=? stretchAffectedDist then EndEasing
    else if inPos <? stretchAffectedDist then EndShift
    else Identity
  else Identity.

(** The uniforms of the program that [createSkShader] sets.  The program
    also declares [uMaxStretchIntensity]; no function reads it and
    [createSkShader] does not set it. *)
Record Uniforms : Type := {
  uStretchAffectedDistX : F;
  uStretchAffectedDistY : F;
  uDistanceStretchedX : F;
  uDistanceStretchedY : F;
  uInverseDistanceStretchedX : F;
  uInverseDistanceStretchedY : F;
  uDistDiffX : F;
  uDistDiffY : F;
  uScrollX : F;
  uScrollY : F;
  uOverscrollX : F;
  uOverscrollY : F;
  viewportWidth : F;
  viewportHeight : F;
  uInterpolationStrength : F
}.

Record vec2 : Type := { vx : F; vy : F }.

(** [main] ends with [uContentTexture.eval(coord)]: the child shader is a
    function of the remapped coordinate. *)
Definition main {C : Type} (uContentTexture : vec2 -> C) (u : Uniforms)
    (coord : vec2) : C :=
  let inU := vx coord / viewportWidth u in
  let inV := vy coord / viewportHeight u in
  let inU := inU + uScrollX u in
  let inV := inV + uScrollY u in
  let outU := inU in
  let outV := inV in
  let outU :=
    computeOverscroll inU (uOverscrollX u) (uStretchAffectedDistX u)
      (uInverseDistanceStretchedX u) (uDistanceStretchedX u) (uDistDiffX u)
      (uInterpolationStrength u) in
  let outV :=
    computeOverscroll inV (uOverscrollY u) (uStretchAffectedDistY u)
      (uInverseDistanceStretchedY u) (uDistanceStretchedY u) (uDistDiffY u)
      (uInterpolationStrength u) in
  let coord :=
    {| vx := (outU - uScrollX u) * viewportWidth u;
       vy := (outV - uScrollY u) * viewportHeight u |} in
  uContentTexture coord.

(** The coordinate at which [main] samples the content: [main] run on the
    child shader that returns its argument. *)
Definition remappedCoord (u : Uniforms) (coord : vec2) : vec2 :=
  main (fun c => c) u coord.

(** The six parameters that [main] passes to [computeOverscroll] after
    the position, for the horizontal and for the vertical axis. *)
Record AxisParams : Type := {
  overscroll : F;
  affectedDist : F;
  invAffectedDist : F;
  distanceStretched : F;
  distanceDiff : F;
  interpolationStrength : F
}.

Definition axisX (u : Uniforms) : AxisParams :=
  {| overscroll := uOverscrollX u;
     affectedDist := uStretchAffectedDistX u;
     invAffectedDist := uInverseDistanceStretchedX u;
     distanceStretched := uDistanceStretchedX u;
     distanceDiff := uDistDiffX u;
     interpolationStrength := uInterpolationStrength u |}.

Definition axisY (u : Uniforms) : AxisParams :=
  {| overscroll := uOverscrollY u;
     affectedDist := uStretchAffectedDistY u;
     invAffectedDist := uInverseDistanceStretchedY u;
     distanceStretched := uDistanceStretchedY u;
     distanceDiff := uDistDiffY u;
     interpolationStrength := uInterpolationStrength u |}.

(** [computeOverscroll] on the parameters of one axis. *)
Definition remap (q : AxisParams) (inPos : F) : F :=
  computeOverscroll inPos (overscroll q) (affectedDist q) (invAffectedDist q)
    (distanceStretched q) (distanceDiff q) (interpolationStrength q).

(** Two runs of [main] are given the same horizontal inputs: the x
    component of the coordinate, the viewport width, and the uniforms of
    the X axis, with the interpolation strength both axes share. *)
Definition sameInputsX (u1 u2 : Uniforms) (c1 c2 : vec2) : Prop :=
  vx c1 = vx c2
  /\ viewportWidth u1 = viewportWidth u2
  /\ uScrollX u1 = uScrollX u2
  /\ uOverscrollX u1 = uOverscrollX u2
  /\ uStretchAffectedDistX u1 = uStretchAffectedDistX u2
  /\ uInverseDistanceStretchedX u1 = uInverseDistanceStretchedX u2
  /\ uDistanceStretchedX u1 = uDistanceStretchedX u2
  /\ uDistDiffX u1 = uDistDiffX u2
  /\ uInterpolationStrength u1 = uInterpolationStrength u2.

(** The same for the vertical inputs. *)
Definition sameInputsY (u1 u2 : Uniforms) (c1 c2 : vec2) : Prop :=
  vy c1 = vy c2
  /\ viewportHeight u1 = viewportHeight u2
  /\ uScrollY u1 = uScrollY u2
  /\ uOverscrollY u1 = uOverscrollY u2
  /\ uStretchAffectedDistY u1 = uStretchAffectedDistY u2
  /\ uInverseDistanceStretchedY u1 = uInverseDistanceStretchedY u2
  /\ uDistanceStretchedY u1 = uDistanceStretchedY u2
  /\ uDistDiffY u1 = uDistDiffY u2
  /\ uInterpolationStrength u1 = uInterpolationStrength u2.

End Shader.

Arguments Uniforms F : clear implicits.
Arguments AxisParams F : clear implicits.
Arguments vec2 F : clear implicits.

(** ** The C++ side: [StretchShaderFactory::createSkShader] *)

Section Factory.

Context {F : Type} `{FloatOps F}.
Local Open Scope float_scope.

(** [android::FloatRect] and [android::StretchEffect] are declared in
    headers outside this file; the records have the fields that
    [createSkShader] reads. *)
Record FloatRect : Type := {
  left : F;
  top : F;
  right : F;
  bottom : F
}.

Record StretchEffect : Type := {
  width : F;
  height : F;
  vectorX : F;
  vectorY : F;
  mappedChildBounds : FloatRect
}.

(** Modelled from the spec: [StretchEffect::hasEffect] is declared with
    [StretchEffect] and is missing from the sources; the specification
    gives it as "true iff at least one of vectorX / vectorY is non-zero". *)
Definition hasEffect (e : StretchEffect) : bool :=
  negb (vectorX e =? 0) || negb (vectorY e =? 0).

(** [StretchEffect::CONTENT_DISTANCE_STRETCHED] is a constant of the same
    missing header (the specification calls it AFFECTED_DISTANCE): a
    parameter here. *)
Variable CONTENT_DISTANCE_STRETCHED : F.

Definition INTERPOLATION_STRENGTH_VALUE : F := f0_7.

(** What [mBuilder->makeShader()] returns: the program [stretchShader]
    bound to its child shader and to the values of its uniforms. *)
Record RuntimeShader (C : Type) : Type := {
  uContentTexture : vec2 F -> C;
  uniforms : Uniforms F
}.

Arguments uContentTexture {C} _.
Arguments uniforms {C} _.

(** [nullptr] is [None].  The builder [mBuilder] is created on the first
    call and reused; every call sets the child and each of the fifteen
    uniforms anew, so the shader returned is a function of the two
    arguments alone.  [abs] is applied to a [float] and is the absolute
    value of floats, [fabs]. *)
Definition createSkShader {C : Type} (inputShader : vec2 F -> C)
    (stretchEffect : StretchEffect) : option (RuntimeShader C) :=
  if negb (hasEffect stretchEffect) then None
  else
    let viewportWidth := width stretchEffect in
    let viewportHeight := height stretchEffect in
    let normOverScrollDistX := vectorX stretchEffect in
    let normOverScrollDistY := vectorY stretchEffect in
    let distanceStretchedX :=
      CONTENT_DISTANCE_STRETCHED / (1 + fabs normOverScrollDistX) in
    let distanceStretchedY :=
      CONTENT_DISTANCE_STRETCHED / (1 + fabs normOverScrollDistY) in
    let inverseDistanceStretchedX := 1 / CONTENT_DISTANCE_STRETCHED in
    let inverseDistanceStretchedY := 1 / CONTENT_DISTANCE_STRETCHED in
    let diffX := distanceStretchedX - CONTENT_DISTANCE_STRETCHED in
    let diffY := distanceStretchedY - CONTENT_DISTANCE_STRETCHED in
    let srcBounds := mappedChildBounds stretchEffect in
    let normalizedScrollX := left srcBounds / viewportWidth in
    let normalizedScrollY := top srcBounds / viewportHeight in
    Some
      {| uContentTexture := inputShader;
         uniforms :=
           {| uInterpolationStrength := INTERPOLATION_STRENGTH_VALUE;
              uStretchAffectedDistX := CONTENT_DISTANCE_STRETCHED;
              uStretchAffectedDistY := CONTENT_DISTANCE_STRETCHED;
              uDistanceStretchedX := distanceStretchedX;
              uDistanceStretchedY := distanceStretchedY;
              uInverseDistanceStretchedX := inverseDistanceStretchedX;
              uInverseDistanceStretchedY := inverseDistanceStretchedY;
              uDistDiffX := diffX;
              uDistDiffY := diffY;
              uOverscrollX := normOverScrollDistX;
              uOverscrollY := normOverScrollDistY;
              uScrollX := normalizedScrollX;
              uScrollY := normalizedScrollY;
              viewportWidth := viewportWidth;
              viewportHeight := viewportHeight |} |}.

(** Evaluating a runtime shader at a coordinate runs [main]. *)
Definition evalShader {C : Type} (sh : RuntimeShader C) (coord : vec2 F) : C :=
  main (uContentTexture sh) (uniforms sh) coord.

(** Modelled from the spec: the caller of [createSkShader] belongs to the
    render engine and is missing from the sources; the specification makes
    the execution backend "responsible for falling back to a pass-through
    (identity) when hasEffect() is false", that is, when no stretch shader
    was produced the content is sampled at the coordinate as it came. *)
Definition sampleStretched {C : Type} (inputShader : vec2 F -> C)
    (stretchEffect : StretchEffect) (coord : vec2 F) : C :=
  match createSkShader inputShader stretchEffect with
  | Some sh => evalShader sh coord
  | None => inputShader coord
  end.

End Factory.

Arguments FloatRect F : clear implicits.
Arguments StretchEffect F : clear implicits.
Arguments RuntimeShader F C : clear implicits.
Arguments uContentTexture {F C} _.
Arguments uniforms {F C} _.

(** ** Exact arithmetic: the instance at [Q] *)

Definition Qlt_bool (x y : Q) : bool :=
  (Qnum x * QDen y <? Qnum y * QDen x)%Z.

#[export] Instance Q_float : FloatOps Q := {|
  fadd := Qplus;
  fsub := Qminus;
  fmul := Qmult;
  fdiv := Qdiv;
  fneg := Qopp;
  fabs := Qabs;
  flt := Qlt_bool;
  fle := Qle_bool;
  feq := Qeq_bool;
  fzero := 0%Q;
  fone := 1%Q;
  f0_7 := (7 # 10)%Q
|}.

(** ** Single precision: the instance at [binary32] *)

Definition binary32 : Type := spec_float.

Definition b32_prec : Z := 24.
Definition b32_emax : Z := 128.

(** [0.7f] is the float [0x3F333333], that is [11744051 * 2^-24]. *)
Definition b32_0_7 : binary32 := S754_finite false 11744051 (-24).
Definition b32_one : binary32 := S754_finite false 8388608 (-23).

#[export] Instance binary32_float : FloatOps binary32 := {|
  fadd := SFadd b32_prec b32_emax;
  fsub := SFsub b32_prec b32_emax;
  fmul := SFmul b32_prec b32_emax;
  fdiv := SFdiv b32_prec b32_emax;
  fneg := SFopp;
  fabs := SFabs;
  flt := SFltb;
  fle := SFleb;
  feq := SFeqb;
  fzero := S754_zero false;
  fone := b32_one;
  f0_7 := b32_0_7
|}.

(** ** Sample inputs *)

(** A viewport of 100 by 200 pixels whose visible window starts 20 pixels
    from the left, pulled by half the viewport at the start edge of the
    horizontal axis only. *)
Definition sampleEffect : StretchEffect Q :=
  {| width := 100; height := 200;
     vectorX := 1 # 2; vectorY := 0;
     mappedChildBounds := {| left := 20; top := 0; right := 120; bottom := 200 |} |}.

(** The same viewport with no overscroll on either axis. *)
Definition idleEffect : StretchEffect Q :=
  {| width := 100; height := 200;
     vectorX := 0; vectorY := 0;
     mappedChildBounds := {| left := 20; top := 0; right := 120; bottom := 200 |} |}.

(** The uniforms of [sampleEffect] for [CONTENT_DISTANCE_STRETCHED = 1]. *)
Definition sampleUniforms : Uniforms Q :=
  {| uStretchAffectedDistX := 1; uStretchAffectedDistY := 1;
     uDistanceStretchedX := 2 # 3; uDistanceStretchedY := 1;
     uInverseDistanceStretchedX := 1; uInverseDistanceStretchedY := 1;
     uDistDiffX := - 1 # 3; uDistDiffY := 0;
     uScrollX := 20 # 100; uScrollY := 0 # 200;
     uOverscrollX := 1 # 2; uOverscrollY := 0;
     viewportWidth := 100; viewportHeight := 200;
     uInterpolationStrength := 7 # 10 |}.

(** Uniforms with the horizontal part of [sampleUniforms] and another
    vertical part: a viewport 300 pixels high, scrolled by a tenth and
    pulled by a quarter at the end edge. *)
Definition tallUniforms : Uniforms Q :=
  {| uStretchAffectedDistX := 1; uStretchAffectedDistY := 1;
     uDistanceStretchedX := 2 # 3; uDistanceStretchedY := 4 # 5;
     uInverseDistanceStretchedX := 1; uInverseDistanceStretchedY := 1;
     uDistDiffX := - 1 # 3; uDistDiffY := - 1 # 5;
     uScrollX := 20 # 100; uScrollY := 1 # 10;
     uOverscrollX := 1 # 2; uOverscrollY := - 1 # 4;
     viewportWidth := 100; viewportHeight := 300;
     uInterpolationStrength := 7 # 10 |}.

(** [sampleEffect] pulled the same amount at the end edge, with its
    uniforms for [CONTENT_DISTANCE_STRETCHED = 1]. *)
Definition mirroredEffect : StretchEffect Q :=
  {| width := 100; height := 200;
     vectorX := - (1 # 2); vectorY := 0;
     mappedChildBounds := {| left := 20; top := 0; right := 120; bottom := 200 |} |}.

Definition mirroredUniforms : Uniforms Q :=
  {| uStretchAffectedDistX := 1; uStretchAffectedDistY := 1;
     uDistanceStretchedX := 2 # 3; uDistanceStretchedY := 1;
     uInverseDistanceStretchedX := 1; uInverseDistanceStretchedY := 1;
     uDistDiffX := - 1 # 3; uDistDiffY := 0;
     uScrollX := 20 # 100; uScrollY := 0 # 200;
     uOverscrollX := - (1 # 2); uOverscrollY := 0;
     viewportWidth := 100; viewportHeight := 200;
     uInterpolationStrength := 7 # 10 |}.

(** The scenario of the specification in single precision: an affected
    distance of [0.3f] and an overscroll of [0.5f] on the horizontal axis.
    [0.3f] is [0x3E99999A], [10066330 * 2^-25]; [0.5f], [20.f], [100.f]
    and [200.f] are exact. *)
Definition b32_0_3 : binary32 := S754_finite false 10066330 (-25).
Definition b32_0_5 : binary32 := S754_finite false 8388608 (-24).
Definition b32_20 : binary32 := S754_finite false 10485760 (-19).
Definition b32_100 : binary32 := S754_finite false 13107200 (-17).
Definition b32_200 : binary32 := S754_finite false 13107200 (-16).

Definition sampleEffect32 : StretchEffect binary32 :=
  {| width := b32_100; height := b32_200;
     vectorX := b32_0_5; vectorY := S754_zero false;
     mappedChildBounds :=
       {| left := b32_20; top := S754_zero false;
          right := b32_100; bottom := b32_200 |} |}.

(** The uniforms of [sampleEffect32] for [CONTENT_DISTANCE_STRETCHED =
    0.3f]: a stretched distance of [0.2f] and a difference of [-0.1f] on
    the horizontal axis. *)
Definition sampleUniforms32 : Uniforms binary32 :=
  {| uStretchAffectedDistX := b32_0_3;
     uStretchAffectedDistY := b32_0_3;
     uDistanceStretchedX := S754_finite false 13421773 (-26);
     uDistanceStretchedY := b32_0_3;
     uInverseDistanceStretchedX := S754_finite false 13981013 (-22);
     uInverseDistanceStretchedY := S754_finite false 13981013 (-22);
     uDistDiffX := S754_finite true 13421774 (-27);
     uDistDiffY := S754_zero false;
     uScrollX := S754_finite false 13421773 (-26);
     uScrollY := S754_zero false;
     uOverscrollX := b32_0_5;
     uOverscrollY := S754_zero false;
     viewportWidth := b32_100;
     viewportHeight := b32_200;
     uInterpolationStrength := b32_0_7 |}.

(** ** Values of [binary32] and the rounding of [SpecFloat]

    The operations of [binary32_float] are those of [SpecFloat] at
    precision 24 and maximal exponent 128.  To reason about what the
    program computes, a float is given its exact value in [Q], and the
    rounding that ends every operation of [SpecFloat]
    ([binary_round_aux]) is described by the relation [Rnd] between the
    exact result and the float returned. *)

Section RoundingDefinitions.

Local Open Scope Z_scope.
Local Open Scope Q_scope.

(** [2 ^ e] in [Q]. *)
Definition bpow (e : Z) : Q := 2 ^ e.

(** The value of a float with sign [s], mantissa [m] and exponent [e]. *)
Definition F2Q (s : bool) (m : Z) (e : Z) : Q :=
  (if s then - inject_Z m else inject_Z m) * bpow e.

(** The value of a finite float; the infinities and NaN, which have
    none, are given [0] and are told apart by [is_finite]. *)
Definition SF2Q (x : spec_float) : Q :=
  match x with
  | S754_finite s m e => F2Q s (Z.pos m) e
  | _ => 0
  end.

Definition is_finite (x : spec_float) : bool :=
  match x with
  | S754_finite _ _ _ | S754_zero _ => true
  | _ => false
  end.

(** The floats of the format: a finite float is one when its mantissa
    has at most 24 bits, its exponent is the canonical one and is at
    most 104. *)
Definition valid32 (x : spec_float) : bool := valid_binary b32_prec b32_emax x.

(** The canonical exponent of a number with [e] binary digits before the
    point: 24 bits of mantissa, and no exponent below [-149]. *)
Definition fexp32 (e : Z) : Z := Z.max (e - 24) (-149).

(** Where the number [y] lies between the integers [m] and [m + 1], in
    the terms of [SpecFloat.location]. *)
Definition located (y : Q) (m : Z) (l : location) : Prop :=
  match l with
  | loc_Exact => y == inject_Z m
  | loc_Inexact Lt => inject_Z m < y /\ y < inject_Z m + (1 # 2)
  | loc_Inexact Eq => y == inject_Z m + (1 # 2)
  | loc_Inexact Gt => inject_Z m + (1 # 2) < y /\ y < inject_Z m + 1
  end.

(** [N] is an integer nearest to [y], the even one when there are two. *)
Definition rne_spec (y : Q) (N : Z) : Prop :=
  inject_Z N - (1 # 2) <= y <= inject_Z N + (1 # 2)
  /\ (y == inject_Z N - (1 # 2) \/ y == inject_Z N + (1 # 2) -> Z.even N = true).

(** The float that [binary_round_aux] returns for the rounded mantissa
    [N] at exponent [e]: a mantissa of [2 ^ 24] is renormalised, and an
    exponent above 104 overflows to an infinity. *)
Definition encode (s : bool) (N e : Z) : spec_float :=
  match N with
  | Z0 => S754_zero s
  | Zpos p =>
      if (N =? 2 ^ 24)%Z then
        if (e + 1 <=? 104)%Z then S754_finite s (2 ^ 23)%positive (e + 1)
        else S754_infinity s
      else if (e <=? 104)%Z then S754_finite s p e else S754_infinity s
  | Zneg _ => S754_nan
  end.

(** Rounding the non-negative number [x] to nearest, ties to even: [x]
    has [k] digits before the point, the exponent is the canonical one,
    and the mantissa [N] is nearest to [x / 2 ^ e']. *)
Definition round_pos (x : Q) (N e' : Z) : Prop :=
  exists k : Z,
    e' = fexp32 k
    /\ (0 <= x /\ x < bpow k)
    /\ ((-149 < e')%Z -> bpow (k - 1) <= x)
    /\ (0 <= N <= 2 ^ 24)%Z
    /\ ((-149 < e')%Z -> (2 ^ 23 <= N)%Z)
    /\ rne_spec (x / bpow e') N.

Definition wf_round (N e' : Z) : Prop :=
  (-149 <= e')%Z /\ (0 <= N <= 2 ^ 24)%Z /\ ((-149 < e')%Z -> (2 ^ 23 <= N)%Z).

(** The float [z] is the rounding of the exact result [r]: the sign is
    that of [r] and the magnitude is rounded by [round_pos]. *)
Definition Rnd (r : Q) (z : spec_float) : Prop :=
  exists (s : bool) (N e' : Z),
    (if s then r <= 0 else 0 <= r)
    /\ round_pos (Qabs r) N e'
    /\ z = encode s N e'.

End RoundingDefinitions.

(** A float of the format that is neither an infinity nor NaN. *)
Definition finite32 (x : binary32) : bool := valid32 x && is_finite x.

(** ** Sample inputs in single precision *)

(** The smallest positive float, [2^-149]; its reciprocal overflows. *)
Definition b32_min_subnormal : binary32 := S754_finite false 1 (-149).

(** [0.2f] is [0x3E4CCCCD]; [0.25f] and [0.75f] are exact. *)
Definition b32_0_2 : binary32 := S754_finite false 13421773 (-26).

(** The uniforms of [sampleEffect32] for [CONTENT_DISTANCE_STRETCHED =
    1.f]: a stretched distance of [1.f / 1.5f] and the difference to
    [1.f]. *)
Definition unitUniforms32 : Uniforms binary32 :=
  {| uStretchAffectedDistX := b32_one;
     uStretchAffectedDistY := b32_one;
     uDistanceStretchedX := S754_finite false 11184811 (-24);
     uDistanceStretchedY := b32_one;
     uInverseDistanceStretchedX := b32_one;
     uInverseDistanceStretchedY := b32_one;
     uDistDiffX := S754_finite true 11184810 (-25);
     uDistDiffY := S754_zero false;
     uScrollX := S754_finite false 13421773 (-26);
     uScrollY := S754_zero false;
     uOverscrollX := b32_0_5;
     uOverscrollY := S754_zero false;
     viewportWidth := b32_100;
     viewportHeight := b32_200;
     uInterpolationStrength := b32_0_7 |}.

(** The uniforms of [sampleEffect32] for [CONTENT_DISTANCE_STRETCHED =
    2^-149]: the inverse distance is the positive infinity. *)
Definition tinyUniforms32 : Uniforms binary32 :=
  {| uStretchAffectedDistX := b32_min_subnormal;
     uStretchAffectedDistY := b32_min_subnormal;
     uDistanceStretchedX := b32_min_subnormal;
     uDistanceStretchedY := b32_min_subnormal;
     uInverseDistanceStretchedX := S754_infinity false;
     uInverseDistanceStretchedY := S754_infinity false;
     uDistDiffX := S754_zero false;
     uDistDiffY := S754_zero false;
     uScrollX := S754_finite false 13421773 (-26);
     uScrollY := S754_zero false;
     uOverscrollX := b32_0_5;
     uOverscrollY := S754_zero false;
     viewportWidth := b32_100;
     viewportHeight := b32_200;
     uInterpolationStrength := b32_0_7 |}.


(** [sampleEffect32] pulled the same amount at the end edge, with its
    uniforms for [CONTENT_DISTANCE_STRETCHED = 0.3f]. *)
Definition mirroredEffect32 : StretchEffect binary32 :=
  {| width := b32_100; height := b32_200;
     vectorX := S754_finite true 8388608 (-24); vectorY := S754_zero false;
     mappedChildBounds :=
       {| left := b32_20; top := S754_zero false;
          right := b32_100; bottom := b32_200 |} |}.

Definition mirroredUniforms32 : Uniforms binary32 :=
  {| uStretchAffectedDistX := b32_0_3;
     uStretchAffectedDistY := b32_0_3;
     uDistanceStretchedX := S754_finite false 13421773 (-26);
     uDistanceStretchedY := b32_0_3;
     uInverseDistanceStretchedX := S754_finite false 13981013 (-22);
     uInverseDistanceStretchedY := S754_finite false 13981013 (-22);
     uDistDiffX := S754_finite true 13421774 (-27);
     uDistDiffY := S754_zero false;
     uScrollX := S754_finite false 13421773 (-26);
     uScrollY := S754_zero false;
     uOverscrollX := S754_finite true 8388608 (-24);
     uOverscrollY := S754_zero false;
     viewportWidth := b32_100;
     viewportHeight := b32_200;
     uInterpolationStrength := b32_0_7 |}.

(** ** The comparison laws hold in both instances *)

Lemma Qlt_bool_iff (x y : Q) : Qlt_bool x y = true <-> (x < y)%Q.
Proof. unfold Qlt_bool, Qlt. apply Z.ltb_lt. Qed.

Lemma Qlt_bool_false_iff (x y : Q) : Qlt_bool x y = false <-> (y <= x)%Q.
Proof. unfold Qlt_bool, Qle. apply Z.ltb_ge. Qed.

Lemma Qle_bool_false_iff (x y : Q) : Qle_bool x y = false <-> (y < x)%Q.
Proof. unfold Qle_bool, Qlt. apply Z.leb_gt. Qed.

#[export] Instance Q_laws : FloatLaws Q.
Proof.
  split; cbn [flt fle feq Q_float].
  - intros x y Hxy. apply Qlt_bool_iff in Hxy. apply Qlt_bool_false_iff.
    apply Qlt_le_weak, Hxy.
  - intros x y Hxy. apply Qlt_bool_iff in Hxy. apply Qle_bool_false_iff, Hxy.
  - intros x y Hxy. apply Qeq_bool_iff in Hxy.
    split; apply Qlt_bool_false_iff; rewrite Hxy; apply Qle_refl.
Defined.

(** Swapping the arguments of the IEEE comparison reverses its answer;
    an unordered pair (a NaN on either side) stays unordered. *)
Lemma SFcompare_swap (x y : spec_float) :
  SFcompare y x = option_map CompOpp (SFcompare x y).
Proof.
  destruct x as [sx|sx| |sx mx ex], y as [sy|sy| |sy my ey]; cbn;
    try reflexivity;
    try (destruct sx; reflexivity);
    try (destruct sy; reflexivity);
    try (destruct sx, sy; reflexivity).
  destruct sx, sy; cbn; try reflexivity;
    rewrite (Z.compare_antisym ex ey);
    destruct (ex ?= ey)%Z; cbn; try reflexivity;
    pose proof (Pos.compare_cont_antisym mx my Eq) as Hm; cbn in Hm;
    rewrite <- Hm; try rewrite CompOpp_involutive; reflexivity.
Qed.

#[export] Instance binary32_laws : FloatLaws binary32.
Proof.
  split; cbn [flt fle feq binary32_float]; unfold SFltb, SFleb, SFeqb;
    intros x y; rewrite (SFcompare_swap x y);
    destruct (SFcompare x y) as [[ | | ]|]; cbn; intros Hxy;
    try discriminate; auto.
Defined.

(** ** The branches of [computeOverscroll] *)

Section ControlFlow.

Context {F : Type} {ops : FloatOps F} {laws : FloatLaws F}.
Local Open Scope float_scope.

Lemma pos_not_neg (x : F) : (x >? 0) = true -> (x <? 0) = false.
Proof. unfold fgt. apply flt_asym. Qed.

Lemma neg_not_pos (x : F) : (x <? 0) = true -> (x >? 0) = false.
Proof. unfold fgt. apply flt_asym. Qed.

Lemma gt_not_le (x y : F) : (x >? y) = true -> (x <=? y) = false.
Proof. unfold fgt. apply flt_not_ge. Qed.

Lemma lt_not_ge (x y : F) : (x <? y) = true -> (x >=? y) = false.
Proof. unfold fge. apply flt_not_ge. Qed.

Lemma computeOverscrollStart_denominator (inPos ov a ia ds s : F) :
  computeOverscrollStart inPos ov a ia ds s
  = ds - (a - inPos) / startDenominator inPos ov a ia s.
Proof. reflexivity. Qed.

Lemma computeOverscrollEnd_denominator (inPos ov r a ia ds s : F) :
  computeOverscrollEnd inPos ov r a ia ds s
  = 1 - (ds - (inPos - r) / endDenominator inPos ov r ia s).
Proof. reflexivity. Qed.

(** [computeOverscroll] returns the value of the branch that [region]
    names. *)
Lemma computeOverscroll_region (inPos ov a ia ds dd s : F) :
  computeOverscroll inPos ov a ia ds dd s
  = match region inPos ov a ds with
    | StartEasing => computeOverscrollStart inPos ov a ia ds s
    | StartShift => dd + inPos
    | EndEasing => computeOverscrollEnd inPos ov (1 - a) a ia ds s
    | EndShift => - dd + inPos
    | Identity => inPos
    end.
Proof.
  unfold computeOverscroll, region.
  destruct (ov >? 0) eqn:Hpos.
  - rewrite (pos_not_neg _ Hpos).
    destruct (inPos <=? a); [reflexivity|].
    destruct (inPos >=? ds); reflexivity.
  - destruct (ov <? 0); [|reflexivity].
    cbv zeta. destruct (inPos >=? 1 - a); [reflexivity|].
    destruct (inPos <? 1 - a); reflexivity.
Qed.

(** [main] remaps each component with the parameters of its axis. *)
Lemma main_remaps_each_axis (u : Uniforms F) (coord : vec2 F) :
  remappedCoord u coord
  = {| vx := (remap (axisX u) (vx coord / viewportWidth u + uScrollX u)
              - uScrollX u) * viewportWidth u;
       vy := (remap (axisY u) (vy coord / viewportHeight u + uScrollY u)
              - uScrollY u) * viewportHeight u |}.
Proof. reflexivity. Qed.

End ControlFlow.

(** ** Properties of the control flow, for every float instance *)

Local Open Scope float_scope.

(** C1. With [overscroll > 0], [computeOverscroll] applies the start
    easing [computeOverscrollStart] whenever [inPos <= affectedDist]
    (also when [inPos >= distanceStretched] holds as well: the easing test
    comes first); for [inPos > affectedDist] it returns the shift
    [distanceDiff + inPos] whenever [inPos >= distanceStretched]; and for
    [affectedDist < inPos < distanceStretched] it returns [inPos]. *)
Theorem computeOverscroll_start_edge_regions
    {F : Type} {ops : FloatOps F} {laws : FloatLaws F}
    (inPos overscroll affectedDist invAffectedDist distanceStretched
     distanceDiff interpolationStrength : F) :
  (overscroll >? 0) = true ->
  let out :=
    computeOverscroll inPos overscroll affectedDist invAffectedDist
      distanceStretched distanceDiff interpolationStrength in
  ((inPos <=? affectedDist) = true ->
     out = computeOverscrollStart inPos overscroll affectedDist
             invAffectedDist distanceStretched interpolationStrength)
  /\ ((inPos >? affectedDist) = true -> (inPos >=? distanceStretched) = true ->
        out = distanceDiff + inPos)
  /\ ((affectedDist <? inPos) = true -> (inPos <? distanceStretched) = true ->
        out = inPos)
  /\ ((distanceStretched <=? inPos) = true -> (inPos <=? affectedDist) = true ->
        out = computeOverscrollStart inPos overscroll affectedDist
                invAffectedDist distanceStretched interpolationStrength).
Proof.
  intros Hpos out. subst out.
  rewrite computeOverscroll_region. unfold region. rewrite Hpos.
  repeat split.
  - intros Hle. rewrite Hle. reflexivity.
  - intros Hgt Hge. rewrite (gt_not_le _ _ Hgt), Hge. reflexivity.
  - intros Hgt Hlt. rewrite (gt_not_le inPos affectedDist Hgt).
    rewrite (lt_not_ge _ _ Hlt). reflexivity.
  - intros _ Hle. rewrite Hle. reflexivity.
Qed.

(** C2. With [overscroll > 0] and [inPos <= affectedDist] the result is
    [distanceStretched - offsetPos / (1 + overscroll * mix(1, offsetPos *
    invAffectedDist, interpolationStrength))] with [offsetPos =
    affectedDist - inPos]; with [overscroll < 0] and [inPos >=
    reverseStretchDist = 1 - affectedDist] it is [1 - (distanceStretched -
    offsetPos / (1 + (-overscroll) * mix(1, offsetPos * invAffectedDist,
    interpolationStrength)))] with [offsetPos = inPos - reverseStretchDist].
    ([mix] is the linear interpolation the specification calls lerp.) *)
Theorem computeOverscroll_easing_formulas
    {F : Type} {ops : FloatOps F} {laws : FloatLaws F}
    (inPos overscroll affectedDist invAffectedDist distanceStretched
     distanceDiff interpolationStrength : F) :
  let out :=
    computeOverscroll inPos overscroll affectedDist invAffectedDist
      distanceStretched distanceDiff interpolationStrength in
  ((overscroll >? 0) = true -> (inPos <=? affectedDist) = true ->
     let offsetPos := affectedDist - inPos in
     out = distanceStretched
           - offsetPos
             / (1 + overscroll
                    * mix 1 (offsetPos * invAffectedDist) interpolationStrength))
  /\ (let reverseStretchDist := 1 - affectedDist in
      (overscroll <? 0) = true -> (inPos >=? reverseStretchDist) = true ->
      let offsetPos := inPos - reverseStretchDist in
      out = 1 - (distanceStretched
                 - offsetPos
                   / (1 + (- overscroll)
                          * mix 1 (offsetPos * invAffectedDist)
                              interpolationStrength))).
Proof.
  cbv zeta. rewrite computeOverscroll_region. unfold region.
  split.
  - intros Hpos Hle. rewrite Hpos, Hle. reflexivity.
  - intros Hneg Hge. rewrite (neg_not_pos _ Hneg), Hneg, Hge. reflexivity.
Qed.

(** C6. If [overscroll == 0], [computeOverscroll] returns [inPos]
    unchanged, whatever the other parameters are: both [if] statements
    are skipped. *)
Theorem computeOverscroll_zero_overscroll
    {F : Type} {ops : FloatOps F} {laws : FloatLaws F}
    (inPos overscroll affectedDist invAffectedDist distanceStretched
     distanceDiff interpolationStrength : F) :
  (overscroll =? 0) = true ->
  (overscroll >? 0) = false
  /\ (overscroll <? 0) = false
  /\ computeOverscroll inPos overscroll affectedDist invAffectedDist
       distanceStretched distanceDiff interpolationStrength = inPos.
Proof.
  intros Hz. destruct (feq_not_lt _ _ Hz) as [Hlt Hgt].
  change ((overscroll >? 0) = false) in Hgt.
  repeat split; try assumption.
  unfold computeOverscroll. rewrite Hgt, Hlt. reflexivity.
Qed.

(** C10. The axes do not interfere: two runs of [main] that agree on the
    horizontal inputs ([coord.x], [viewportWidth], [uScrollX],
    [uOverscrollX], the X parameters and [uInterpolationStrength]) sample
    at the same x, whatever the vertical inputs are; and symmetrically
    for y. *)
Theorem main_axes_independent {F : Type} {ops : FloatOps F}
    (u1 u2 : Uniforms F) (c1 c2 : vec2 F) :
  (sameInputsX u1 u2 c1 c2 -> vx (remappedCoord u1 c1) = vx (remappedCoord u2 c2))
  /\ (sameInputsY u1 u2 c1 c2 -> vy (remappedCoord u1 c1) = vy (remappedCoord u2 c2)).
Proof.
  split.
  - intros (Hc & Hw & Hs & Ho & Ha & Hi & Hd & Hdd & Hst).
    unfold remappedCoord, main. cbn [vx].
    rewrite Hc, Hw, Hs, Ho, Ha, Hi, Hd, Hdd, Hst. reflexivity.
  - intros (Hc & Hw & Hs & Ho & Ha & Hi & Hd & Hdd & Hst).
    unfold remappedCoord, main. cbn [vy].
    rewrite Hc, Hw, Hs, Ho, Ha, Hi, Hd, Hdd, Hst. reflexivity.
Qed.

(** ** Parameter derivation *)

(** When the effect is active, [createSkShader] returns the program bound
    to the input shader. *)
Lemma createSkShader_has_effect {F : Type} {ops : FloatOps F} {C : Type}
    (CDS : F) (inputShader : vec2 F -> C) (e : StretchEffect F) :
  hasEffect e = true ->
  exists sh, createSkShader CDS inputShader e = Some sh
             /\ uContentTexture sh = inputShader.
Proof.
  intros He. unfold createSkShader. rewrite He. cbn.
  eexists. split; reflexivity.
Qed.

(** The uniforms that do not need any computation. *)
Lemma createSkShader_plain_uniforms {F : Type} {ops : FloatOps F} {C : Type}
    (CDS : F) (inputShader : vec2 F -> C) (e : StretchEffect F)
    (sh : RuntimeShader F C) :
  createSkShader CDS inputShader e = Some sh ->
  let u := uniforms sh in
  uStretchAffectedDistX u = CDS /\ uStretchAffectedDistY u = CDS
  /\ uOverscrollX u = vectorX e /\ uOverscrollY u = vectorY e
  /\ viewportWidth u = width e /\ viewportHeight u = height e
  /\ uInterpolationStrength u = INTERPOLATION_STRENGTH_VALUE.
Proof.
  unfold createSkShader. destruct (negb (hasEffect e)); [discriminate|].
  intros Hsh. injection Hsh as <-. cbn. repeat split.
Qed.

(** C7. For a [StretchEffect] with [hasEffect() == true], [createSkShader]
    sets, for each axis, [distanceStretched = CONTENT_DISTANCE_STRETCHED /
    (1 + |overscroll|)], [inverseDistanceStretched = 1 /
    CONTENT_DISTANCE_STRETCHED] (from the constant, not from the stretched
    distance of the axis), [diff = distanceStretched -
    CONTENT_DISTANCE_STRETCHED], and the scroll [mappedChildBounds.left /
    width], respectively [top / height]. *)
Theorem createSkShader_derived_uniforms
    {F : Type} {ops : FloatOps F} {C : Type}
    (CDS : F) (inputShader : vec2 F -> C) (e : StretchEffect F) :
  hasEffect e = true ->
  exists sh : RuntimeShader F C,
    createSkShader CDS inputShader e = Some sh
    /\ (let u := uniforms sh in
        uDistanceStretchedX u = CDS / (1 + fabs (vectorX e))
        /\ uDistanceStretchedY u = CDS / (1 + fabs (vectorY e))
        /\ uInverseDistanceStretchedX u = 1 / CDS
        /\ uInverseDistanceStretchedY u = 1 / CDS
        /\ uDistDiffX u = uDistanceStretchedX u - CDS
        /\ uDistDiffY u = uDistanceStretchedY u - CDS
        /\ uScrollX u = left (mappedChildBounds e) / width e
        /\ uScrollY u = top (mappedChildBounds e) / height e).
Proof.
  intros He. unfold createSkShader. rewrite He. cbn [negb].
  eexists. split; [reflexivity|]. cbn. repeat split.
Qed.

(** C8. For a [StretchEffect] with [hasEffect() == false],
    [createSkShader] produces no stretch shader, and the content is
    sampled at the coordinate as it came (with the identity as content,
    the result is the input coordinate), for every viewport size and
    scroll offset. *)
Theorem createSkShader_no_effect
    {F : Type} {ops : FloatOps F} {C : Type}
    (CDS : F) (inputShader : vec2 F -> C) (e : StretchEffect F) :
  hasEffect e = false ->
  createSkShader CDS inputShader e = None
  /\ (forall coord : vec2 F, sampleStretched CDS inputShader e coord = inputShader coord)
  /\ (forall coord : vec2 F, sampleStretched CDS (fun c => c) e coord = coord).
Proof.
  intros He. unfold sampleStretched, createSkShader. rewrite He. cbn [negb].
  repeat split.
Qed.

(** ** The boundary of the start edge in exact arithmetic *)

Local Close Scope float_scope.
Local Open Scope Q_scope.

(** Unfolding the program down to the operations of [Q]. *)
Ltac q_ops :=
  cbn [fadd fsub fmul fdiv fneg fabs flt fle feq fzero fone f0_7 Q_float] in *.

Ltac q_unfold :=
  unfold computeOverscrollStart, computeOverscrollEnd, startDenominator,
    endDenominator, mix, easeIn, fgt, fge in *;
  q_ops.

(** Turning the boolean tests of the program into order facts. *)
Ltac q_tests :=
  repeat match goal with
    | H : Qlt_bool _ _ = true |- _ => apply Qlt_bool_iff in H
    | H : Qlt_bool _ _ = false |- _ => apply Qlt_bool_false_iff in H
    | H : Qle_bool _ _ = true |- _ => apply Qle_bool_iff in H
    | H : Qle_bool _ _ = false |- _ => apply Qle_bool_false_iff in H
    end.

(** In exact arithmetic [mix] is the interpolation [x + (y - x) * a]. *)
Lemma mix_lerp (x y a : Q) : mix x y a == x + (y - x) * a.
Proof. q_unfold. ring. Qed.

(** At the boundary [inPos = affectedDist] the offset is zero: the divisor
    of the easing is [1 + overscroll * (1 - interpolationStrength)], the
    easing yields [distanceStretched], and so does the shift when
    [distanceDiff = distanceStretched - affectedDist]. *)
Lemma boundary_of_start_edge (v a ia ds dd s : Q) :
  0 < v -> 0 <= s <= 1 -> dd == ds - a ->
  0 < startDenominator a v a ia s
  /\ computeOverscrollStart a v a ia ds s == ds
  /\ (dd + a)%F == ds
  /\ computeOverscroll a v a ia ds dd s == ds.
Proof.
  intros Hv [Hs0 Hs1] Hdd.
  assert (Hstart : computeOverscrollStart a v a ia ds s == ds).
  { q_unfold. unfold Qdiv. ring. }
  repeat split.
  - q_unfold.
    setoid_replace (1 + v * (1 * (1 - s) + (a - a) * ia * s))
      with (1 + v * (1 - s)) by ring.
    nra.
  - exact Hstart.
  - q_ops. rewrite Hdd. ring.
  - rewrite computeOverscroll_region. unfold region. q_unfold.
    destruct (Qlt_bool 0 v) eqn:Hpos; q_tests; [|lra].
    destruct (Qle_bool a a) eqn:Hle; q_tests; [|lra].
    exact Hstart.
Qed.

(** ** The properties at the sample inputs *)

Example createSkShader_sampleEffect :
  createSkShader 1 (fun c : vec2 Q => c) sampleEffect
  = Some {| uContentTexture := fun c => c; uniforms := sampleUniforms |}.
Proof. reflexivity. Qed.

(** The start edge with [affectedDist = 3/10] and [overscroll = 1/2]:
    easing at [1/10], shift at [3/4]; easing first at [1/4], where both
    tests hold; and, with [distanceStretched = 1/2] above the affected
    distance, identity at [2/5]. *)
Lemma computeOverscroll_start_edge_regions_witness :
  (((1 # 2) >? 0)%F = true
   /\ ((1 # 10) <=? (3 # 10))%F = true
   /\ computeOverscroll (1 # 10) (1 # 2) (3 # 10) (10 # 3) (1 # 5) (- 1 # 10) (7 # 10)
      = computeOverscrollStart (1 # 10) (1 # 2) (3 # 10) (10 # 3) (1 # 5) (7 # 10))
  /\ ((((3 # 4) >? (3 # 10))%F = true /\ ((3 # 4) >=? (1 # 5))%F = true)
      /\ computeOverscroll (3 # 4) (1 # 2) (3 # 10) (10 # 3) (1 # 5) (- 1 # 10) (7 # 10)
         = (- 1 # 10) + (3 # 4))
  /\ ((((3 # 10) <? (2 # 5))%F = true /\ ((2 # 5) <? (1 # 2))%F = true)
      /\ computeOverscroll (2 # 5) (1 # 2) (3 # 10) (10 # 3) (1 # 2) (1 # 5) (7 # 10)
         = 2 # 5)
  /\ ((((1 # 5) <=? (1 # 4))%F = true /\ ((1 # 4) <=? (3 # 10))%F = true)
      /\ computeOverscroll (1 # 4) (1 # 2) (3 # 10) (10 # 3) (1 # 5) (- 1 # 10) (7 # 10)
         = computeOverscrollStart (1 # 4) (1 # 2) (3 # 10) (10 # 3) (1 # 5) (7 # 10)).
Proof.
  split; [split; [reflexivity|split; [reflexivity|]]|].
  { apply (proj1 (@computeOverscroll_start_edge_regions Q Q_float Q_laws
             (1 # 10) (1 # 2) (3 # 10) (10 # 3) (1 # 5) (- 1 # 10) (7 # 10) eq_refl)).
    reflexivity. }
  split; [split; [split; reflexivity|]|].
  { apply (proj1 (proj2 (@computeOverscroll_start_edge_regions Q Q_float Q_laws
             (3 # 4) (1 # 2) (3 # 10) (10 # 3) (1 # 5) (- 1 # 10) (7 # 10) eq_refl)));
      reflexivity. }
  split; [split; [split; reflexivity|]|].
  { apply (proj1 (proj2 (proj2 (@computeOverscroll_start_edge_regions Q Q_float Q_laws
             (2 # 5) (1 # 2) (3 # 10) (10 # 3) (1 # 2) (1 # 5) (7 # 10) eq_refl))));
      reflexivity. }
  split; [split; reflexivity|].
  apply (proj2 (proj2 (proj2 (@computeOverscroll_start_edge_regions Q Q_float Q_laws
           (1 # 4) (1 # 2) (3 # 10) (10 # 3) (1 # 5) (- 1 # 10) (7 # 10) eq_refl))));
    reflexivity.
Defined.

(** The start easing at [1/10] for an overscroll of [1/2], the end easing
    at [9/10] for an overscroll of [- 1/2]. *)
Lemma computeOverscroll_easing_formulas_witness :
  ((((1 # 2) >? 0)%F = true /\ ((1 # 10) <=? (3 # 10))%F = true)
   /\ computeOverscroll (1 # 10) (1 # 2) (3 # 10) (10 # 3) (1 # 5) (- 1 # 10) (7 # 10)
      = (1 # 5)
        - ((3 # 10) - (1 # 10))
          / (1 + (1 # 2) * mix 1 (((3 # 10) - (1 # 10)) * (10 # 3)) (7 # 10)))
  /\ ((((- 1 # 2) <? 0)%F = true /\ ((9 # 10) >=? 1 - (3 # 10))%F = true)
      /\ computeOverscroll (9 # 10) (- 1 # 2) (3 # 10) (10 # 3) (1 # 5) (- 1 # 10) (7 # 10)
         = 1 - ((1 # 5)
                - ((9 # 10) - (1 - (3 # 10)))
                  / (1 + - (- 1 # 2)
                         * mix 1 (((9 # 10) - (1 - (3 # 10))) * (10 # 3)) (7 # 10)))).
Proof.
  split; (split; [split; reflexivity|]).
  - apply (proj1 (@computeOverscroll_easing_formulas Q Q_float Q_laws
             (1 # 10) (1 # 2) (3 # 10) (10 # 3) (1 # 5) (- 1 # 10) (7 # 10)));
      reflexivity.
  - apply (proj2 (@computeOverscroll_easing_formulas Q Q_float Q_laws
             (9 # 10) (- 1 # 2) (3 # 10) (10 # 3) (1 # 5) (- 1 # 10) (7 # 10)));
      reflexivity.
Defined.

(** A zero overscroll written [0/5]. *)
Lemma computeOverscroll_zero_overscroll_witness :
  ((0 # 5) =? 0)%F = true
  /\ computeOverscroll (3 # 4) (0 # 5) (3 # 10) (10 # 3) (1 # 5) (- 1 # 10) (7 # 10)
     = 3 # 4.
Proof.
  split; [reflexivity|].
  apply (@computeOverscroll_zero_overscroll Q Q_float Q_laws
           (3 # 4) (0 # 5) (3 # 10) (10 # 3) (1 # 5) (- 1 # 10) (7 # 10)).
  reflexivity.
Defined.

Lemma createSkShader_derived_uniforms_witness :
  hasEffect sampleEffect = true
  /\ exists sh : RuntimeShader Q (vec2 Q),
       createSkShader 1 (fun c => c) sampleEffect = Some sh
       /\ uDistanceStretchedX (uniforms sh) = 1 / (1 + Qabs (1 # 2))
       /\ uDistDiffX (uniforms sh) = uDistanceStretchedX (uniforms sh) - 1
       /\ uScrollX (uniforms sh) = 20 / 100.
Proof.
  split; [reflexivity|].
  destruct (@createSkShader_derived_uniforms Q Q_float (vec2 Q) 1 (fun c => c)
              sampleEffect eq_refl)
    as (sh & Hsh & HdX & _ & _ & _ & HdiffX & _ & HsX & _).
  exists sh. repeat split; assumption.
Defined.

Lemma createSkShader_no_effect_witness :
  hasEffect idleEffect = false
  /\ sampleStretched 1 (fun c => c) idleEffect {| vx := 30; vy := 40 |}
     = {| vx := 30; vy := 40 |}.
Proof.
  split; [reflexivity|].
  apply (@createSkShader_no_effect Q Q_float (vec2 Q) 1 (fun c => c) idleEffect
           eq_refl).
Defined.

Lemma main_axes_independent_witness :
  sameInputsX sampleUniforms tallUniforms {| vx := 30; vy := 40 |} {| vx := 30; vy := 77 |}
  /\ vx (remappedCoord sampleUniforms {| vx := 30; vy := 40 |})
     = vx (remappedCoord tallUniforms {| vx := 30; vy := 77 |}).
Proof.
  assert (Hsame : sameInputsX sampleUniforms tallUniforms
                    {| vx := 30; vy := 40 |} {| vx := 30; vy := 77 |})
    by (repeat split).
  split; [exact Hsame|].
  apply (proj1 (main_axes_independent sampleUniforms tallUniforms
                  {| vx := 30; vy := 40 |} {| vx := 30; vy := 77 |})).
  exact Hsame.
Defined.

(** ** The scenario of the specification, run on both instances *)

(** [affectedDist = 0.3], [overscroll = 0.5], [interpolationStrength =
    0.7]: at [inPos = 0.3] the output is [distanceStretched], at [inPos =
    1.0] it is [distanceDiff + 1.0]. *)
Example scenario_exact :
  createSkShader (3 # 10) (fun c : vec2 Q => c) sampleEffect
  = Some {| uContentTexture := fun c => c;
            uniforms :=
              {| uStretchAffectedDistX := 3 # 10; uStretchAffectedDistY := 3 # 10;
                 uDistanceStretchedX := 6 # 30; uDistanceStretchedY := 3 # 10;
                 uInverseDistanceStretchedX := 10 # 3;
                 uInverseDistanceStretchedY := 10 # 3;
                 uDistDiffX := - 30 # 300; uDistDiffY := 0 # 100;
                 uScrollX := 20 # 100; uScrollY := 0 # 200;
                 uOverscrollX := 1 # 2; uOverscrollY := 0;
                 viewportWidth := 100; viewportHeight := 200;
                 uInterpolationStrength := 7 # 10 |} |}
  /\ computeOverscroll (3 # 10) (1 # 2) (3 # 10) (10 # 3) (6 # 30) (- 30 # 300) (7 # 10)
     == 6 # 30
  /\ computeOverscroll 1 (1 # 2) (3 # 10) (10 # 3) (6 # 30) (- 30 # 300) (7 # 10)
     = (- 30 # 300) + 1.
Proof. repeat split. Qed.

(** The same in single precision, bit for bit; the vertical axis, whose
    overscroll is zero, returns its position unchanged. *)
Example scenario_binary32 :
  createSkShader b32_0_3 (fun c : vec2 binary32 => c) sampleEffect32
  = Some {| uContentTexture := fun c => c; uniforms := sampleUniforms32 |}
  /\ remap (axisX sampleUniforms32) b32_0_3
     = distanceStretched (axisX sampleUniforms32)
  /\ remap (axisX sampleUniforms32) b32_one
     = (distanceDiff (axisX sampleUniforms32) + b32_one)%F
  /\ remap (axisY sampleUniforms32) b32_0_7 = b32_0_7.
Proof. repeat split; vm_compute; reflexivity. Qed.

(** ** The end edge *)

Example createSkShader_mirroredEffect :
  createSkShader 1 (fun c : vec2 Q => c) mirroredEffect
  = Some {| uContentTexture := fun c => c; uniforms := mirroredUniforms |}.
Proof. reflexivity. Qed.

(** X1. With [overscroll < 0], [computeOverscroll] applies the end easing
    [computeOverscrollEnd], with [1 - affectedDist] as its reverse stretch
    distance, whenever [inPos >= 1 - affectedDist], and returns the shift
    [- distanceDiff + inPos] whenever [inPos < 1 - affectedDist]; the
    tests of the start edge are skipped.  (Every float instance.) *)
Theorem computeOverscroll_end_edge_regions
    {F : Type} {ops : FloatOps F} {laws : FloatLaws F}
    (inPos ov a ia ds dd s : F) :
  (ov <? 0)%F = true ->
  ((inPos >=? 1 - a)%F = true ->
     computeOverscroll inPos ov a ia ds dd s
     = computeOverscrollEnd inPos ov (1 - a)%F a ia ds s)
  /\ ((inPos <? 1 - a)%F = true ->
        computeOverscroll inPos ov a ia ds dd s = (- dd + inPos)%F).
Proof.
  intros Hneg. rewrite computeOverscroll_region. unfold region.
  rewrite (neg_not_pos _ Hneg), Hneg. cbv zeta. split.
  - intros Hge. rewrite Hge. reflexivity.
  - intros Hlt. rewrite (lt_not_ge _ _ Hlt), Hlt. reflexivity.
Qed.

Lemma computeOverscroll_end_edge_regions_witness :
  (((- 1 # 2) <? 0)%F = true /\ ((1 # 4) <? 1 - (3 # 10))%F = true)
  /\ computeOverscroll (1 # 4) (- 1 # 2) (3 # 10) (10 # 3) (1 # 5) (- 1 # 10) (7 # 10)
     = - (- 1 # 10) + (1 # 4).
Proof.
  split; [split; reflexivity|].
  apply (proj2 (@computeOverscroll_end_edge_regions Q Q_float Q_laws
           (1 # 4) (- 1 # 2) (3 # 10) (10 # 3) (1 # 5) (- 1 # 10) (7 # 10) eq_refl)).
  reflexivity.
Defined.

(** ** Not-a-number in single precision *)

Lemma SFleb_nan_l (x : spec_float) : SFleb S754_nan x = false.
Proof. reflexivity. Qed.

Lemma SFleb_nan_r (x : spec_float) : SFleb x S754_nan = false.
Proof. destruct x; reflexivity. Qed.

Lemma SFltb_nan_l (x : spec_float) : SFltb S754_nan x = false.
Proof. reflexivity. Qed.

Lemma SFltb_nan_r (x : spec_float) : SFltb x S754_nan = false.
Proof. destruct x; reflexivity. Qed.

(** X11. In single precision a NaN position fails the four position
    tests of [computeOverscroll], so it is returned as it is, for every
    overscroll and all parameters. *)
Theorem computeOverscroll_nan_position (ov a ia ds dd s : binary32) :
  computeOverscroll S754_nan ov a ia ds dd s = S754_nan.
Proof.
  unfold computeOverscroll, fgt, fge.
  cbn [fadd fsub fneg flt fle fzero fone binary32_float].
  rewrite SFleb_nan_l, !SFleb_nan_r, SFltb_nan_l.
  destruct (SFltb (S754_zero false) ov), (SFltb ov (S754_zero false));
    reflexivity.
Qed.

(** X12. In single precision a NaN overscroll is neither positive nor
    negative: [computeOverscroll] skips both edges and returns [inPos]. *)
Theorem computeOverscroll_nan_overscroll (inPos a ia ds dd s : binary32) :
  computeOverscroll inPos S754_nan a ia ds dd s = inPos.
Proof.
  unfold computeOverscroll, fgt.
  cbn [flt fzero binary32_float].
  rewrite SFltb_nan_l, SFltb_nan_r. reflexivity.
Qed.

(** X13. In single precision, when the division of a pixel coordinate by
    the viewport size is not a number (as for [0 / 0]), [main] samples at
    a NaN coordinate on that axis. *)
Theorem main_propagates_nan (u : Uniforms binary32) (coord : vec2 binary32) :
  ((vx coord / viewportWidth u)%F = S754_nan ->
     vx (remappedCoord u coord) = S754_nan)
  /\ ((vy coord / viewportHeight u)%F = S754_nan ->
        vy (remappedCoord u coord) = S754_nan).
Proof.
  unfold remappedCoord, main. cbn [vx vy].
  split; intros Hnan; rewrite Hnan;
    cbn [fadd fsub fmul binary32_float];
    change (SFadd b32_prec b32_emax S754_nan ?x) with S754_nan;
    unfold computeOverscroll, fgt, fge;
    cbn [fadd fsub fneg flt fle fzero fone binary32_float];
    rewrite SFleb_nan_l, !SFleb_nan_r, SFltb_nan_l.
  - destruct (SFltb (S754_zero false) (uOverscrollX u)),
      (SFltb (uOverscrollX u) (S754_zero false)); reflexivity.
  - destruct (SFltb (S754_zero false) (uOverscrollY u)),
      (SFltb (uOverscrollY u) (S754_zero false)); reflexivity.
Qed.

Lemma main_propagates_nan_witness :
  (S754_zero false / S754_zero false)%F = S754_nan
  /\ vx (remappedCoord
           {| uStretchAffectedDistX := b32_0_3; uStretchAffectedDistY := b32_0_3;
              uDistanceStretchedX := b32_0_3; uDistanceStretchedY := b32_0_3;
              uInverseDistanceStretchedX := b32_one;
              uInverseDistanceStretchedY := b32_one;
              uDistDiffX := S754_zero false; uDistDiffY := S754_zero false;
              uScrollX := S754_zero false; uScrollY := S754_zero false;
              uOverscrollX := b32_0_5; uOverscrollY := S754_zero false;
              viewportWidth := S754_zero false; viewportHeight := b32_200;
              uInterpolationStrength := b32_0_7 |}
           {| vx := S754_zero false; vy := b32_20 |})
     = S754_nan.
Proof.
  split; [reflexivity|].
  apply (proj1 (main_propagates_nan _ {| vx := S754_zero false; vy := b32_20 |})).
  reflexivity.
Defined.

(** ** The rounding of [SpecFloat] at single precision *)

Section Rounding.

Local Open Scope Z_scope.

(** *** Binary digits of the mantissa *)
Lemma digits2_pos_size (m : positive) : digits2_pos m = Pos.size m.
Proof. induction m; cbn; congruence. Qed.

Lemma digits2_bounds (m : positive) :
  2 ^ (Z.pos (digits2_pos m) - 1) <= Z.pos m < 2 ^ Z.pos (digits2_pos m).
Proof.
  rewrite digits2_pos_size. split.
  - pose proof (Pos.size_le m) as H.
    assert (H' : Z.pos (2 ^ Pos.size m) <= Z.pos m~0) by exact H.
    rewrite Pos2Z.inj_pow in H'.
    replace (Z.pos (Pos.size m)) with (Z.succ (Z.pos (Pos.size m) - 1)) in H' by lia.
    rewrite Z.pow_succ_r in H' by lia. lia.
  - pose proof (Pos.size_gt m) as H.
    assert (H' : Z.pos m < Z.pos (2 ^ Pos.size m)) by exact H.
    rewrite Pos2Z.inj_pow in H'. exact H'.
Qed.

(** *** Location of a rational between two integers, and shifts *)
Local Open Scope Q_scope.

Lemma located_range y m l : located y m l -> inject_Z m <= y /\ y < inject_Z m + 1.
Proof. destruct l as [|[]]; cbn; intros H; lra. Qed.

Lemma loc_of_shr_record_of_loc m l :
  loc_of_shr_record (shr_record_of_loc m l) = l.
Proof. destruct l as [|[]]; reflexivity. Qed.

Lemma shr_m_of_loc m l : shr_m (shr_record_of_loc m l) = m.
Proof. destruct l as [|[]]; reflexivity. Qed.

Lemma shr_1_m (rs : shr_record) :
  (0 <= shr_m rs)%Z -> shr_m (shr_1 rs) = (shr_m rs / 2)%Z.
Proof.
  destruct rs as [m r s]. cbn. intros Hm.
  destruct m as [|p|p]; [reflexivity| |lia].
  destruct p as [p|p|]; cbn [shr_m].
  - rewrite Pos2Z.inj_xI. apply (Z.div_unique _ 2 _ 1); lia.
  - rewrite Pos2Z.inj_xO. apply (Z.div_unique _ 2 _ 0); lia.
  - reflexivity.
Qed.

Lemma shr_1_located (y : Q) (rs : shr_record) :
  (0 <= shr_m rs)%Z ->
  located y (shr_m rs) (loc_of_shr_record rs) ->
  located ((1 # 2) * y) (shr_m (shr_1 rs)) (loc_of_shr_record (shr_1 rs)).
Proof.
  destruct rs as [m r s]. cbn [shr_m]. intros Hm Hloc.
  destruct m as [|p|p]; [| |lia].
  - (* m = 0 *)
    change (inject_Z 0) with 0 in *.
    destruct r, s; cbn [located loc_of_shr_record shr_1 shr_m orb] in *;
      change (inject_Z 0) with 0 in *; lra.
  - destruct p as [p|p|].
    + (* odd 2p+1 *)
      assert (E : inject_Z (Z.pos p~1) == 2 * inject_Z (Z.pos p) + 1).
      { rewrite Pos2Z.inj_xI, inject_Z_plus, inject_Z_mult. reflexivity. }
      destruct r, s; cbn [located loc_of_shr_record shr_1 shr_m orb] in *;
        rewrite E in Hloc; lra.
    + assert (E : inject_Z (Z.pos p~0) == 2 * inject_Z (Z.pos p)).
      { rewrite Pos2Z.inj_xO, inject_Z_mult. reflexivity. }
      destruct r, s; cbn [located loc_of_shr_record shr_1 shr_m orb] in *;
        rewrite E in Hloc; lra.
    + (* m = 1 *)
      change (inject_Z 1) with 1 in *. 
      destruct r, s; cbn [located loc_of_shr_record shr_1 shr_m orb] in *;
        change (inject_Z 0) with 0 in *; change (inject_Z 1) with 1 in *; lra.
Qed.

Lemma shr_1_nonneg rs : (0 <= shr_m rs)%Z -> (0 <= shr_m (shr_1 rs))%Z.
Proof.
  intros H. rewrite shr_1_m by exact H. apply Z.div_pos; lia.
Qed.

(** Shifting [p] times divides by [2 ^ p] and keeps the location. *)
Lemma pow2_xO (p : positive) :
  (2 ^ Z.pos p~0 = 2 ^ Z.pos p * 2 ^ Z.pos p)%Z.
Proof. rewrite Pos2Z.inj_xO, <- Z.pow_add_r by lia. f_equal. lia. Qed.

Lemma pow2_xI (p : positive) :
  (2 ^ Z.pos p~1 = 2 * (2 ^ Z.pos p * 2 ^ Z.pos p))%Z.
Proof.
  rewrite Pos2Z.inj_xI, <- Z.pow_add_r by lia.
  replace (2 * Z.pos p + 1)%Z with (Z.succ (Z.pos p + Z.pos p)) by lia.
  rewrite Z.pow_succ_r by lia. reflexivity.
Qed.

Lemma pow2_pos (n : Z) : (0 <= n -> 0 < 2 ^ n)%Z.
Proof. intros. apply Z.pow_pos_nonneg; lia. Qed.

Lemma iter_pos_shr (p : positive) :
  forall (y : Q) (rs : shr_record),
  (0 <= shr_m rs)%Z ->
  located y (shr_m rs) (loc_of_shr_record rs) ->
  let rs' := iter_pos shr_1 p rs in
  shr_m rs' = (shr_m rs / 2 ^ Z.pos p)%Z
  /\ located (y / inject_Z (2 ^ Z.pos p)) (shr_m rs') (loc_of_shr_record rs').
Proof.
  induction p as [p IH|p IH|]; intros y rs Hm Hloc; cbn [iter_pos].
  - (* 2p+1 *)
    pose proof (shr_1_nonneg rs Hm) as Hm1.
    pose proof (shr_1_located y rs Hm Hloc) as Hl1.
    destruct (IH _ _ Hm1 Hl1) as [Em2 Hl2].
    assert (Hm2 : (0 <= shr_m (iter_pos shr_1 p (shr_1 rs)))%Z).
    { rewrite Em2. apply Z.div_pos; [exact Hm1|]. apply pow2_pos; lia. }
    destruct (IH _ _ Hm2 Hl2) as [Em3 Hl3].
    pose proof (pow2_pos (Z.pos p) ltac:(lia)) as Hp.
    cbv zeta. split.
    + rewrite Em3, Em2, shr_1_m by exact Hm.
      rewrite !Z.div_div by lia.
      f_equal. rewrite pow2_xI. ring.
    + assert (E : y / inject_Z (2 ^ Z.pos p~1)
                  == (1 # 2) * y / inject_Z (2 ^ Z.pos p) / inject_Z (2 ^ Z.pos p)).
      { rewrite pow2_xI. rewrite !inject_Z_mult.
        assert (Hq : 0 < inject_Z (2 ^ Z.pos p)).
        { change 0 with (inject_Z 0). rewrite <- Zlt_Qlt. exact Hp. }
        change (inject_Z 2) with 2. field. lra. }
      destruct (loc_of_shr_record (iter_pos shr_1 p (iter_pos shr_1 p (shr_1 rs))))
        as [|[]]; cbn [located] in *; rewrite E; exact Hl3.
  - pose proof (IH _ _ Hm Hloc) as [Em2 Hl2].
    assert (Hm2 : (0 <= shr_m (iter_pos shr_1 p rs))%Z).
    { rewrite Em2. apply Z.div_pos; [exact Hm|]. apply pow2_pos; lia. }
    destruct (IH _ _ Hm2 Hl2) as [Em3 Hl3].
    pose proof (pow2_pos (Z.pos p) ltac:(lia)) as Hp.
    cbv zeta. split.
    + rewrite Em3, Em2.
      rewrite !Z.div_div by lia.
      f_equal. rewrite pow2_xO. ring.
    + assert (E : y / inject_Z (2 ^ Z.pos p~0)
                  == y / inject_Z (2 ^ Z.pos p) / inject_Z (2 ^ Z.pos p)).
      { rewrite pow2_xO. rewrite !inject_Z_mult.
        assert (Hq : 0 < inject_Z (2 ^ Z.pos p)).
        { change 0 with (inject_Z 0). rewrite <- Zlt_Qlt. exact Hp. }
        field. lra. }
      destruct (loc_of_shr_record (iter_pos shr_1 p (iter_pos shr_1 p rs)))
        as [|[]]; cbn [located] in *; rewrite E; exact Hl3.
  - cbv zeta. split.
    + rewrite shr_1_m by exact Hm. reflexivity.
    + assert (E : y / inject_Z (2 ^ 1) == (1 # 2) * y).
      { change (inject_Z (2 ^ 1)) with 2. field. }
      pose proof (shr_1_located y rs Hm Hloc) as Hl1.
      destruct (loc_of_shr_record (shr_1 rs)) as [|[]]; cbn [located] in *;
        rewrite E; exact Hl1.
Qed.

(** *** Digits of integers *)

Lemma Zdigits2_0 : Zdigits2 0 = 0%Z.
Proof. reflexivity. Qed.

Lemma Zdigits2_nonneg (m : Z) : (0 <= Zdigits2 m)%Z.
Proof. destruct m; cbn; lia. Qed.

Lemma Zdigits2_bounds (m : Z) :
  (0 < m -> 2 ^ (Zdigits2 m - 1) <= m < 2 ^ Zdigits2 m)%Z.
Proof.
  destruct m as [|p|p]; try lia. intros _. apply digits2_bounds.
Qed.

Lemma Zdigits2_le_iff (m d : Z) :
  (0 <= m -> 0 <= d -> (Zdigits2 m <= d <-> m < 2 ^ d))%Z.
Proof.
  intros Hm Hd.
  destruct (Z.eq_dec m 0) as [-> | Hm0].
  - cbn. split; intros _; [apply pow2_pos; lia | lia].
  - pose proof (Zdigits2_bounds m ltac:(lia)) as [Hlo Hhi].
    pose proof (Zdigits2_nonneg m). split; intros H'.
    + apply Z.lt_le_trans with (1 := Hhi). apply Z.pow_le_mono_r; lia.
    + destruct (Z_le_gt_dec (Zdigits2 m) d) as [Hle | Hgt]; [exact Hle|].
      exfalso.
      assert (2 ^ d <= 2 ^ (Zdigits2 m - 1))%Z by (apply Z.pow_le_mono_r; lia).
      lia.
Qed.

Lemma Zdigits2_ge_iff (m d : Z) :
  (0 <= m -> 0 < d -> (d <= Zdigits2 m <-> 2 ^ (d - 1) <= m))%Z.
Proof.
  intros Hm Hd.
  pose proof (Zdigits2_le_iff m (d - 1) Hm ltac:(lia)) as H. lia.
Qed.

Lemma Zdigits2_pow2 (k : Z) : (0 <= k -> Zdigits2 (2 ^ k) = k + 1)%Z.
Proof.
  intros Hk. pose proof (pow2_pos k Hk) as Hp.
  pose proof (Zdigits2_le_iff (2 ^ k) (k + 1) ltac:(lia) ltac:(lia)) as H1.
  pose proof (Zdigits2_ge_iff (2 ^ k) (k + 1) ltac:(lia) ltac:(lia)) as H2.
  replace (k + 1 - 1)%Z with k in H2 by lia.
  assert (2 ^ k < 2 ^ (k + 1))%Z by (apply Z.pow_lt_mono_r; lia).
  lia.
Qed.

(** *** The exponent function of binary32 *)

Lemma fexp_fexp32 (e : Z) : fexp b32_prec b32_emax e = fexp32 e.
Proof. reflexivity. Qed.

(** *** The first shift of the rounding kernel *)

Lemma shr_nonneg_spec (y : Q) (m : Z) (l : location) (e n : Z) :
  (0 <= m)%Z -> (0 <= n)%Z -> located y m l ->
  let '(rs', e') := shr (shr_record_of_loc m l) e n in
  e' = (e + n)%Z
  /\ shr_m rs' = (m / 2 ^ n)%Z
  /\ located (y / inject_Z (2 ^ n)) (shr_m rs') (loc_of_shr_record rs').
Proof.
  intros Hm Hn Hloc. unfold shr.
  destruct n as [|p|p]; [| |lia].
  - rewrite shr_m_of_loc, loc_of_shr_record_of_loc.
    split; [lia|]. split; [rewrite Z.div_1_r; reflexivity|].
    change (inject_Z (2 ^ 0)) with 1.
    assert (E : y / 1 == y) by field.
    destruct l as [|[]]; cbn [located] in *; rewrite E; exact Hloc.
  - pose proof (iter_pos_shr p y (shr_record_of_loc m l)) as H.
    rewrite shr_m_of_loc, loc_of_shr_record_of_loc in H.
    specialize (H Hm Hloc). cbv zeta in H. destruct H as [H1 H2].
    split; [reflexivity|]. split; assumption.
Qed.

(** Rounding a located rational to the nearest integer, ties to even. *)

Lemma round_nearest_even_spec (y : Q) (m : Z) (l : location) :
  located y m l ->
  let N := round_nearest_even m l in
  rne_spec y N /\ (N = m \/ N = (m + 1)%Z).
Proof.
  intros Hloc. cbv zeta. unfold rne_spec.
  destruct l as [|[]]; cbn [located round_nearest_even] in *.
  - split; [|left; reflexivity]. split; [lra|]. intros [H|H]; lra.
  - destruct (Z.even m) eqn:Ev.
    + split; [|left; reflexivity]. split; [lra|]. intros _. exact Ev.
    + split; [|right; reflexivity].
      rewrite inject_Z_plus. change (inject_Z 1) with 1.
      split; [lra|]. intros _. rewrite Z.even_add, Ev. reflexivity.
  - split; [|left; reflexivity]. split; [lra|]. intros [H|H]; lra.
  - split; [|right; reflexivity].
    rewrite inject_Z_plus. change (inject_Z 1) with 1.
    split; [lra|]. intros [H|H]; lra.
Qed.

(** *** The rounding kernel *)

Lemma shr_fexp_unfold m e l :
  shr_fexp b32_prec b32_emax m e l
  = shr (shr_record_of_loc m l) e (fexp32 (Zdigits2 m + e) - e).
Proof. reflexivity. Qed.

Lemma binary_round_aux_unfold sx mx ex lx :
  binary_round_aux b32_prec b32_emax sx mx ex lx
  = let '(mrs', e') := shr_fexp b32_prec b32_emax mx ex lx in
    let '(mrs'', e'') :=
      shr_fexp b32_prec b32_emax
        (round_nearest_even (shr_m mrs') (loc_of_shr_record mrs')) e' loc_Exact in
    match shr_m mrs'' with
    | Z0 => S754_zero sx
    | Zpos m => if (e'' <=? 104)%Z then S754_finite sx m e'' else S754_infinity sx
    | Zneg _ => S754_nan
    end.
Proof. reflexivity. Qed.

Lemma second_shift (sx : bool) (N e' : Z) :
  (0 <= N <= 2 ^ 24)%Z -> (-149 <= e')%Z ->
  (0 < N < 2 ^ 24 -> fexp32 (Zdigits2 N + e') = e')%Z ->
  (let '(mrs'', e'') := shr_fexp b32_prec b32_emax N e' loc_Exact in
   match shr_m mrs'' with
   | Z0 => S754_zero sx
   | Zpos m => if (e'' <=? 104)%Z then S754_finite sx m e'' else S754_infinity sx
   | Zneg _ => S754_nan
   end) = encode sx N e'.
Proof.
  intros HN He Hcan. rewrite shr_fexp_unfold.
  destruct (Z.eq_dec N 0) as [-> | HN0].
  - cbn [Zdigits2 Z.add]. unfold fexp32, shr.
    destruct (Z.max (e' - 24) (-149) - e')%Z eqn:En; try lia; reflexivity.
  - destruct (Z.eq_dec N (2 ^ 24)) as [-> | HN1].
    + rewrite (Zdigits2_pow2 24) by lia. unfold fexp32.
      replace (Z.max (24 + 1 + e' - 24) (-149) - e')%Z with 1%Z by lia.
      cbn. reflexivity.
    + rewrite Hcan by lia. rewrite Z.sub_diag. unfold shr.
      cbn [shr_m shr_record_of_loc]. unfold encode.
      destruct N as [|p|p]; try lia.
      rewrite (proj2 (Z.eqb_neq _ _) HN1). reflexivity.
Qed.

Lemma binary_round_aux_encode (sx : bool) (mx ex : Z) (lx : location) (y : Q) :
  (0 <= mx)%Z -> located y mx lx ->
  let e' := fexp32 (Zdigits2 mx + ex) in
  (ex <= e')%Z ->
  exists N : Z,
    (0 <= N <= 2 ^ 24)%Z
    /\ rne_spec (y / inject_Z (2 ^ (e' - ex))) N
    /\ (0 < N < 2 ^ 24 -> fexp32 (Zdigits2 N + e') = e')%Z
    /\ (-149 < e' -> 2 ^ 23 <= N)%Z
    /\ binary_round_aux b32_prec b32_emax sx mx ex lx = encode sx N e'.
Proof.
  intros Hm Hloc e' Hn.
  set (n := (e' - ex)%Z). set (d := Zdigits2 mx) in *.
  assert (He' : (-149 <= e')%Z) by (unfold e', fexp32; lia).
  rewrite binary_round_aux_unfold, shr_fexp_unfold. fold d. fold e'. fold n.
  pose proof (shr_nonneg_spec y mx lx ex n Hm ltac:(lia) Hloc) as Hs.
  destruct (shr (shr_record_of_loc mx lx) ex n) as [rs1 e1].
  destruct Hs as (-> & Em' & Hl').
  replace (ex + n)%Z with e' by (unfold n; lia).
  set (m' := shr_m rs1) in *.
  pose proof (round_nearest_even_spec _ _ _ Hl') as [Hrne HN].
  set (N := round_nearest_even m' (loc_of_shr_record rs1)) in *.
  pose proof (pow2_pos n ltac:(lia)) as Hpn.
  assert (Hm'0 : (0 <= m')%Z) by (rewrite Em'; apply Z.div_pos; lia).
  (* the shifted mantissa has at most 24 digits *)
  assert (Hm'hi : (m' < 2 ^ 24)%Z).
  { rewrite Em'. apply Z.div_lt_upper_bound; [exact Hpn|].
    rewrite <- Z.pow_add_r by lia.
    pose proof (Zdigits2_nonneg mx).
    apply (Zdigits2_le_iff mx (n + 24)); try lia.
    fold d. unfold n, e', fexp32. lia. }
  (* in the normal range it has exactly 24 digits *)
  assert (Hm'lo : (-149 < e' -> 2 ^ 23 <= m')%Z).
  { intros Hnorm.
    assert (Ee' : e' = (d + ex - 24)%Z) by (unfold e', fexp32 in *; lia).
    assert (Hd : (24 <= d)%Z) by lia.
    assert (Hmx : (0 < mx)%Z).
    { destruct (Z.eq_dec mx 0) as [E0|]; [|lia]. subst mx. cbn in d. lia. }
    pose proof (Zdigits2_bounds mx Hmx) as [Hlo _]. fold d in Hlo.
    rewrite Em'. apply Z.div_le_lower_bound; [exact Hpn|].
    rewrite <- Z.pow_add_r by lia.
    replace (n + 23)%Z with (d - 1)%Z by (unfold n; lia). exact Hlo. }
  exists N.
  assert (HN0 : (0 <= N <= 2 ^ 24)%Z) by lia.
  assert (Hcan : (0 < N < 2 ^ 24 -> fexp32 (Zdigits2 N + e') = e')%Z).
  { intros HNr.
    assert (HdN : (Zdigits2 N <= 24)%Z) by (apply Zdigits2_le_iff; lia).
    destruct (Z.eq_dec e' (-149)) as [Ee | Ee].
    - unfold fexp32. lia.
    - assert (2 ^ 23 <= N)%Z by (specialize (Hm'lo ltac:(lia)); lia).
      assert (24 <= Zdigits2 N)%Z by (apply Zdigits2_ge_iff; lia).
      unfold fexp32. lia. }
  split; [exact HN0|]. split; [exact Hrne|]. split; [exact Hcan|].
  split; [intros Hnorm; specialize (Hm'lo Hnorm); lia|].
  apply second_shift; assumption.
Qed.

(** *** Powers of two in Q *)

Lemma bpow_unfold (e : Z) : bpow e = 2 ^ e.
Proof. reflexivity. Qed.

#[global] Opaque bpow.

Lemma bpow_pos (e : Z) : 0 < bpow e.
Proof. rewrite bpow_unfold. apply Qpower_0_lt. reflexivity. Qed.

Lemma bpow_add (a b : Z) : bpow (a + b) == bpow a * bpow b.
Proof. rewrite !bpow_unfold. apply Qpower_plus. discriminate. Qed.

Lemma bpow_sub (a b : Z) : bpow (a - b) == bpow a / bpow b.
Proof. rewrite !bpow_unfold. apply Qpower_minus. discriminate. Qed.

Lemma bpow_0 : bpow 0 == 1.
Proof. rewrite bpow_unfold. reflexivity. Qed.

Lemma bpow_Z (k : Z) : (0 <= k)%Z -> inject_Z (2 ^ k) == bpow k.
Proof. intros Hk. rewrite bpow_unfold, Zpower_Qpower by exact Hk. reflexivity. Qed.

Lemma bpow_le (a b : Z) : (a <= b)%Z -> bpow a <= bpow b.
Proof. intros H. rewrite !bpow_unfold. apply Qpower_le_compat_l; [exact H|discriminate]. Qed.

Lemma bpow_lt (a b : Z) : (a < b)%Z -> bpow a < bpow b.
Proof. intros H. rewrite !bpow_unfold. apply Qpower_lt_compat_l; [exact H|reflexivity]. Qed.

Lemma bpow_succ (a : Z) : bpow (a + 1) == 2 * bpow a.
Proof. rewrite bpow_add, (bpow_unfold 1). change (2 ^ 1) with 2. ring. Qed.

(** *** The value of a float *)

Lemma valid32_finite s m e :
  valid32 (S754_finite s m e) = true
  <-> fexp32 (Z.pos (digits2_pos m) + e) = e /\ (e <= 104)%Z.
Proof.
  unfold valid32, valid_binary, bounded, canonical_mantissa.
  rewrite fexp_fexp32. change (b32_emax - b32_prec)%Z with 104%Z.
  rewrite andb_true_iff, Z.eqb_eq, Z.leb_le. reflexivity.
Qed.

(** *** Comparison of valid floats is comparison of their values *)

Lemma Qcompare_Lt (x y : Q) : x < y -> (x ?= y) = Lt.
Proof. intros H. apply (proj1 (Qlt_alt x y)). exact H. Qed.

Lemma Qcompare_Gt (x y : Q) : y < x -> (x ?= y) = Gt.
Proof. intros H. apply (proj1 (Qgt_alt x y)). exact H. Qed.

Lemma Qcompare_Eq (x y : Q) : x == y -> (x ?= y) = Eq.
Proof. intros H. apply (proj1 (Qeq_alt x y)). exact H. Qed.

Lemma inject_Z_pos_bounds (m : positive) :
  bpow (Z.pos (digits2_pos m) - 1) <= inject_Z (Z.pos m)
  /\ inject_Z (Z.pos m) < bpow (Z.pos (digits2_pos m)).
Proof.
  pose proof (digits2_bounds m) as [Hlo Hhi].
  rewrite <- !bpow_Z by lia. rewrite <- Zle_Qle, <- Zlt_Qlt. split; assumption.
Qed.

Lemma canonical_value_bounds (m : positive) (e : Z) :
  bpow (Z.pos (digits2_pos m) + e - 1) <= inject_Z (Z.pos m) * bpow e
  /\ inject_Z (Z.pos m) * bpow e < bpow (Z.pos (digits2_pos m) + e).
Proof.
  pose proof (inject_Z_pos_bounds m) as [Hlo Hhi].
  pose proof (bpow_pos e) as He.
  replace (Z.pos (digits2_pos m) + e - 1)%Z
    with ((Z.pos (digits2_pos m) - 1) + e)%Z by lia.
  rewrite !bpow_add. split.
  - apply Qmult_le_compat_r; lra.
  - apply Qmult_lt_compat_r; lra.
Qed.

Lemma canonical_exp_lt (m1 m2 : positive) (e1 e2 : Z) :
  fexp32 (Z.pos (digits2_pos m1) + e1) = e1 ->
  fexp32 (Z.pos (digits2_pos m2) + e2) = e2 ->
  (e1 < e2)%Z ->
  inject_Z (Z.pos m1) * bpow e1 < inject_Z (Z.pos m2) * bpow e2.
Proof.
  intros H1 H2 H12.
  pose proof (canonical_value_bounds m1 e1) as [_ Hhi].
  pose proof (canonical_value_bounds m2 e2) as [Hlo _].
  assert (Hk : (Z.pos (digits2_pos m1) + e1 <= Z.pos (digits2_pos m2) + e2 - 1)%Z)
    by (unfold fexp32 in *; lia).
  pose proof (bpow_le _ _ Hk). lra.
Qed.

Lemma pos_value_compare (m1 m2 : positive) (e1 e2 : Z) :
  fexp32 (Z.pos (digits2_pos m1) + e1) = e1 ->
  fexp32 (Z.pos (digits2_pos m2) + e2) = e2 ->
  match (e1 ?= e2)%Z with
  | Lt => Lt
  | Gt => Gt
  | Eq => Pos.compare_cont Eq m1 m2
  end = (inject_Z (Z.pos m1) * bpow e1 ?= inject_Z (Z.pos m2) * bpow e2).
Proof.
  intros H1 H2. symmetry.
  destruct (Z.compare_spec e1 e2) as [E | E | E].
  - subst e2. pose proof (bpow_pos e1) as He.
    change (Pos.compare_cont Eq m1 m2) with (Z.pos m1 ?= Z.pos m2)%Z.
    destruct (Z.compare_spec (Z.pos m1) (Z.pos m2)) as [Em | Em | Em].
    + apply Qcompare_Eq. rewrite Em. reflexivity.
    + apply Qcompare_Lt. apply Qmult_lt_compat_r; [exact He|].
      rewrite <- Zlt_Qlt. exact Em.
    + apply Qcompare_Gt. apply Qmult_lt_compat_r; [exact He|].
      rewrite <- Zlt_Qlt. exact Em.
  - apply Qcompare_Lt. apply canonical_exp_lt; assumption.
  - apply Qcompare_Gt. apply canonical_exp_lt; assumption.
Qed.

Lemma F2Q_pos (m : positive) (e : Z) : 0 < F2Q false (Z.pos m) e.
Proof.
  change (F2Q false (Z.pos m) e) with (inject_Z (Z.pos m) * bpow e).
  apply Qmult_lt_0_compat; [|apply bpow_pos].
  change 0 with (inject_Z 0). rewrite <- Zlt_Qlt. lia.
Qed.

Lemma F2Q_neg (m : positive) (e : Z) : F2Q true (Z.pos m) e < 0.
Proof.
  pose proof (F2Q_pos m e) as H.
  change (F2Q false (Z.pos m) e) with (inject_Z (Z.pos m) * bpow e) in H.
  change (F2Q true (Z.pos m) e) with (- inject_Z (Z.pos m) * bpow e).
  setoid_replace (- inject_Z (Z.pos m) * bpow e)
    with (- (inject_Z (Z.pos m) * bpow e)) by ring.
  lra.
Qed.

Lemma F2Q_opp (s : bool) (m e : Z) : F2Q (negb s) m e == - F2Q s m e.
Proof. unfold F2Q. destruct s; cbn; ring. Qed.

Lemma Qcompare_opp (x y : Q) : (- x ?= - y) = CompOpp (x ?= y).
Proof.
  destruct (Qcompare_spec x y) as [E | E | E]; cbn [CompOpp].
  - apply Qcompare_Eq. rewrite E. reflexivity.
  - apply Qcompare_Gt. lra.
  - apply Qcompare_Lt. lra.
Qed.

(** On finite floats of the format, [SFcompare] compares the values. *)
Lemma SFcompare_value (x y : spec_float) :
  valid32 x = true -> valid32 y = true ->
  is_finite x = true -> is_finite y = true ->
  SFcompare x y = Some (SF2Q x ?= SF2Q y).
Proof.
  intros Vx Vy Fx Fy.
  destruct x as [sx|sx| |sx mx ex]; try discriminate;
    destruct y as [sy|sy| |sy my ey]; try discriminate; cbn [SFcompare SF2Q].
  - reflexivity.
  - f_equal. symmetry. destruct sy.
    + apply Qcompare_Gt. apply F2Q_neg.
    + apply Qcompare_Lt. apply F2Q_pos.
  - f_equal. symmetry. destruct sx.
    + apply Qcompare_Lt. apply F2Q_neg.
    + apply Qcompare_Gt. apply F2Q_pos.
  - apply valid32_finite in Vx as [Cx _]. apply valid32_finite in Vy as [Cy _].
    f_equal. destruct sx, sy.
    + (* both negative *)
      pose proof (pos_value_compare mx my ex ey Cx Cy) as Hc.
      change (F2Q true (Z.pos mx) ex) with (- inject_Z (Z.pos mx) * bpow ex).
      change (F2Q true (Z.pos my) ey) with (- inject_Z (Z.pos my) * bpow ey).
      setoid_replace (- inject_Z (Z.pos mx) * bpow ex)
        with (- (inject_Z (Z.pos mx) * bpow ex)) by ring.
      setoid_replace (- inject_Z (Z.pos my) * bpow ey)
        with (- (inject_Z (Z.pos my) * bpow ey)) by ring.
      rewrite Qcompare_opp, <- Hc.
      destruct (ex ?= ey)%Z; reflexivity.
    + symmetry. apply Qcompare_Lt.
      pose proof (F2Q_neg mx ex). pose proof (F2Q_pos my ey). lra.
    + symmetry. apply Qcompare_Gt.
      pose proof (F2Q_pos mx ex). pose proof (F2Q_neg my ey). lra.
    + apply pos_value_compare; assumption.
Qed.

Lemma SFleb_value (x y : spec_float) :
  valid32 x = true -> valid32 y = true ->
  is_finite x = true -> is_finite y = true ->
  (SFleb x y = true <-> SF2Q x <= SF2Q y).
Proof.
  intros Vx Vy Fx Fy. unfold SFleb.
  rewrite (SFcompare_value x y Vx Vy Fx Fy).
  destruct (Qcompare_spec (SF2Q x) (SF2Q y)) as [E | E | E];
    split; intros H; try reflexivity; try discriminate; lra.
Qed.

Lemma SFltb_value (x y : spec_float) :
  valid32 x = true -> valid32 y = true ->
  is_finite x = true -> is_finite y = true ->
  (SFltb x y = true <-> SF2Q x < SF2Q y).
Proof.
  intros Vx Vy Fx Fy. unfold SFltb.
  rewrite (SFcompare_value x y Vx Vy Fx Fy).
  destruct (Qcompare_spec (SF2Q x) (SF2Q y)) as [E | E | E];
    split; intros H; try reflexivity; try discriminate; lra.
Qed.

(** *** What the kernel guarantees, in terms of the exact value *)

(** The kernel [binary_round_aux], given a mantissa [mx] with the location
    of the exact value [y] above it and an exponent that is not above the
    canonical one, returns the float [encode sx N e] of a mantissa [N]
    that rounds the exact value [y * 2 ^ ex]. *)
Lemma kernel_round_pos (sx : bool) (mx ex : Z) (lx : location) (y : Q) :
  (0 <= mx)%Z -> located y mx lx ->
  (ex <= fexp32 (Zdigits2 mx + ex))%Z ->
  exists N : Z,
    round_pos (y * bpow ex) N (fexp32 (Zdigits2 mx + ex))
    /\ binary_round_aux b32_prec b32_emax sx mx ex lx
       = encode sx N (fexp32 (Zdigits2 mx + ex)).
Proof.
  intros Hm Hloc Hn.
  destruct (binary_round_aux_encode sx mx ex lx y Hm Hloc Hn)
    as (N & HN & Hrne & _ & Hnorm & Henc).
  set (d := Zdigits2 mx) in *. set (e' := fexp32 (d + ex)) in *.
  exists N. split; [|exact Henc].
  exists (d + ex)%Z.
  pose proof (located_range _ _ _ Hloc) as [Hylo Hyhi].
  pose proof (bpow_pos ex) as Hex.
  pose proof (Zdigits2_nonneg mx) as Hd. fold d in Hd.
  assert (Hmx : inject_Z mx + 1 <= bpow d).
  { rewrite <- bpow_Z by lia.
    change 1 with (inject_Z 1). rewrite <- inject_Z_plus, <- Zle_Qle.
    assert (mx < 2 ^ d)%Z by (apply Zdigits2_le_iff; try lia; unfold d; lia).
    lia. }
  assert (Hm0 : 0 <= inject_Z mx).
  { change 0 with (inject_Z 0). rewrite <- Zle_Qle. exact Hm. }
  split; [reflexivity|]. split; [|split; [|split; [exact HN|split; [exact Hnorm|]]]].
  - split.
    + apply Qmult_le_0_compat; lra.
    + rewrite bpow_add. apply Qmult_lt_compat_r; lra.
  - intros Hnm.
    assert (Hd24 : (24 <= d)%Z) by (unfold e', fexp32 in *; lia).
    assert (Hmx0 : (0 < mx)%Z).
    { destruct (Z.eq_dec mx 0) as [E0|]; [|lia]. subst mx. cbn in d. lia. }
    pose proof (Zdigits2_bounds mx Hmx0) as [Hlo _]. fold d in Hlo.
    replace (d + ex - 1)%Z with ((d - 1) + ex)%Z by lia.
    rewrite bpow_add. apply Qmult_le_compat_r; [|lra].
    rewrite <- bpow_Z by lia.
    apply Qle_trans with (inject_Z mx); [rewrite <- Zle_Qle; exact Hlo|exact Hylo].
  - assert (E : y * bpow ex / bpow e' == y / inject_Z (2 ^ (e' - ex))).
    { rewrite bpow_Z by lia. rewrite bpow_sub.
      pose proof (bpow_pos e'). field. split; lra. }
    unfold rne_spec in *. rewrite E. exact Hrne.
Qed.

(** Integers bracket the rounded mantissa. *)
Lemma inject_Z_succ_le (a b : Z) : (a + 1 <= b)%Z -> inject_Z a + 1 <= inject_Z b.
Proof.
  intros H. rewrite Zle_Qle, inject_Z_plus in H. exact H.
Qed.

Lemma rne_le_int (y : Q) (N K : Z) :
  rne_spec y N -> y <= inject_Z K -> (N <= K)%Z.
Proof.
  intros [[Hlo Hhi] _] HyK.
  destruct (Z_le_gt_dec N K) as [H|H]; [exact H|exfalso].
  pose proof (inject_Z_succ_le K N ltac:(lia)). lra.
Qed.

Lemma rne_ge_int (y : Q) (N K : Z) :
  rne_spec y N -> inject_Z K <= y -> (K <= N)%Z.
Proof.
  intros [[Hlo Hhi] _] HyK.
  destruct (Z_le_gt_dec K N) as [H|H]; [exact H|exfalso].
  pose proof (inject_Z_succ_le N K ltac:(lia)). lra.
Qed.

Lemma rne_mono (y1 y2 : Q) (N1 N2 : Z) :
  rne_spec y1 N1 -> rne_spec y2 N2 -> y1 <= y2 -> (N1 <= N2)%Z.
Proof.
  intros [[Hlo1 Hhi1] Ht1] [[Hlo2 Hhi2] Ht2] H12.
  destruct (Z_le_gt_dec N1 N2) as [H|H]; [exact H|exfalso].
  pose proof (inject_Z_succ_le N2 N1 ltac:(lia)) as HN.
  assert (E1 : y1 == inject_Z N1 - (1 # 2)) by lra.
  assert (E2 : y2 == inject_Z N2 + (1 # 2)) by lra.
  specialize (Ht1 (or_introl E1)). specialize (Ht2 (or_intror E2)).
  assert (EN : inject_Z N1 == inject_Z (N2 + 1)).
  { rewrite inject_Z_plus. change (inject_Z 1) with 1. lra. }
  apply (proj1 (inject_Z_injective _ _)) in EN. rewrite EN in Ht1.
  rewrite Z.even_add, Ht2 in Ht1. discriminate.
Qed.

Lemma rne_error (y : Q) (N : Z) :
  rne_spec y N -> Qabs (inject_Z N - y) <= 1 # 2.
Proof.
  intros [[Hlo Hhi] _]. apply Qabs_Qle_condition. lra.
Qed.

(** *** The float that [encode] builds *)

Lemma round_pos_wf x N e' : round_pos x N e' -> wf_round N e'.
Proof.
  intros (k & -> & _ & _ & HN & Hnorm & _).
  split; [unfold fexp32; lia|]. split; assumption.
Qed.

Lemma digits2_pos_Zdigits2 (p : positive) : Z.pos (digits2_pos p) = Zdigits2 (Z.pos p).
Proof. reflexivity. Qed.

Lemma wf_round_canonical (N e' : Z) :
  wf_round N e' -> (0 < N < 2 ^ 24)%Z -> fexp32 (Zdigits2 N + e') = e'.
Proof.
  intros (He & HN & Hnorm) HNr.
  assert (HdN : (Zdigits2 N <= 24)%Z) by (apply Zdigits2_le_iff; lia).
  destruct (Z.eq_dec e' (-149)) as [Ee | Ee].
  - unfold fexp32. lia.
  - assert (2 ^ 23 <= N)%Z by (apply Hnorm; lia).
    assert (24 <= Zdigits2 N)%Z by (apply Zdigits2_ge_iff; lia).
    unfold fexp32. lia.
Qed.

Lemma encode_valid (s : bool) (N e' : Z) :
  wf_round N e' -> valid32 (encode s N e') = true.
Proof.
  intros Hwf. pose proof Hwf as (He & HN & Hnorm). unfold encode.
  destruct N as [|p|p]; [reflexivity| |lia].
  destruct (Z.eqb_spec (Z.pos p) (2 ^ 24)) as [E | E].
  - destruct (Z.leb_spec (e' + 1) 104) as [Hle | Hgt]; [|reflexivity].
    apply valid32_finite. split; [|exact Hle].
    change (Z.pos (digits2_pos (2 ^ 23))) with 24%Z. unfold fexp32. lia.
  - destruct (Z.leb_spec e' 104) as [Hle | Hgt]; [|reflexivity].
    apply valid32_finite. split; [|exact Hle].
    rewrite digits2_pos_Zdigits2. apply wf_round_canonical; [exact Hwf|lia].
Qed.

Lemma encode_not_nan (s : bool) (N e' : Z) :
  (0 <= N)%Z -> encode s N e' <> S754_nan.
Proof.
  intros HN. unfold encode. destruct N as [|p|p]; [discriminate| |lia].
  destruct (Z.pos p =? 2 ^ 24)%Z.
  - destruct (e' + 1 <=? 104)%Z; discriminate.
  - destruct (e' <=? 104)%Z; discriminate.
Qed.

Lemma F2Q_0 (s : bool) (e : Z) : F2Q s 0 e == 0.
Proof. unfold F2Q. destruct s; change (inject_Z 0) with 0; ring. Qed.

Lemma F2Q_shift (s : bool) (m e : Z) : F2Q s m (e + 1) == F2Q s (2 * m) e.
Proof.
  unfold F2Q. rewrite bpow_succ, inject_Z_mult.
  change (inject_Z 2) with 2. destruct s; ring.
Qed.

Lemma encode_value (s : bool) (N e' : Z) :
  (0 <= N)%Z -> is_finite (encode s N e') = true ->
  SF2Q (encode s N e') == F2Q s N e'.
Proof.
  intros HN. unfold encode. destruct N as [|p|p]; [| |lia].
  - intros _. cbn [SF2Q]. rewrite F2Q_0. reflexivity.
  - destruct (Z.eqb_spec (Z.pos p) (2 ^ 24)) as [E | E].
    + destruct (e' + 1 <=? 104)%Z; [|discriminate]. intros _.
      cbn [SF2Q]. rewrite E, F2Q_shift. reflexivity.
    + destruct (e' <=? 104)%Z; [|discriminate]. intros _. reflexivity.
Qed.

Lemma encode_finite_iff (s : bool) (N e' : Z) :
  wf_round N e' ->
  (is_finite (encode s N e') = true <-> inject_Z N * bpow e' < bpow 128).
Proof.
  intros (He & HN & Hnorm). pose proof (bpow_pos e') as Hb.
  assert (H24 : inject_Z (2 ^ 24) == bpow 24) by (apply bpow_Z; lia).
  assert (H23 : inject_Z (2 ^ 23) == bpow 23) by (apply bpow_Z; lia).
  unfold encode. destruct N as [|p|p]; [| |lia].
  - split; [|reflexivity]. intros _. change (inject_Z 0) with 0.
    pose proof (bpow_pos 128). lra.
  - destruct (Z.eqb_spec (Z.pos p) (2 ^ 24)) as [E | E].
    + rewrite E, H24, <- bpow_add.
      destruct (Z.leb_spec (e' + 1) 104) as [Hle | Hgt]; cbn [is_finite].
      * split; [|reflexivity]. intros _. apply bpow_lt. lia.
      * split; [discriminate|]. intros H. exfalso.
        pose proof (bpow_le 128 (24 + e') ltac:(lia)). lra.
    + destruct (Z.leb_spec e' 104) as [Hle | Hgt]; cbn [is_finite].
      * split; [|reflexivity]. intros _.
        assert (Hp : inject_Z (Z.pos p) < bpow 24).
        { rewrite <- H24, <- Zlt_Qlt. lia. }
        apply Qlt_le_trans with (bpow 24 * bpow e').
        -- apply Qmult_lt_compat_r; assumption.
        -- rewrite <- bpow_add. apply bpow_le. lia.
      * split; [discriminate|]. intros H. exfalso.
        assert (Hp : bpow 23 <= inject_Z (Z.pos p)).
        { rewrite <- H23, <- Zle_Qle. apply Hnorm. lia. }
        assert (bpow 23 * bpow e' <= inject_Z (Z.pos p) * bpow e').
        { apply Qmult_le_compat_r; lra. }
        rewrite <- bpow_add in H0.
        pose proof (bpow_le 128 (23 + e') ltac:(lia)). lra.
Qed.

(** *** The rounded value against the value of a canonical float *)

Lemma rne_scaled_le (x : Q) (N e' : Z) (mb eb : Z) :
  rne_spec (x / bpow e') N -> (e' <= eb)%Z -> (0 <= mb)%Z ->
  x <= inject_Z mb * bpow eb ->
  inject_Z N * bpow e' <= inject_Z mb * bpow eb.
Proof.
  intros Hrne Hee Hmb Hx. pose proof (bpow_pos e') as Hb.
  assert (EK : inject_Z (mb * 2 ^ (eb - e')) * bpow e' == inject_Z mb * bpow eb).
  { rewrite inject_Z_mult, bpow_Z by lia. rewrite bpow_sub. field. lra. }
  assert (HN : (N <= mb * 2 ^ (eb - e'))%Z).
  { apply (rne_le_int _ _ _ Hrne).
    apply Qle_shift_div_r; [exact Hb|]. rewrite EK. exact Hx. }
  rewrite <- EK. apply Qmult_le_compat_r; [|lra].
  rewrite <- Zle_Qle. exact HN.
Qed.

Lemma rne_scaled_ge (x : Q) (N e' : Z) (mb eb : Z) :
  rne_spec (x / bpow e') N -> (e' <= eb)%Z -> (0 <= mb)%Z ->
  inject_Z mb * bpow eb <= x ->
  inject_Z mb * bpow eb <= inject_Z N * bpow e'.
Proof.
  intros Hrne Hee Hmb Hx. pose proof (bpow_pos e') as Hb.
  assert (EK : inject_Z (mb * 2 ^ (eb - e')) * bpow e' == inject_Z mb * bpow eb).
  { rewrite inject_Z_mult, bpow_Z by lia. rewrite bpow_sub. field. lra. }
  assert (HN : (mb * 2 ^ (eb - e') <= N)%Z).
  { apply (rne_ge_int _ _ _ Hrne).
    apply Qle_shift_div_l; [exact Hb|]. rewrite EK. exact Hx. }
  rewrite <- EK. apply Qmult_le_compat_r; [|lra].
  rewrite <- Zle_Qle. exact HN.
Qed.

Lemma round_pos_upper (x : Q) (N e' : Z) (mb : positive) (eb : Z) :
  round_pos x N e' ->
  fexp32 (Z.pos (digits2_pos mb) + eb) = eb ->
  x <= inject_Z (Z.pos mb) * bpow eb ->
  inject_Z N * bpow e' <= inject_Z (Z.pos mb) * bpow eb.
Proof.
  intros (k & Ee & [Hx0 Hxk] & Hlo & HN & Hnorm & Hrne) Hcan Hx.
  destruct (Z_le_gt_dec e' eb) as [Hee | Hee].
  - apply rne_scaled_le with (x := x); try assumption; lia.
  - exfalso.
    assert (Hn : (-149 < e')%Z) by (unfold fexp32 in Hcan; lia).
    specialize (Hlo Hn).
    pose proof (canonical_value_bounds mb eb) as [_ Hhi].
    assert (Hk : (Z.pos (digits2_pos mb) + eb <= k - 1)%Z)
      by (unfold fexp32 in *; lia).
    pose proof (bpow_le _ _ Hk). lra.
Qed.

Lemma round_pos_lower (x : Q) (N e' : Z) (mb : positive) (eb : Z) :
  round_pos x N e' ->
  fexp32 (Z.pos (digits2_pos mb) + eb) = eb ->
  inject_Z (Z.pos mb) * bpow eb <= x ->
  inject_Z (Z.pos mb) * bpow eb <= inject_Z N * bpow e'.
Proof.
  intros (k & Ee & [Hx0 Hxk] & Hlo & HN & Hnorm & Hrne) Hcan Hx.
  destruct (Z_le_gt_dec e' eb) as [Hee | Hee].
  - apply rne_scaled_ge with (x := x); try assumption; lia.
  - assert (Hn : (-149 < e')%Z) by (unfold fexp32 in Hcan; lia).
    specialize (Hnorm Hn).
    pose proof (canonical_value_bounds mb eb) as [_ Hhi].
    assert (Hk : (Z.pos (digits2_pos mb) + eb <= 23 + e')%Z)
      by (unfold fexp32 in *; lia).
    pose proof (bpow_le _ _ Hk) as Hk'.
    rewrite (bpow_add 23 e') in Hk'.
    assert (H23 : inject_Z (2 ^ 23) == bpow 23) by (apply bpow_Z; lia).
    assert (HN23 : bpow 23 <= inject_Z N).
    { rewrite <- H23, <- Zle_Qle. exact Hnorm. }
    pose proof (bpow_pos e') as Hb.
    assert (bpow 23 * bpow e' <= inject_Z N * bpow e').
    { apply Qmult_le_compat_r; lra. }
    lra.
Qed.

Lemma round_pos_zero (x : Q) (N e' : Z) :
  round_pos x N e' -> x == 0 -> N = 0%Z.
Proof.
  intros (k & Ee & [Hx0 Hxk] & Hlo & HN & Hnorm & Hrne) Hx.
  assert (N <= 0)%Z; [|lia].
  apply (rne_le_int _ _ _ Hrne). rewrite Hx. unfold Qdiv.
  change (inject_Z 0) with 0. lra.
Qed.

Lemma round_pos_error (x : Q) (N e' : Z) :
  round_pos x N e' ->
  Qabs (inject_Z N * bpow e' - x) <= (1 # 2) * bpow e'.
Proof.
  intros (k & Ee & [Hx0 Hxk] & Hlo & HN & Hnorm & Hrne).
  pose proof (bpow_pos e') as Hb.
  pose proof (rne_error _ _ Hrne) as He.
  assert (E : inject_Z N * bpow e' - x == (inject_Z N - x / bpow e') * bpow e').
  { field. lra. }
  rewrite E, Qabs_Qmult, (Qabs_pos (bpow e')) by lra.
  apply Qmult_le_compat_r; lra.
Qed.

Lemma round_pos_exp_le (x : Q) (N e' eb : Z) :
  round_pos x N e' -> (-149 <= eb)%Z -> x < bpow (eb + 24) -> (e' <= eb)%Z.
Proof.
  intros (k & Ee & [Hx0 Hxk] & Hlo & HN & Hnorm & Hrne) Heb Hx.
  destruct (Z_le_gt_dec e' eb) as [H|H]; [exact H|exfalso].
  assert (Hn : (-149 < e')%Z) by lia.
  specialize (Hlo Hn).
  assert (Hk : (eb + 24 <= k - 1)%Z) by (unfold fexp32 in *; lia).
  pose proof (bpow_le _ _ Hk). lra.
Qed.

(** *** Rounding a signed exact value *)

Lemma round_pos_ext (x x' : Q) (N e' : Z) :
  x == x' -> round_pos x N e' -> round_pos x' N e'.
Proof.
  intros E (k & Ee & Hx & Hlo & HN & Hnorm & Hrne).
  exists k. unfold rne_spec in *. rewrite <- E. repeat split; tauto.
Qed.

(** A rounded result is a float of the format, and is not NaN. *)
Lemma Rnd_valid r z : Rnd r z -> valid32 z = true.
Proof.
  intros (s & N & e' & _ & Hr & ->). apply encode_valid.
  exact (round_pos_wf _ _ _ Hr).
Qed.


Lemma encode_infinite (s : bool) (N e' : Z) :
  (0 <= N)%Z -> is_finite (encode s N e') = false ->
  encode s N e' = S754_infinity s.
Proof.
  intros HN. unfold encode. destruct N as [|p|p]; [discriminate| |lia].
  destruct (Z.pos p =? 2 ^ 24)%Z.
  - destruct (e' + 1 <=? 104)%Z; [discriminate|reflexivity].
  - destruct (e' <=? 104)%Z; [discriminate|reflexivity].
Qed.

Lemma valid_value_lt (s : bool) (m : positive) (e : Z) :
  valid32 (S754_finite s m e) = true ->
  inject_Z (Z.pos m) * bpow e < bpow 128.
Proof.
  intros Hv. apply valid32_finite in Hv as [Hc He].
  pose proof (canonical_value_bounds m e) as [_ Hhi].
  assert (Hk : (Z.pos (digits2_pos m) + e <= 128)%Z) by (unfold fexp32 in Hc; lia).
  pose proof (bpow_le _ _ Hk). lra.
Qed.

Lemma F2Q_false (m e : Z) : F2Q false m e == inject_Z m * bpow e.
Proof. reflexivity. Qed.

Lemma F2Q_true (m e : Z) : F2Q true m e == - (inject_Z m * bpow e).
Proof. unfold F2Q. ring. Qed.

Lemma F2Q_nonneg (N e : Z) : (0 <= N)%Z -> 0 <= inject_Z N * bpow e.
Proof.
  intros HN. pose proof (bpow_pos e). apply Qmult_le_0_compat; [|lra].
  change 0 with (inject_Z 0). rewrite <- Zle_Qle. exact HN.
Qed.

Lemma SFleb_neg_infinity (B : spec_float) :
  B <> S754_nan -> SFleb (S754_infinity true) B = true.
Proof.
  intros H. destruct B as [s|s| |s m e]; try reflexivity;
    try (destruct s; reflexivity). contradiction.
Qed.

Lemma SFleb_pos_infinity (B : spec_float) :
  B <> S754_nan -> SFleb B (S754_infinity false) = true.
Proof.
  intros H. destruct B as [s|s| |s m e]; try reflexivity;
    try (destruct s; reflexivity). contradiction.
Qed.

Lemma is_finite_not_nan (B : spec_float) : is_finite B = true -> B <> S754_nan.
Proof. intros H E. subst B. discriminate H. Qed.

(** Rounding keeps an exact result on its side of every finite float. *)
Lemma Rnd_upper (r : Q) (z B : spec_float) :
  Rnd r z -> valid32 B = true -> is_finite B = true ->
  r <= SF2Q B -> SFleb z B = true.
Proof.
  intros (s & N & e' & Hs & Hr & ->) VB FB HrB.
  pose proof (round_pos_wf _ _ _ Hr) as Hwf.
  pose proof Hwf as (He & HN & Hnorm).
  pose proof (F2Q_nonneg N e' ltac:(lia)) as Hv0.
  destruct s.
  - (* r <= 0 *)
    apply (round_pos_ext _ _ _ _ (Qabs_neg r Hs)) in Hr.
    destruct (is_finite (encode true N e')) eqn:Fz.
    + apply SFleb_value; try assumption; [apply encode_valid; exact Hwf|].
      rewrite encode_value by (lia || assumption). rewrite F2Q_true.
      destruct B as [sb|sb| |sb mb eb]; try discriminate; cbn [SF2Q] in *.
      * lra.
      * destruct sb.
        -- rewrite F2Q_true in *.
           apply valid32_finite in VB as [Cb _].
           pose proof (round_pos_lower _ _ _ mb eb Hr Cb ltac:(lra)). lra.
        -- pose proof (F2Q_pos mb eb). lra.
    + rewrite (encode_infinite true N e') by (lia || assumption).
      apply SFleb_neg_infinity, is_finite_not_nan, FB.
  - (* 0 <= r *)
    apply (round_pos_ext _ _ _ _ (Qabs_pos r Hs)) in Hr.
    destruct B as [sb|sb| |sb mb eb]; try discriminate; cbn [SF2Q] in HrB.
    + assert (E0 : r == 0) by lra.
      rewrite (round_pos_zero _ _ _ Hr E0). destruct sb; reflexivity.
    + destruct sb; [pose proof (F2Q_neg mb eb); lra|].
      rewrite F2Q_false in HrB.
      pose proof VB as VB'. apply valid32_finite in VB' as [Cb _].
      pose proof (round_pos_upper _ _ _ mb eb Hr Cb HrB) as Hup.
      pose proof (valid_value_lt false mb eb VB) as Hlt.
      assert (Fz : is_finite (encode false N e') = true).
      { apply encode_finite_iff; [exact Hwf|lra]. }
      apply SFleb_value; try assumption; [apply encode_valid; exact Hwf|].
      rewrite encode_value by (lia || assumption).
      cbn [SF2Q]. rewrite !F2Q_false. exact Hup.
Qed.

Lemma Rnd_lower (r : Q) (z B : spec_float) :
  Rnd r z -> valid32 B = true -> is_finite B = true ->
  SF2Q B <= r -> SFleb B z = true.
Proof.
  intros (s & N & e' & Hs & Hr & ->) VB FB HrB.
  pose proof (round_pos_wf _ _ _ Hr) as Hwf.
  pose proof Hwf as (He & HN & Hnorm).
  pose proof (F2Q_nonneg N e' ltac:(lia)) as Hv0.
  destruct s.
  - (* r <= 0 *)
    apply (round_pos_ext _ _ _ _ (Qabs_neg r Hs)) in Hr.
    destruct B as [sb|sb| |sb mb eb]; try discriminate; cbn [SF2Q] in HrB.
    + assert (E0 : - r == 0) by lra.
      rewrite (round_pos_zero _ _ _ Hr E0). destruct sb; reflexivity.
    + destruct sb; [|pose proof (F2Q_pos mb eb); lra].
      rewrite F2Q_true in HrB.
      pose proof VB as VB'. apply valid32_finite in VB' as [Cb _].
      pose proof (round_pos_upper (- r) _ _ mb eb Hr Cb ltac:(lra)) as Hup.
      pose proof (valid_value_lt true mb eb VB) as Hlt.
      assert (Fz : is_finite (encode true N e') = true).
      { apply encode_finite_iff; [exact Hwf|lra]. }
      apply SFleb_value; try assumption; [apply encode_valid; exact Hwf|].
      rewrite encode_value by (lia || assumption).
      cbn [SF2Q]. rewrite !F2Q_true. lra.
  - (* 0 <= r *)
    apply (round_pos_ext _ _ _ _ (Qabs_pos r Hs)) in Hr.
    destruct (is_finite (encode false N e')) eqn:Fz.
    + apply SFleb_value; try assumption; [apply encode_valid; exact Hwf|].
      rewrite encode_value by (lia || assumption). rewrite F2Q_false.
      destruct B as [sb|sb| |sb mb eb]; try discriminate; cbn [SF2Q] in *.
      * lra.
      * destruct sb.
        -- pose proof (F2Q_neg mb eb). lra.
        -- rewrite F2Q_false in *.
           apply valid32_finite in VB as [Cb _].
           pose proof (round_pos_lower _ _ _ mb eb Hr Cb HrB). lra.
    + rewrite (encode_infinite false N e') by (lia || assumption).
      apply SFleb_pos_infinity, is_finite_not_nan, FB.
Qed.

(** A rounded result bounded by a finite float is finite. *)
Lemma Rnd_finite (r : Q) (z B : spec_float) :
  Rnd r z -> valid32 B = true -> is_finite B = true ->
  Qabs r <= Qabs (SF2Q B) -> is_finite z = true.
Proof.
  intros (s & N & e' & Hs & Hr & ->) VB FB HrB.
  pose proof (round_pos_wf _ _ _ Hr) as Hwf.
  apply encode_finite_iff; [exact Hwf|].
  destruct B as [sb|sb| |sb mb eb]; try discriminate; cbn [SF2Q] in HrB.
  - assert (E0 : Qabs r == 0).
    { pose proof (Qabs_nonneg r). change (Qabs 0) with 0 in HrB. lra. }
    rewrite (round_pos_zero _ _ _ Hr E0). change (inject_Z 0) with 0.
    pose proof (bpow_pos 128). lra.
  - assert (EB : Qabs (F2Q sb (Z.pos mb) eb) == inject_Z (Z.pos mb) * bpow eb).
    { pose proof (F2Q_pos mb eb) as Hp. rewrite F2Q_false in Hp.
      destruct sb.
      - rewrite F2Q_true, Qabs_opp. apply Qabs_pos. lra.
      - rewrite F2Q_false. apply Qabs_pos. lra. }
    rewrite EB in HrB.
    pose proof VB as VB'. apply valid32_finite in VB' as [Cb _].
    pose proof (round_pos_upper _ _ _ mb eb Hr Cb HrB).
    pose proof (valid_value_lt sb mb eb VB). lra.
Qed.

(** The error of a finite rounded result is at most half a unit in the
    last place. *)
Lemma Rnd_error (r : Q) (z : spec_float) (eb : Z) :
  Rnd r z -> is_finite z = true -> (-149 <= eb)%Z ->
  Qabs r < bpow (eb + 24) ->
  Qabs (SF2Q z - r) <= (1 # 2) * bpow eb.
Proof.
  intros (s & N & e' & Hs & Hr & ->) Fz Heb Hlt.
  pose proof (round_pos_wf _ _ _ Hr) as (_ & HN & _).
  pose proof (round_pos_error _ _ _ Hr) as Herr.
  pose proof (round_pos_exp_le _ _ _ eb Hr Heb Hlt) as Hee.
  pose proof (bpow_le _ _ Hee) as Hbb.
  rewrite encode_value by (lia || assumption).
  destruct s.
  - rewrite F2Q_true.
    assert (E : - (inject_Z N * bpow e') - r
                == - (inject_Z N * bpow e' - Qabs r)).
    { rewrite (Qabs_neg r Hs). ring. }
    rewrite E, Qabs_opp. lra.
  - rewrite F2Q_false.
    assert (E : inject_Z N * bpow e' - r == inject_Z N * bpow e' - Qabs r).
    { rewrite (Qabs_pos r Hs). ring. }
    rewrite E. lra.
Qed.

(** The rounding of a representable value is that value. *)
Lemma Rnd_zero (s : bool) : Rnd 0 (S754_zero s).
Proof.
  exists s, 0%Z, (-149)%Z. split; [destruct s; lra|]. split; [|reflexivity].
  exists (-149)%Z. split; [reflexivity|]. change (Qabs 0) with 0.
  pose proof (bpow_pos (-149)).
  split; [lra|]. split; [lia|]. split; [lia|]. split; [lia|].
  unfold rne_spec. change (inject_Z 0) with 0.
  assert (E : 0 / bpow (-149) == 0) by (field; lra).
  rewrite E. split; [lra|]. intros _. reflexivity.
Qed.

Lemma canonical_digits_le (m : positive) (e : Z) :
  fexp32 (Z.pos (digits2_pos m) + e) = e ->
  (Z.pos (digits2_pos m) <= 24)%Z
  /\ ((-149 < e)%Z -> Z.pos (digits2_pos m) = 24%Z).
Proof. unfold fexp32. lia. Qed.

Lemma round_pos_id (m : positive) (e : Z) :
  fexp32 (Z.pos (digits2_pos m) + e) = e ->
  round_pos (inject_Z (Z.pos m) * bpow e) (Z.pos m) e.
Proof.
  intros Hc. pose proof (canonical_digits_le m e Hc) as [Hd Hd24].
  pose proof (canonical_value_bounds m e) as [Hlo Hhi].
  pose proof (digits2_bounds m) as [Hmlo Hmhi].
  pose proof (bpow_pos e) as Hb.
  exists (Z.pos (digits2_pos m) + e)%Z.
  split; [symmetry; exact Hc|]. split; [split; [|exact Hhi]|].
  { apply F2Q_nonneg. lia. }
  split; [intros _; exact Hlo|].
  split.
  { split; [lia|].
    assert (2 ^ Z.pos (digits2_pos m) <= 2 ^ 24)%Z by (apply Z.pow_le_mono_r; lia).
    lia. }
  split.
  { intros Hn. rewrite (Hd24 Hn) in Hmlo. exact Hmlo. }
  unfold rne_spec.
  assert (E : inject_Z (Z.pos m) * bpow e / bpow e == inject_Z (Z.pos m))
    by (field; lra).
  rewrite E. split; [lra|]. intros [H|H]; lra.
Qed.

Lemma encode_id (s : bool) (m : positive) (e : Z) :
  valid32 (S754_finite s m e) = true ->
  encode s (Z.pos m) e = S754_finite s m e.
Proof.
  intros Hv. apply valid32_finite in Hv as [Hc He].
  pose proof (canonical_digits_le m e Hc) as [Hd _].
  pose proof (digits2_bounds m) as [_ Hmhi].
  assert (2 ^ Z.pos (digits2_pos m) <= 2 ^ 24)%Z by (apply Z.pow_le_mono_r; lia).
  unfold encode.
  rewrite (proj2 (Z.eqb_neq (Z.pos m) (2 ^ 24))) by lia.
  rewrite (proj2 (Z.leb_le e 104) He). reflexivity.
Qed.

Lemma Rnd_id (z : spec_float) :
  valid32 z = true -> is_finite z = true -> Rnd (SF2Q z) z.
Proof.
  intros Vz Fz. destruct z as [s|s| |s m e]; try discriminate.
  - apply Rnd_zero.
  - pose proof Vz as Vz'. apply valid32_finite in Vz' as [Hc He].
    pose proof (F2Q_pos m e) as Hp. rewrite F2Q_false in Hp.
    exists s, (Z.pos m), e. cbn [SF2Q].
    split; [destruct s; [rewrite F2Q_true|rewrite F2Q_false]; lra|].
    split; [|symmetry; apply encode_id; exact Vz].
    apply round_pos_ext with (x := inject_Z (Z.pos m) * bpow e).
    + destruct s.
      * rewrite F2Q_true, Qabs_opp. symmetry. apply Qabs_pos. lra.
      * rewrite F2Q_false. symmetry. apply Qabs_pos. lra.
    + apply round_pos_id. exact Hc.
Qed.

(** *** Alignment and normalisation *)

Lemma pos_iter_xO (m d : positive) :
  Z.pos (Pos.iter xO m d) = (Z.pos m * 2 ^ Z.pos d)%Z.
Proof.
  induction d as [|d IH] using Pos.peano_ind.
  - cbn. lia.
  - rewrite Pos.iter_succ, Pos2Z.inj_xO, IH, Pos2Z.inj_succ.
    rewrite Z.pow_succ_r by lia. ring.
Qed.

Lemma shl_align_spec (m : positive) (e e' : Z) :
  (e' <= e)%Z ->
  let '(m', e'') := shl_align m e e' in
  e'' = e' /\ Z.pos m' = (Z.pos m * 2 ^ (e - e'))%Z.
Proof.
  intros Hle. unfold shl_align.
  destruct (e' - e)%Z as [|d|d] eqn:Ed; try lia.
  - replace e' with e by lia. rewrite Z.sub_diag. split; [reflexivity|]. lia.
  - split; [reflexivity|]. rewrite pos_iter_xO. f_equal. f_equal. lia.
Qed.

Lemma shl_align_id (m : positive) (e e' : Z) :
  (e <= e')%Z -> shl_align m e e' = (m, e).
Proof.
  intros Hle. unfold shl_align.
  destruct (e' - e)%Z as [|d|d] eqn:Ed; try lia; reflexivity.
Qed.

Lemma Zdigits2_shift (m d : Z) :
  (0 < m -> 0 <= d -> Zdigits2 (m * 2 ^ d) = Zdigits2 m + d)%Z.
Proof.
  intros Hm Hd. pose proof (pow2_pos d Hd) as Hp.
  pose proof (Zdigits2_bounds m Hm) as [Hlo Hhi].
  pose proof (Zdigits2_nonneg m) as Hn.
  assert (Hdm : (1 <= Zdigits2 m)%Z).
  { apply Zdigits2_ge_iff; try lia. }
  apply Z.le_antisymm.
  - apply Zdigits2_le_iff; try nia. rewrite Z.pow_add_r by lia. nia.
  - apply Zdigits2_ge_iff; try nia.
    replace (Zdigits2 m + d - 1)%Z with ((Zdigits2 m - 1) + d)%Z by lia.
    rewrite Z.pow_add_r by lia. nia.
Qed.

Lemma binary_round_unfold s m e :
  binary_round b32_prec b32_emax s m e
  = let '(mz, ez) := shl_align m e (fexp32 (Z.pos (digits2_pos m) + e)) in
    binary_round_aux b32_prec b32_emax s (Z.pos mz) ez loc_Exact.
Proof. reflexivity. Qed.

Lemma binary_round_spec (s : bool) (m : positive) (e : Z) :
  exists N e' : Z,
    round_pos (inject_Z (Z.pos m) * bpow e) N e'
    /\ binary_round b32_prec b32_emax s m e = encode s N e'.
Proof.
  rewrite binary_round_unfold.
  set (f := fexp32 (Z.pos (digits2_pos m) + e)).
  destruct (Z_le_gt_dec e f) as [Hle | Hgt].
  - rewrite shl_align_id by exact Hle.
    destruct (kernel_round_pos s (Z.pos m) e loc_Exact (inject_Z (Z.pos m)))
      as (N & Hr & Henc); try (cbn; lia || reflexivity).
    + exact Hle.
    + exists N, f. split; assumption.
  - pose proof (shl_align_spec m e f ltac:(lia)) as Hs.
    destruct (shl_align m e f) as [mz ez]. destruct Hs as [-> Emz].
    assert (Hd : Zdigits2 (Z.pos mz) = (Z.pos (digits2_pos m) + (e - f))%Z).
    { rewrite Emz, Zdigits2_shift by lia. reflexivity. }
    destruct (kernel_round_pos s (Z.pos mz) f loc_Exact (inject_Z (Z.pos mz)))
      as (N & Hr & Henc); try (cbn; lia || reflexivity).
    + rewrite Hd. replace (Z.pos (digits2_pos m) + (e - f) + f)%Z
        with (Z.pos (digits2_pos m) + e)%Z by lia. fold f. lia.
    + rewrite Hd in Hr, Henc.
      replace (Z.pos (digits2_pos m) + (e - f) + f)%Z
        with (Z.pos (digits2_pos m) + e)%Z in Hr, Henc by lia.
      fold f in Hr, Henc.
      exists N, f. split; [|exact Henc].
      apply round_pos_ext with (2 := Hr).
      rewrite Emz, inject_Z_mult, bpow_Z by lia. rewrite bpow_sub.
      pose proof (bpow_pos f). field. lra.
Qed.

(** [binary_normalize], which ends [SFadd] and [SFsub], rounds
    the integer [M] times [2 ^ e]. *)
Lemma binary_normalize_spec (M e : Z) :
  Rnd (inject_Z M * bpow e) (binary_normalize b32_prec b32_emax M e false).
Proof.
  destruct M as [|m|m]; cbn [binary_normalize].
  - assert (E : inject_Z 0 * bpow e == 0) by (change (inject_Z 0) with 0; ring).
    destruct (Rnd_zero false) as (s & N & e' & Hs & Hr & Henc).
    exists s, N, e'. split; [destruct s; lra|]. split; [|exact Henc].
    apply round_pos_ext with (2 := Hr). rewrite E. reflexivity.
  - destruct (binary_round_spec false m e) as (N & e' & Hr & Henc).
    pose proof (F2Q_pos m e) as Hp. rewrite F2Q_false in Hp.
    exists false, N, e'. split; [lra|]. split; [|exact Henc].
    apply round_pos_ext with (2 := Hr). symmetry. apply Qabs_pos. lra.
  - destruct (binary_round_spec true m e) as (N & e' & Hr & Henc).
    pose proof (F2Q_pos m e) as Hp. rewrite F2Q_false in Hp.
    assert (E : inject_Z (Z.neg m) == - inject_Z (Z.pos m)) by reflexivity.
    exists true, N, e'. split; [rewrite E; lra|]. split; [|exact Henc].
    apply round_pos_ext with (2 := Hr). rewrite E.
    setoid_replace (- inject_Z (Z.pos m) * bpow e)
      with (- (inject_Z (Z.pos m) * bpow e)) by ring.
    rewrite Qabs_opp. symmetry. apply Qabs_pos. lra.
Qed.

(** *** Error model, overflow threshold *)

Lemma bpow_m24 : bpow (-24) == 1 # 16777216.
Proof. rewrite bpow_unfold. reflexivity. Qed.

Lemma bpow_half (e : Z) : (1 # 2) * bpow e == bpow (e - 1).
Proof.
  replace e with ((e - 1) + 1)%Z at 1 by lia. rewrite bpow_succ. ring.
Qed.

Lemma round_pos_error_model (x : Q) (N e' : Z) :
  round_pos x N e' ->
  Qabs (inject_Z N * bpow e' - x) <= x * (1 # 16777216) + bpow (-150).
Proof.
  intros Hr. pose proof (round_pos_error _ _ _ Hr) as Herr.
  destruct Hr as (k & Ee & [Hx0 Hxk] & Hlo & HN & Hnorm & Hrne).
  pose proof (bpow_pos (-150)) as H150.
  rewrite bpow_half in Herr.
  destruct (Z.eq_dec e' (-149)) as [E | E].
  - assert (Hb : bpow (e' - 1) == bpow (-150)) by (rewrite E; reflexivity).
    rewrite Hb in Herr.
    assert (0 <= x * (1 # 16777216)) by (apply Qmult_le_0_compat; lra).
    lra.
  - assert (Hn : (-149 < e')%Z) by (unfold fexp32 in Ee; lia).
    specialize (Hlo Hn).
    assert (Ek : (e' - 1 = (k - 1) + (-24))%Z) by (unfold fexp32 in Ee; lia).
    rewrite Ek, bpow_add, bpow_m24 in Herr.
    assert (bpow (k - 1) * (1 # 16777216) <= x * (1 # 16777216)).
    { apply Qmult_le_compat_r; lra. }
    lra.
Qed.

(** The error of a finite rounded result is at most [2^-24] of the exact
    result, plus [2^-150] in the subnormal range. *)
Lemma Rnd_error_model (r : Q) (z : spec_float) :
  Rnd r z -> is_finite z = true ->
  Qabs (SF2Q z - r) <= Qabs r * (1 # 16777216) + bpow (-150).
Proof.
  intros (s & N & e' & Hs & Hr & ->) Fz.
  pose proof (round_pos_wf _ _ _ Hr) as (_ & HN & _).
  pose proof (round_pos_error_model _ _ _ Hr) as Herr.
  rewrite encode_value by (lia || assumption).
  destruct s.
  - rewrite F2Q_true.
    assert (E : - (inject_Z N * bpow e') - r
                == - (inject_Z N * bpow e' - Qabs r)).
    { rewrite (Qabs_neg r Hs). ring. }
    rewrite E, Qabs_opp. exact Herr.
  - rewrite F2Q_false.
    assert (E : inject_Z N * bpow e' - r == inject_Z N * bpow e' - Qabs r).
    { rewrite (Qabs_pos r Hs). ring. }
    rewrite E. exact Herr.
Qed.

(** A result below the largest float plus half a unit in its last place
    rounds to a finite float; a finite rounded result is below [2^128]. *)
Lemma Rnd_finite_bound (r : Q) (z : spec_float) :
  Rnd r z -> Qabs r < bpow 128 - bpow 103 -> is_finite z = true.
Proof.
  intros (s & N & e' & Hs & Hr & ->) Hlt.
  pose proof (round_pos_wf _ _ _ Hr) as Hwf.
  apply encode_finite_iff; [exact Hwf|].
  pose proof (bpow_pos 103) as H103.
  pose proof (round_pos_error _ _ _ Hr) as Herr.
  assert (Hee : (e' <= 104)%Z).
  { apply (round_pos_exp_le _ _ _ 104 Hr); [lia|].
    change (104 + 24)%Z with 128%Z. lra. }
  pose proof (bpow_le _ _ Hee) as Hbb.
  rewrite bpow_half in Herr.
  pose proof (bpow_le (e' - 1) 103 ltac:(lia)) as Hb2.
  apply Qabs_Qle_condition in Herr. lra.
Qed.

Lemma Rnd_finite_lt (r : Q) (z : spec_float) :
  Rnd r z -> is_finite z = true -> Qabs r < bpow 128.
Proof.
  intros (s & N & e' & Hs & Hr & ->) Fz.
  pose proof (round_pos_wf _ _ _ Hr) as Hwf.
  apply (encode_finite_iff s N e' Hwf) in Fz.
  destruct Hr as (k & Ee & [Hx0 Hxk] & Hlo & HN & Hnorm & Hrne).
  destruct (Z_le_gt_dec k 128) as [Hk | Hk].
  - pose proof (bpow_le _ _ Hk). lra.
  - exfalso.
    assert (Hn : (-149 < e')%Z) by (unfold fexp32 in Ee; lia).
    specialize (Hnorm Hn).
    assert (H23 : inject_Z (2 ^ 23) == bpow 23) by (apply bpow_Z; lia).
    assert (HN23 : bpow 23 <= inject_Z N).
    { rewrite <- H23, <- Zle_Qle. exact Hnorm. }
    pose proof (bpow_pos e') as Hb.
    assert (bpow 23 * bpow e' <= inject_Z N * bpow e').
    { apply Qmult_le_compat_r; lra. }
    rewrite <- bpow_add in H.
    pose proof (bpow_le 128 (23 + e') ltac:(unfold fexp32 in Ee; lia)). lra.
Qed.

(** *** Rounding is monotone *)

Lemma round_pos_mono (x1 x2 : Q) (N1 e1 N2 e2 : Z) :
  round_pos x1 N1 e1 -> round_pos x2 N2 e2 -> x1 <= x2 ->
  inject_Z N1 * bpow e1 <= inject_Z N2 * bpow e2.
Proof.
  intros (k1 & Ee1 & [Hx1 Hxk1] & Hlo1 & HN1 & Hnorm1 & Hrne1)
         (k2 & Ee2 & [Hx2 Hxk2] & Hlo2 & HN2 & Hnorm2 & Hrne2) H12.
  pose proof (bpow_pos e1) as Hb1. pose proof (bpow_pos e2) as Hb2.
  assert (H24 : inject_Z (2 ^ 24) == bpow 24) by (apply bpow_Z; lia).
  assert (H23 : inject_Z (2 ^ 23) == bpow 23) by (apply bpow_Z; lia).
  destruct (Z.lt_trichotomy e1 e2) as [Hlt | [Heq | Hgt]].
  - assert (Hn : (-149 < e2)%Z) by (unfold fexp32 in Ee1; lia).
    specialize (Hnorm2 Hn).
    assert (HN23 : bpow 23 <= inject_Z N2).
    { rewrite <- H23, <- Zle_Qle. exact Hnorm2. }
    assert (HN24 : inject_Z N1 <= bpow 24).
    { rewrite <- H24, <- Zle_Qle. lia. }
    assert (A : inject_Z N1 * bpow e1 <= bpow 24 * bpow e1).
    { apply Qmult_le_compat_r; lra. }
    assert (B : bpow 23 * bpow e2 <= inject_Z N2 * bpow e2).
    { apply Qmult_le_compat_r; lra. }
    rewrite <- bpow_add in A, B.
    pose proof (bpow_le (24 + e1) (23 + e2) ltac:(lia)). lra.
  - subst e2. rewrite <- Heq in *.
    apply Qmult_le_compat_r; [|lra]. rewrite <- Zle_Qle.
    apply (rne_mono _ _ _ _ Hrne1 Hrne2).
    apply Qmult_le_compat_r; [exact H12|].
    apply Qlt_le_weak, Qinv_lt_0_compat, Hb1.
  - exfalso.
    assert (Hn : (-149 < e1)%Z) by (unfold fexp32 in Ee2; lia).
    specialize (Hlo1 Hn).
    pose proof (bpow_le k2 (k1 - 1) ltac:(unfold fexp32 in *; lia)). lra.
Qed.

Lemma encode_pos_le (N1 e1 N2 e2 : Z) :
  wf_round N1 e1 -> wf_round N2 e2 ->
  inject_Z N1 * bpow e1 <= inject_Z N2 * bpow e2 ->
  SFleb (encode false N1 e1) (encode false N2 e2) = true.
Proof.
  intros W1 W2 Hle.
  pose proof W1 as (_ & HN1 & _). pose proof W2 as (_ & HN2 & _).
  destruct (is_finite (encode false N2 e2)) eqn:F2.
  - assert (F1 : is_finite (encode false N1 e1) = true).
    { apply encode_finite_iff; [exact W1|].
      apply (encode_finite_iff false N2 e2 W2) in F2. lra. }
    apply SFleb_value; try assumption; try (apply encode_valid; assumption).
    rewrite !encode_value by (lia || assumption). rewrite !F2Q_false. exact Hle.
  - rewrite (encode_infinite false N2 e2) by (lia || assumption).
    apply SFleb_pos_infinity, encode_not_nan. lia.
Qed.

Lemma encode_neg_le (N1 e1 N2 e2 : Z) :
  wf_round N1 e1 -> wf_round N2 e2 ->
  inject_Z N2 * bpow e2 <= inject_Z N1 * bpow e1 ->
  SFleb (encode true N1 e1) (encode true N2 e2) = true.
Proof.
  intros W1 W2 Hle.
  pose proof W1 as (_ & HN1 & _). pose proof W2 as (_ & HN2 & _).
  destruct (is_finite (encode true N1 e1)) eqn:F1.
  - assert (F2 : is_finite (encode true N2 e2) = true).
    { apply encode_finite_iff; [exact W2|].
      apply (encode_finite_iff true N1 e1 W1) in F1. lra. }
    apply SFleb_value; try assumption; try (apply encode_valid; assumption).
    rewrite !encode_value by (lia || assumption). rewrite !F2Q_true. lra.
  - rewrite (encode_infinite true N1 e1) by (lia || assumption).
    apply SFleb_neg_infinity, encode_not_nan. lia.
Qed.

Lemma encode_neg_pos_le (N1 e1 N2 e2 : Z) :
  wf_round N1 e1 -> wf_round N2 e2 ->
  SFleb (encode true N1 e1) (encode false N2 e2) = true.
Proof.
  intros W1 W2.
  pose proof W1 as (_ & HN1 & _). pose proof W2 as (_ & HN2 & _).
  destruct (is_finite (encode true N1 e1)) eqn:F1.
  - destruct (is_finite (encode false N2 e2)) eqn:F2.
    + apply SFleb_value; try assumption; try (apply encode_valid; assumption).
      rewrite !encode_value by (lia || assumption).
      rewrite F2Q_true, F2Q_false.
      pose proof (F2Q_nonneg N1 e1 ltac:(lia)).
      pose proof (F2Q_nonneg N2 e2 ltac:(lia)). lra.
    + rewrite (encode_infinite false N2 e2) by (lia || assumption).
      apply SFleb_pos_infinity, encode_not_nan. lia.
  - rewrite (encode_infinite true N1 e1) by (lia || assumption).
    apply SFleb_neg_infinity, encode_not_nan. lia.
Qed.

(** Rounding is monotone, the infinities included. *)
Lemma Rnd_mono (r1 r2 : Q) (z1 z2 : spec_float) :
  Rnd r1 z1 -> Rnd r2 z2 -> r1 <= r2 -> SFleb z1 z2 = true.
Proof.
  intros (s1 & N1 & e1 & Hs1 & Hr1 & ->) (s2 & N2 & e2 & Hs2 & Hr2 & ->) H12.
  pose proof (round_pos_wf _ _ _ Hr1) as W1.
  pose proof (round_pos_wf _ _ _ Hr2) as W2.
  destruct s1, s2.
  - apply encode_neg_le; try assumption.
    apply (round_pos_mono _ _ _ _ _ _ Hr2 Hr1).
    rewrite (Qabs_neg r1 Hs1), (Qabs_neg r2 Hs2). lra.
  - apply encode_neg_pos_le; assumption.
  - assert (E1 : Qabs r1 == 0) by (rewrite (Qabs_pos r1 Hs1); lra).
    assert (E2 : Qabs r2 == 0) by (rewrite (Qabs_neg r2 Hs2); lra).
    rewrite (round_pos_zero _ _ _ Hr1 E1), (round_pos_zero _ _ _ Hr2 E2).
    reflexivity.
  - apply encode_pos_le; try assumption.
    apply (round_pos_mono _ _ _ _ _ _ Hr1 Hr2).
    rewrite (Qabs_pos r1 Hs1), (Qabs_pos r2 Hs2). exact H12.
Qed.

(** *** The rounded value is a nearest float *)

Lemma rne_nearest (y : Q) (N M : Z) :
  rne_spec y N -> Qabs (inject_Z N - y) <= Qabs (inject_Z M - y).
Proof.
  intros [[Hlo Hhi] _].
  destruct (Z.lt_trichotomy M N) as [Hlt | [Heq | Hgt]].
  - pose proof (inject_Z_succ_le M N ltac:(lia)).
    apply Qabs_Qle_condition. rewrite (Qabs_neg (inject_Z M - y)) by lra. lra.
  - subst M. lra.
  - pose proof (inject_Z_succ_le N M ltac:(lia)).
    apply Qabs_Qle_condition. rewrite (Qabs_pos (inject_Z M - y)) by lra. lra.
Qed.

Lemma round_pos_nearest_int (x : Q) (N e' M : Z) :
  round_pos x N e' ->
  Qabs (inject_Z N * bpow e' - x) <= Qabs (inject_Z M * bpow e' - x).
Proof.
  intros (k & Ee & [Hx0 Hxk] & Hlo & HN & Hnorm & Hrne).
  pose proof (bpow_pos e') as Hb.
  assert (E : forall K, inject_Z K * bpow e' - x
                        == (inject_Z K - x / bpow e') * bpow e').
  { intros K. field. lra. }
  rewrite (E N), (E M), !Qabs_Qmult, (Qabs_pos (bpow e')) by lra.
  apply Qmult_le_compat_r; [|lra]. apply rne_nearest. exact Hrne.
Qed.

Lemma round_pos_nearest (x : Q) (N e' : Z) (mb : positive) (eb : Z) :
  round_pos x N e' ->
  fexp32 (Z.pos (digits2_pos mb) + eb) = eb ->
  Qabs (inject_Z N * bpow e' - x) <= Qabs (inject_Z (Z.pos mb) * bpow eb - x).
Proof.
  intros Hr Hcan.
  destruct (Z_le_gt_dec e' eb) as [Hee | Hee].
  - assert (EK : inject_Z (Z.pos mb * 2 ^ (eb - e')) * bpow e'
                 == inject_Z (Z.pos mb) * bpow eb).
    { pose proof (bpow_pos e').
      rewrite inject_Z_mult, bpow_Z by lia. rewrite bpow_sub. field. lra. }
    rewrite <- EK. apply round_pos_nearest_int. exact Hr.
  - pose proof (round_pos_nearest_int x N e' (2 ^ 23) Hr) as Hn.
    destruct Hr as (k & Ee & [Hx0 Hxk] & Hlo & HN & Hnorm & Hrne).
    assert (Hne : (-149 < e')%Z) by (unfold fexp32 in Hcan; lia).
    specialize (Hlo Hne).
    assert (H23 : inject_Z (2 ^ 23) == bpow 23) by (apply bpow_Z; lia).
    rewrite H23, <- bpow_add in Hn.
    assert (Ek : (23 + e' = k - 1)%Z) by (unfold fexp32 in Ee; lia).
    rewrite Ek in Hn.
    pose proof (canonical_value_bounds mb eb) as [_ Hhi].
    pose proof (bpow_le (Z.pos (digits2_pos mb) + eb) (k - 1)
                  ltac:(unfold fexp32 in *; lia)).
    rewrite (Qabs_neg (bpow (k - 1) - x)) in Hn by lra.
    rewrite (Qabs_neg (inject_Z (Z.pos mb) * bpow eb - x)) by lra.
    lra.
Qed.

Lemma Qabs_F2Q (s : bool) (m : positive) (e : Z) :
  Qabs (F2Q s (Z.pos m) e) == inject_Z (Z.pos m) * bpow e.
Proof.
  pose proof (F2Q_pos m e) as Hp. rewrite F2Q_false in Hp.
  destruct s.
  - rewrite F2Q_true, Qabs_opp. apply Qabs_pos. lra.
  - rewrite F2Q_false. apply Qabs_pos. lra.
Qed.

(** A finite rounded result is at least as near to the exact result as
    any finite float. *)
Lemma Rnd_nearest (r : Q) (z B : spec_float) :
  Rnd r z -> is_finite z = true ->
  valid32 B = true -> is_finite B = true ->
  Qabs (SF2Q z - r) <= Qabs (SF2Q B - r).
Proof.
  intros (s & N & e' & Hs & Hr & ->) Fz VB FB.
  pose proof (round_pos_wf _ _ _ Hr) as (_ & HN & _).
  rewrite encode_value by (lia || assumption).
  pose proof (round_pos_nearest_int _ _ _ 0 Hr) as H0.
  change (inject_Z 0) with 0 in H0.
  assert (E0 : 0 * bpow e' - Qabs r == - Qabs r) by ring.
  rewrite E0, Qabs_opp, (Qabs_pos (Qabs r) (Qabs_nonneg r)) in H0. clear E0.
  assert (Ez : Qabs (F2Q s N e' - r) == Qabs (inject_Z N * bpow e' - Qabs r)).
  { destruct s.
    - rewrite F2Q_true, (Qabs_neg r Hs).
      setoid_replace (- (inject_Z N * bpow e') - r)
        with (- (inject_Z N * bpow e' - - r)) by ring.
      apply Qabs_opp.
    - rewrite F2Q_false, (Qabs_pos r Hs). reflexivity. }
  rewrite Ez. clear Ez.
  destruct B as [sb|sb| |sb mb eb]; try discriminate; cbn [SF2Q].
  - setoid_replace (0 - r) with (- r) by ring. rewrite Qabs_opp. exact H0.
  - apply valid32_finite in VB as [Cb _].
    pose proof (round_pos_nearest _ _ _ mb eb Hr Cb) as Hn.
    pose proof (F2Q_pos mb eb) as Hp. rewrite F2Q_false in Hp.
    destruct s, sb.
    + rewrite F2Q_true.
      setoid_replace (- (inject_Z (Z.pos mb) * bpow eb) - r)
        with (- (inject_Z (Z.pos mb) * bpow eb - - r)) by ring.
      rewrite Qabs_opp. rewrite (Qabs_neg r Hs) in Hn |- *. exact Hn.
    + rewrite F2Q_false.
      rewrite (Qabs_neg r Hs) in H0 |- *.
      rewrite (Qabs_pos (inject_Z (Z.pos mb) * bpow eb - r)) by lra. lra.
    + rewrite F2Q_true.
      rewrite (Qabs_pos r Hs) in H0 |- *.
      rewrite (Qabs_neg (- (inject_Z (Z.pos mb) * bpow eb) - r)) by lra. lra.
    + rewrite F2Q_false. rewrite (Qabs_pos r Hs) in Hn |- *. exact Hn.
Qed.

(** *** The operations of SpecFloat round the exact result *)

Lemma Rnd_ext (r r' : Q) (z : spec_float) : r == r' -> Rnd r z -> Rnd r' z.
Proof.
  intros E (s & N & e' & Hs & Hr & Hz). exists s, N, e'.
  split; [destruct s; rewrite <- E; exact Hs|]. split; [|exact Hz].
  apply round_pos_ext with (2 := Hr). rewrite E. reflexivity.
Qed.

Lemma F2Q_xorb (sx sy : bool) (mx my : positive) (ex ey : Z) :
  F2Q sx (Z.pos mx) ex * F2Q sy (Z.pos my) ey
  == F2Q (xorb sx sy) (Z.pos (mx * my)) (ex + ey).
Proof.
  unfold F2Q. rewrite Pos2Z.inj_mul, inject_Z_mult, bpow_add.
  destruct sx, sy; cbn [xorb]; ring.
Qed.

Lemma Rnd_of_round_pos (s : bool) (m : positive) (e N e' : Z) :
  round_pos (inject_Z (Z.pos m) * bpow e) N e' ->
  Rnd (F2Q s (Z.pos m) e) (encode s N e').
Proof.
  intros Hr. pose proof (F2Q_pos m e) as Hp. rewrite F2Q_false in Hp.
  exists s, N, e'. split.
  - destruct s; [rewrite F2Q_true|rewrite F2Q_false]; lra.
  - split; [|reflexivity].
    apply round_pos_ext with (2 := Hr). symmetry. apply Qabs_F2Q.
Qed.

Lemma Zdigits2_mul_ge (mx my : positive) :
  (Z.pos (digits2_pos mx) + Z.pos (digits2_pos my) - 1
   <= Zdigits2 (Z.pos (mx * my)))%Z.
Proof.
  pose proof (digits2_bounds mx) as [Hx _].
  pose proof (digits2_bounds my) as [Hy _].
  apply Zdigits2_ge_iff; try lia.
  replace (Z.pos (digits2_pos mx) + Z.pos (digits2_pos my) - 1 - 1)%Z
    with ((Z.pos (digits2_pos mx) - 1) + (Z.pos (digits2_pos my) - 1))%Z by lia.
  rewrite Z.pow_add_r by lia. rewrite Pos2Z.inj_mul.
  apply Z.mul_le_mono_nonneg; lia.
Qed.

(** The product of two finite floats is the rounding of the exact
    product. *)
Lemma SFmul_Rnd (x y : spec_float) :
  valid32 x = true -> valid32 y = true ->
  is_finite x = true -> is_finite y = true ->
  Rnd (SF2Q x * SF2Q y) (SFmul b32_prec b32_emax x y).
Proof.
  intros Vx Vy Fx Fy.
  destruct x as [sx|sx| |sx mx ex]; try discriminate;
    destruct y as [sy|sy| |sy my ey]; try discriminate;
    cbn [SFmul SF2Q];
    try (apply Rnd_ext with (r := 0); [ring|apply Rnd_zero]).
  apply Rnd_ext with (1 := Qeq_sym _ _ (F2Q_xorb sx sy mx my ex ey)).
  apply valid32_finite in Vx as [Cx _]. apply valid32_finite in Vy as [Cy _].
  pose proof (Zdigits2_mul_ge mx my) as Hd.
  destruct (kernel_round_pos (xorb sx sy) (Z.pos (mx * my)) (ex + ey) loc_Exact
              (inject_Z (Z.pos (mx * my)))) as (N & Hr & ->).
  - lia.
  - cbn. reflexivity.
  - unfold fexp32 in *. lia.
  - apply Rnd_of_round_pos. exact Hr.
Qed.

Lemma SF2Q_opp (x : spec_float) : SF2Q (SFopp x) == - SF2Q x.
Proof.
  destruct x as [s|s| |s m e]; cbn [SFopp SF2Q]; try ring. apply F2Q_opp.
Qed.

Lemma SF2Q_abs (x : spec_float) : SF2Q (SFabs x) == Qabs (SF2Q x).
Proof.
  destruct x as [s|s| |s m e]; cbn [SFabs SF2Q]; try reflexivity.
  rewrite Qabs_F2Q. reflexivity.
Qed.

Lemma valid32_opp (x : spec_float) : valid32 (SFopp x) = valid32 x.
Proof. destruct x; reflexivity. Qed.

Lemma valid32_abs (x : spec_float) : valid32 (SFabs x) = valid32 x.
Proof. destruct x; reflexivity. Qed.

Lemma is_finite_opp (x : spec_float) : is_finite (SFopp x) = is_finite x.
Proof. destruct x; reflexivity. Qed.

Lemma is_finite_abs (x : spec_float) : is_finite (SFabs x) = is_finite x.
Proof. destruct x; reflexivity. Qed.


Lemma shl_align_value (s : bool) (m : positive) (e ez : Z) :
  (ez <= e)%Z ->
  inject_Z (cond_Zopp s (Z.pos (fst (shl_align m e ez)))) * bpow ez
  == F2Q s (Z.pos m) e.
Proof.
  intros Hle. pose proof (shl_align_spec m e ez Hle) as Hs.
  destruct (shl_align m e ez) as [m' e'']. destruct Hs as [_ Em].
  cbn [fst]. pose proof (bpow_pos ez) as Hb.
  assert (E : inject_Z (Z.pos m') * bpow ez == inject_Z (Z.pos m) * bpow e).
  { rewrite Em, inject_Z_mult, bpow_Z by lia. rewrite bpow_sub. field. lra. }
  destruct s; cbn [cond_Zopp].
  - rewrite F2Q_true, <- E, inject_Z_opp. ring.
  - rewrite F2Q_false. exact E.
Qed.

(** The sum and the difference of two finite floats are the roundings of
    the exact ones. *)
Lemma SFadd_Rnd (x y : spec_float) :
  valid32 x = true -> valid32 y = true ->
  is_finite x = true -> is_finite y = true ->
  Rnd (SF2Q x + SF2Q y) (SFadd b32_prec b32_emax x y).
Proof.
  intros Vx Vy Fx Fy.
  destruct x as [sx|sx| |sx mx ex]; try discriminate;
    destruct y as [sy|sy| |sy my ey]; try discriminate.
  - apply Rnd_ext with (r := 0); [cbn [SF2Q]; ring|].
    destruct sx, sy; apply Rnd_zero.
  - apply Rnd_ext with (r := SF2Q (S754_finite sy my ey)); [cbn [SF2Q]; ring|].
    apply (Rnd_id (S754_finite sy my ey)); assumption.
  - apply Rnd_ext with (r := SF2Q (S754_finite sx mx ex)); [cbn [SF2Q]; ring|].
    apply (Rnd_id (S754_finite sx mx ex)); assumption.
  - cbn [SFadd SF2Q].
    eapply Rnd_ext; [|apply binary_normalize_spec].
    rewrite inject_Z_plus, Qmult_plus_distr_l.
    rewrite !shl_align_value by lia. reflexivity.
Qed.

Lemma SFsub_Rnd (x y : spec_float) :
  valid32 x = true -> valid32 y = true ->
  is_finite x = true -> is_finite y = true ->
  Rnd (SF2Q x - SF2Q y) (SFsub b32_prec b32_emax x y).
Proof.
  intros Vx Vy Fx Fy.
  destruct x as [sx|sx| |sx mx ex]; try discriminate;
    destruct y as [sy|sy| |sy my ey]; try discriminate.
  - apply Rnd_ext with (r := 0); [cbn [SF2Q]; ring|].
    destruct sx, sy; apply Rnd_zero.
  - apply Rnd_ext with (r := SF2Q (S754_finite (negb sy) my ey)).
    { cbn [SF2Q]. rewrite F2Q_opp. ring. }
    apply (Rnd_id (S754_finite (negb sy) my ey)); [|reflexivity].
    change (valid32 (SFopp (S754_finite sy my ey)) = true).
    rewrite valid32_opp. exact Vy.
  - apply Rnd_ext with (r := SF2Q (S754_finite sx mx ex)); [cbn [SF2Q]; ring|].
    apply (Rnd_id (S754_finite sx mx ex)); assumption.
  - cbn [SFsub SF2Q].
    eapply Rnd_ext; [|apply binary_normalize_spec].
    unfold Z.sub at 1. rewrite inject_Z_plus, inject_Z_opp.
    setoid_replace
      ((inject_Z (cond_Zopp sx (Z.pos (fst (shl_align mx ex (Z.min ex ey)))))
        + - inject_Z (cond_Zopp sy (Z.pos (fst (shl_align my ey (Z.min ex ey))))))
       * bpow (Z.min ex ey))
      with (inject_Z (cond_Zopp sx (Z.pos (fst (shl_align mx ex (Z.min ex ey)))))
            * bpow (Z.min ex ey)
            - inject_Z (cond_Zopp sy (Z.pos (fst (shl_align my ey (Z.min ex ey)))))
              * bpow (Z.min ex ey)) by ring.
    rewrite !shl_align_value by lia. reflexivity.
Qed.

(** [new_location] places the remainder of a division. *)
Lemma new_location_spec (nb q r : Z) :
  (0 < nb)%Z -> (0 <= r < nb)%Z ->
  located (inject_Z q + inject_Z r / inject_Z nb) q (new_location nb r).
Proof.
  intros Hnb Hr.
  assert (Hnbq : 0 < inject_Z nb).
  { change 0 with (inject_Z 0). rewrite <- Zlt_Qlt. exact Hnb. }
  set (t := inject_Z r / inject_Z nb).
  assert (Ht : inject_Z r == t * inject_Z nb) by (unfold t; field; lra).
  assert (H2 : forall c, (2 * r ?= nb)%Z = c ->
               match c with
               | Lt => t < 1 # 2
               | Eq => t == 1 # 2
               | Gt => (1 # 2) < t
               end).
  { intros c Hc.
    assert (E2 : inject_Z (2 * r) == 2 * t * inject_Z nb).
    { rewrite inject_Z_mult, Ht. change (inject_Z 2) with 2. ring. }
    destruct c.
    - apply Z.compare_eq in Hc.
      assert (E : 2 * t * inject_Z nb == inject_Z nb) by (rewrite <- E2, Hc; reflexivity).
      assert (E' : (2 * t - 1) * inject_Z nb == 0) by lra.
      apply Qmult_integral in E' as [E' | E']; lra.
    - apply (proj1 (Z.compare_lt_iff _ _)) in Hc. rewrite Zlt_Qlt, E2 in Hc.
      destruct (Qlt_le_dec t (1 # 2)) as [H | H]; [exact H|exfalso].
      assert (0 <= (2 * t - 1) * inject_Z nb) by (apply Qmult_le_0_compat; lra).
      lra.
    - apply (proj1 (Z.compare_gt_iff _ _)) in Hc. rewrite Zlt_Qlt, E2 in Hc.
      destruct (Qlt_le_dec (1 # 2) t) as [H | H]; [exact H|exfalso].
      assert (0 <= (1 - 2 * t) * inject_Z nb) by (apply Qmult_le_0_compat; lra).
      lra. }
  assert (Ht0 : 0 <= t).
  { unfold t. apply Qle_shift_div_l; [exact Hnbq|].
    setoid_replace (0 * inject_Z nb) with (inject_Z 0) by (change (inject_Z 0) with 0; ring).
    rewrite <- Zle_Qle. lia. }
  assert (Ht1 : t < 1).
  { unfold t. apply Qlt_shift_div_r; [exact Hnbq|].
    setoid_replace (1 * inject_Z nb) with (inject_Z nb) by ring.
    rewrite <- Zlt_Qlt. lia. }
  assert (Htpos : r <> 0%Z -> 0 < t).
  { intros Hr0. unfold t. apply Qlt_shift_div_l; [exact Hnbq|].
    setoid_replace (0 * inject_Z nb) with (inject_Z 0) by (change (inject_Z 0) with 0; ring).
    rewrite <- Zlt_Qlt. lia. }
  assert (Htz : r = 0%Z -> t == 0).
  { intros E0. unfold t. rewrite E0. change (inject_Z 0) with 0. field. lra. }
  clearbody t.
  unfold new_location.
  destruct (Z.even nb) eqn:Ev;
    [unfold new_location_even | unfold new_location_odd];
    (destruct (Z.eqb_spec r 0) as [E0 | E0];
     [specialize (Htz E0); cbn [located]; lra | specialize (Htpos E0)]).
  - pose proof (H2 _ eq_refl) as Hc.
    destruct (2 * r ?= nb)%Z; cbn [located]; lra.
  - assert (Hodd : (2 * r <> nb)%Z).
    { intros E. rewrite <- E, Z.even_mul in Ev. discriminate. }
    pose proof (H2 _ eq_refl) as Hc.
    destruct (Z.compare_spec (2 * r + 1) nb) as [E | E | E];
      destruct (Z.compare_spec (2 * r) nb) as [E' | E' | E'];
      try lia; cbn [located]; lra.
Qed.

Lemma SFdiv_core_spec (m1 m2 : positive) (e1 e2 : Z) :
  exists (q e' : Z) (l : location) (y : Q),
    SFdiv_core_binary b32_prec b32_emax (Z.pos m1) e1 (Z.pos m2) e2 = (q, e', l)
    /\ (0 <= q)%Z
    /\ located y q l
    /\ y * bpow e' == (inject_Z (Z.pos m1) * bpow e1) / (inject_Z (Z.pos m2) * bpow e2)
    /\ (e' <= fexp32 (Zdigits2 q + e'))%Z.
Proof.
  unfold SFdiv_core_binary. rewrite fexp_fexp32.
  set (d1 := Zdigits2 (Z.pos m1)). set (d2 := Zdigits2 (Z.pos m2)).
  set (e' := Z.min (fexp32 (d1 + e1 - (d2 + e2))) (e1 - e2)).
  set (s := (e1 - e2 - e')%Z).
  assert (Hs : (0 <= s)%Z) by (unfold s, e'; lia).
  assert (Em : match s with
               | Z.pos _ => Z.shiftl (Z.pos m1) s
               | 0%Z => Z.pos m1
               | Z.neg _ => 0%Z
               end = (Z.pos m1 * 2 ^ s)%Z).
  { destruct s as [|p|p] eqn:Es; [cbn; lia| |lia].
    rewrite Z.shiftl_mul_pow2 by lia. reflexivity. }
  rewrite Em. clear Em.
  pose proof (Z_div_mod (Z.pos m1 * 2 ^ s) (Z.pos m2) ltac:(lia)) as Hdm.
  destruct (Z.div_eucl (Z.pos m1 * 2 ^ s) (Z.pos m2)) as [q r].
  destruct Hdm as [Eq Hr].
  pose proof (pow2_pos s Hs) as H2s.
  assert (Hq : (0 <= q)%Z) by nia.
  exists q, e', (new_location (Z.pos m2) r),
    (inject_Z q + inject_Z r / inject_Z (Z.pos m2)).
  assert (Hm2 : 0 < inject_Z (Z.pos m2)).
  { change 0 with (inject_Z 0). rewrite <- Zlt_Qlt. lia. }
  pose proof (bpow_pos e') as Hbe. pose proof (bpow_pos e2) as Hb2.
  split; [reflexivity|]. split; [exact Hq|].
  split; [apply new_location_spec; lia|]. split.
  - assert (E : inject_Z q + inject_Z r / inject_Z (Z.pos m2)
                == inject_Z (Z.pos m1 * 2 ^ s) / inject_Z (Z.pos m2)).
    { rewrite Eq, inject_Z_plus, inject_Z_mult. field. lra. }
    rewrite E, inject_Z_mult, bpow_Z by exact Hs.
    unfold s. rewrite !bpow_sub. field. repeat split; lra.
  - pose proof (digits2_bounds m1) as [Hlo1 _].
    pose proof (digits2_bounds m2) as [_ Hhi2].
    rewrite !digits2_pos_Zdigits2 in *. fold d1 in Hlo1. fold d2 in Hhi2.
    pose proof (Zdigits2_nonneg q) as Hdq.
    destruct (Z_le_gt_dec (d1 + e1 - (d2 + e2)) e') as [Hk | Hk].
    + unfold e', fexp32 in *. lia.
    + assert (Hd1 : (1 <= d1)%Z) by (unfold d1; cbn; lia).
      assert (Hd2 : (1 <= d2)%Z) by (unfold d2; cbn; lia).
      set (j := (d1 + e1 - (d2 + e2) - e' - 1)%Z).
      assert (Hj : (0 <= j)%Z) by (unfold j; lia).
      assert (Hpow : (2 ^ d2 * 2 ^ j = 2 ^ (d1 - 1) * 2 ^ s)%Z).
      { rewrite <- !Z.pow_add_r by lia. f_equal. unfold j, s. lia. }
      assert (Hqj : (2 ^ j <= q)%Z).
      { pose proof (pow2_pos j Hj) as Hpj.
        assert (Z.pos m2 * 2 ^ j < Z.pos m2 * (q + 1))%Z by nia.
        nia. }
      assert (Hdq' : (j + 1 <= Zdigits2 q)%Z).
      { apply Zdigits2_ge_iff; try lia.
        replace (j + 1 - 1)%Z with j by lia. exact Hqj. }
      unfold j in Hdq'. unfold e', fexp32 in *. lia.
Qed.

Lemma F2Q_div_xorb (sx sy : bool) (mx my : positive) (ex ey : Z) :
  F2Q sx (Z.pos mx) ex / F2Q sy (Z.pos my) ey
  == (if xorb sx sy then -1 else 1)
     * ((inject_Z (Z.pos mx) * bpow ex) / (inject_Z (Z.pos my) * bpow ey)).
Proof.
  pose proof (F2Q_pos my ey) as Hp. rewrite F2Q_false in Hp.
  assert (Hm : 0 < inject_Z (Z.pos my)).
  { change 0 with (inject_Z 0). rewrite <- Zlt_Qlt. lia. }
  pose proof (bpow_pos ey).
  unfold F2Q. destruct sx, sy; cbn [xorb]; field; split; lra.
Qed.

(** The quotient of a finite float by a finite float other than zero is
    the rounding of the exact quotient. *)
Lemma SFdiv_Rnd (x y : spec_float) :
  valid32 x = true -> valid32 y = true ->
  is_finite x = true -> is_finite y = true ->
  ~ SF2Q y == 0 ->
  Rnd (SF2Q x / SF2Q y) (SFdiv b32_prec b32_emax x y).
Proof.
  intros Vx Vy Fx Fy Hy0.
  destruct y as [sy|sy| |sy my ey]; try discriminate.
  { exfalso. apply Hy0. reflexivity. }
  destruct x as [sx|sx| |sx mx ex]; try discriminate.
  - apply Rnd_ext with (r := 0); [cbn [SF2Q]; field; exact Hy0|].
    apply Rnd_zero.
  - cbn [SFdiv SF2Q].
    destruct (SFdiv_core_spec mx my ex ey) as (q & e' & l & yq & -> & Hq & Hloc & Ev & He).
    destruct (kernel_round_pos (xorb sx sy) q e' l yq Hq Hloc He) as (N & Hr & ->).
    set (v := inject_Z (Z.pos mx) * bpow ex / (inject_Z (Z.pos my) * bpow ey)) in *.
    assert (Hv : 0 < v).
    { pose proof (F2Q_pos mx ex) as Hpx. rewrite F2Q_false in Hpx.
      pose proof (F2Q_pos my ey) as Hpy. rewrite F2Q_false in Hpy.
      unfold v. apply Qlt_shift_div_l; lra. }
    apply Rnd_ext with (r := (if xorb sx sy then -1 else 1) * v).
    { symmetry. apply F2Q_div_xorb. }
    exists (xorb sx sy), N, (fexp32 (Zdigits2 q + e')).
    split; [destruct (xorb sx sy); lra|]. split; [|reflexivity].
    apply round_pos_ext with (2 := Hr). rewrite Ev.
    destruct (xorb sx sy).
    + setoid_replace (-1 * v) with (- v) by ring.
      rewrite Qabs_opp. symmetry. apply Qabs_pos. lra.
    + setoid_replace (1 * v) with v by ring. symmetry. apply Qabs_pos. lra.
Qed.

End Rounding.

(** ** Single precision: the operations of the program round the exact result *)

Lemma finite32_iff (x : binary32) :
  finite32 x = true <-> valid32 x = true /\ is_finite x = true.
Proof. unfold finite32. apply andb_true_iff. Qed.

Lemma finite32_valid (x : binary32) : finite32 x = true -> valid32 x = true.
Proof. intros H. apply finite32_iff in H. apply H. Qed.

Lemma finite32_is_finite (x : binary32) : finite32 x = true -> is_finite x = true.
Proof. intros H. apply finite32_iff in H. apply H. Qed.

Lemma b32_add_Rnd (x y : binary32) :
  finite32 x = true -> finite32 y = true -> Rnd (SF2Q x + SF2Q y) (x + y)%F.
Proof.
  intros Hx Hy. apply finite32_iff in Hx as [Vx Fx]. apply finite32_iff in Hy as [Vy Fy].
  apply SFadd_Rnd; assumption.
Qed.

Lemma b32_sub_Rnd (x y : binary32) :
  finite32 x = true -> finite32 y = true -> Rnd (SF2Q x - SF2Q y) (x - y)%F.
Proof.
  intros Hx Hy. apply finite32_iff in Hx as [Vx Fx]. apply finite32_iff in Hy as [Vy Fy].
  apply SFsub_Rnd; assumption.
Qed.

Lemma b32_mul_Rnd (x y : binary32) :
  finite32 x = true -> finite32 y = true -> Rnd (SF2Q x * SF2Q y) (x * y)%F.
Proof.
  intros Hx Hy. apply finite32_iff in Hx as [Vx Fx]. apply finite32_iff in Hy as [Vy Fy].
  apply SFmul_Rnd; assumption.
Qed.

Lemma b32_div_Rnd (x y : binary32) :
  finite32 x = true -> finite32 y = true -> ~ SF2Q y == 0 ->
  Rnd (SF2Q x / SF2Q y) (x / y)%F.
Proof.
  intros Hx Hy. apply finite32_iff in Hx as [Vx Fx]. apply finite32_iff in Hy as [Vy Fy].
  apply SFdiv_Rnd; assumption.
Qed.

Lemma b32_le_iff (x y : binary32) :
  finite32 x = true -> finite32 y = true ->
  ((x <=? y)%F = true <-> SF2Q x <= SF2Q y).
Proof.
  intros Hx Hy. apply finite32_iff in Hx as [Vx Fx]. apply finite32_iff in Hy as [Vy Fy].
  apply SFleb_value; assumption.
Qed.

Lemma b32_lt_iff (x y : binary32) :
  finite32 x = true -> finite32 y = true ->
  ((x <? y)%F = true <-> SF2Q x < SF2Q y).
Proof.
  intros Hx Hy. apply finite32_iff in Hx as [Vx Fx]. apply finite32_iff in Hy as [Vy Fy].
  apply SFltb_value; assumption.
Qed.

(** A rounded result that is bounded by a float of the format is finite,
    and lies on the same side of every float as the exact result. *)
Lemma Rnd_finite32 (r : Q) (z B : binary32) :
  Rnd r z -> finite32 B = true -> Qabs r <= Qabs (SF2Q B) -> finite32 z = true.
Proof.
  intros Hr HB Hle. apply finite32_iff in HB as [VB FB].
  apply finite32_iff. split; [exact (Rnd_valid _ _ Hr)|].
  exact (Rnd_finite _ _ _ Hr VB FB Hle).
Qed.

Lemma Rnd_le (r : Q) (z B : binary32) :
  Rnd r z -> finite32 z = true -> finite32 B = true ->
  r <= SF2Q B -> SF2Q z <= SF2Q B.
Proof.
  intros Hr Hz HB Hle. apply b32_le_iff; try assumption.
  apply finite32_iff in HB as [VB FB].
  exact (Rnd_upper _ _ _ Hr VB FB Hle).
Qed.

Lemma Rnd_ge (r : Q) (z B : binary32) :
  Rnd r z -> finite32 z = true -> finite32 B = true ->
  SF2Q B <= r -> SF2Q B <= SF2Q z.
Proof.
  intros Hr Hz HB Hle. apply b32_le_iff; try assumption.
  apply finite32_iff in HB as [VB FB].
  exact (Rnd_lower _ _ _ Hr VB FB Hle).
Qed.

Lemma finite32_zero (s : bool) : finite32 (S754_zero s) = true.
Proof. reflexivity. Qed.

Lemma SF2Q_zero (s : bool) : SF2Q (S754_zero s) = 0.
Proof. reflexivity. Qed.

Lemma Rnd_nonneg (r : Q) (z : binary32) :
  Rnd r z -> finite32 z = true -> 0 <= r -> 0 <= SF2Q z.
Proof.
  intros Hr Hz Hle.
  exact (Rnd_ge r z (S754_zero false) Hr Hz eq_refl Hle).
Qed.

Lemma Rnd_nonpos (r : Q) (z : binary32) :
  Rnd r z -> finite32 z = true -> r <= 0 -> SF2Q z <= 0.
Proof.
  intros Hr Hz Hle.
  exact (Rnd_le r z (S754_zero false) Hr Hz eq_refl Hle).
Qed.

(** The value of a float of the format is at most that of the largest
    one, [2^128 - 2^104]. *)
Lemma finite32_bound (x : binary32) :
  finite32 x = true -> Qabs (SF2Q x) <= bpow 128 - bpow 104.
Proof.
  intros Hx. apply finite32_iff in Hx as [Vx Fx].
  destruct x as [s|s| |s m e]; [|discriminate|discriminate|]; cbn [SF2Q].
  - change (Qabs 0) with 0.
    pose proof (bpow_lt 104 128 ltac:(lia)). lra.
  - rewrite Qabs_F2Q. apply valid32_finite in Vx as [Hc He].
    pose proof (canonical_digits_le m e Hc) as [Hd _].
    pose proof (digits2_bounds m) as [_ Hm].
    assert (Hm' : (Z.pos m <= 2 ^ 24 - 1)%Z).
    { assert (2 ^ Z.pos (digits2_pos m) <= 2 ^ 24)%Z
        by (apply Z.pow_le_mono_r; lia). lia. }
    assert (Hq : inject_Z (Z.pos m) <= bpow 24 - 1).
    { rewrite <- (bpow_Z 24) by lia.
      apply Qle_trans with (inject_Z (2 ^ 24 - 1)).
      - rewrite <- Zle_Qle. exact Hm'.
      - unfold Z.sub. rewrite inject_Z_plus. change (inject_Z (- (1))) with (- (1)). lra. }
    pose proof (bpow_le e 104 He) as Hb. pose proof (bpow_pos e) as Hb0.
    assert (H1 : inject_Z (Z.pos m) * bpow e <= (bpow 24 - 1) * bpow e).
    { apply Qmult_le_compat_r; lra. }
    assert (H2 : (bpow 24 - 1) * bpow e <= (bpow 24 - 1) * bpow 104).
    { assert (0 <= bpow 24 - 1).
      { pose proof (bpow_le 0 24 ltac:(lia)). pose proof bpow_0. lra. }
      rewrite (Qmult_comm _ (bpow e)), (Qmult_comm _ (bpow 104)).
      apply Qmult_le_compat_r; lra. }
    assert (E : (bpow 24 - 1) * bpow 104 == bpow 128 - bpow 104).
    { change 128%Z with (24 + 104)%Z. rewrite bpow_add. ring. }
    lra.
Qed.

(** Numerals for the powers of two that bound the format. *)
Lemma bpow_128 : bpow 128 == 340282366920938463463374607431768211456.
Proof. rewrite bpow_unfold. reflexivity. Qed.

Lemma bpow_104 : bpow 104 == 20282409603651670423947251286016.
Proof. rewrite bpow_unfold. reflexivity. Qed.

Lemma bpow_103 : bpow 103 == 10141204801825835211973625643008.
Proof. rewrite bpow_unfold. reflexivity. Qed.

Lemma bpow_m150 : bpow (-150) == 1 # 1427247692705959881058285969449495136382746624.
Proof. rewrite bpow_unfold. reflexivity. Qed.

Lemma bpow_m149 : bpow (-149) == 1 # 713623846352979940529142984724747568191373312.
Proof. rewrite bpow_unfold. reflexivity. Qed.

(** A sum or difference of a float of magnitude at most one and a float
    of the format does not overflow. *)
Lemma Rnd_finite32_near (r : Q) (z x : binary32) :
  Rnd r z -> finite32 x = true -> Qabs r <= 1 + Qabs (SF2Q x) ->
  finite32 z = true.
Proof.
  intros Hr Hx Hle. apply finite32_iff. split; [exact (Rnd_valid _ _ Hr)|].
  apply (Rnd_finite_bound _ _ Hr).
  pose proof (finite32_bound x Hx) as Hb.
  pose proof bpow_104 as E104. pose proof bpow_103 as E103. lra.
Qed.

Lemma finite32_one : finite32 b32_one = true.
Proof. reflexivity. Qed.

Lemma SF2Q_one : SF2Q b32_one == 1.
Proof. vm_compute. reflexivity. Qed.

Lemma finite32_0_7 : finite32 b32_0_7 = true.
Proof. reflexivity. Qed.

Lemma SF2Q_0_7 : SF2Q b32_0_7 == 11744051 # 16777216.
Proof. vm_compute. reflexivity. Qed.

Lemma finite32_0_3 : finite32 b32_0_3 = true.
Proof. reflexivity. Qed.

Lemma SF2Q_0_3 : SF2Q b32_0_3 == 5033165 # 16777216.
Proof. vm_compute. reflexivity. Qed.

(** [1. - 0.7f] is exact: it is the float [0.3f]. *)
Lemma one_minus_0_7 : (1 * (1 - f0_7))%F = b32_0_3.
Proof. vm_compute. reflexivity. Qed.

Lemma mix_0_7 (y : binary32) : mix 1%F y f0_7 = (b32_0_3 + y * b32_0_7)%F.
Proof. unfold mix. rewrite one_minus_0_7. reflexivity. Qed.

(** The floats that compare with a finite float are finite. *)
Lemma le_one_finite (x : binary32) :
  valid32 x = true -> (fabs x <=? 1)%F = true -> finite32 x = true.
Proof.
  intros Vx Hle. apply finite32_iff. split; [exact Vx|].
  destruct x as [s|s| |s m e]; try reflexivity; discriminate.
Qed.

Lemma between_finite (x lo hi : binary32) :
  valid32 x = true -> is_finite lo = true -> is_finite hi = true ->
  (lo <=? x)%F = true -> (x <=? hi)%F = true -> finite32 x = true.
Proof.
  intros Vx Flo Fhi Hlo Hhi. apply finite32_iff. split; [exact Vx|].
  destruct x as [s|[|]| |s m e]; try reflexivity.
  - destruct lo; discriminate.
  - destruct hi; discriminate.
  - destruct lo; discriminate.
Qed.

Lemma finite32_abs (x : binary32) : finite32 (fabs x) = finite32 x.
Proof. destruct x; reflexivity. Qed.

Lemma finite32_neg (x : binary32) : finite32 (- x)%F = finite32 x.
Proof. destruct x; reflexivity. Qed.

Lemma SF2Q_fabs (x : binary32) : SF2Q (fabs x) == Qabs (SF2Q x).
Proof. apply SF2Q_abs. Qed.

Lemma SF2Q_fneg (x : binary32) : SF2Q (- x)%F == - SF2Q x.
Proof. apply SF2Q_opp. Qed.

(** ** Single precision: the parameters that [createSkShader] derives *)

(** [1 + abs(overscroll)] is a finite float and at least [1]. *)
Lemma one_plus_abs (v : binary32) :
  finite32 v = true ->
  finite32 (1 + fabs v)%F = true /\ 1 <= SF2Q (1 + fabs v)%F.
Proof.
  intros Hv.
  assert (Ha : finite32 (fabs v) = true) by (rewrite finite32_abs; exact Hv).
  pose proof (b32_add_Rnd _ _ finite32_one Ha) as Hr.
  pose proof SF2Q_one as E1. pose proof (SF2Q_fabs v) as Eabs.
  pose proof (Qabs_nonneg (SF2Q v)) as Hn.
  assert (Hf : finite32 (1 + fabs v)%F = true).
  { apply (Rnd_finite32_near _ _ (fabs v) Hr Ha).
    rewrite Qabs_pos by (change (@fone binary32 _) with b32_one; lra).
    change (@fone binary32 _) with b32_one.
    rewrite (Qabs_pos (SF2Q (fabs v))) by lra. lra. }
  split; [exact Hf|].
  rewrite <- E1 at 1.
  apply (Rnd_ge _ _ b32_one Hr Hf finite32_one).
  change (@fone binary32 _) with b32_one. lra.
Qed.

(** [distanceStretched] lies between [0] and the affected distance, and
    [distanceDiff] between its opposite and [0]. *)
Lemma derived_distanceStretched (CDS v : binary32) :
  finite32 CDS = true -> 0 <= SF2Q CDS -> finite32 v = true ->
  let ds := (CDS / (1 + fabs v))%F in
  finite32 ds = true /\ 0 <= SF2Q ds <= SF2Q CDS.
Proof.
  intros HC HC0 Hv ds.
  destruct (one_plus_abs v Hv) as [HD HD1].
  set (D := (1 + fabs v)%F) in *.
  assert (HDn : ~ SF2Q D == 0) by lra.
  pose proof (b32_div_Rnd CDS D HC HD HDn) as Hr. fold ds in Hr.
  assert (Hq : 0 <= SF2Q CDS / SF2Q D <= SF2Q CDS).
  { split.
    - apply Qle_shift_div_l; lra.
    - apply Qle_shift_div_r; [lra|]. nra. }
  assert (Hf : finite32 ds = true).
  { apply (Rnd_finite32 _ _ CDS Hr HC).
    rewrite !Qabs_pos by lra. lra. }
  split; [exact Hf|]. split.
  - apply (Rnd_nonneg _ _ Hr Hf). lra.
  - apply (Rnd_le _ _ CDS Hr Hf HC). lra.
Qed.

Lemma derived_distanceDiff (CDS ds : binary32) :
  finite32 CDS = true -> finite32 ds = true -> 0 <= SF2Q ds <= SF2Q CDS ->
  let dd := (ds - CDS)%F in
  finite32 dd = true /\ - SF2Q CDS <= SF2Q dd <= 0.
Proof.
  intros HC Hds Hr0 dd.
  pose proof (b32_sub_Rnd ds CDS Hds HC) as Hr. fold dd in Hr.
  assert (Hf : finite32 dd = true).
  { apply (Rnd_finite32 _ _ CDS Hr HC).
    rewrite (Qabs_neg (SF2Q ds - SF2Q CDS)), (Qabs_pos (SF2Q CDS)) by lra. lra. }
  assert (Hn : finite32 (- CDS)%F = true) by (rewrite finite32_neg; exact HC).
  pose proof (SF2Q_fneg CDS) as En.
  split; [exact Hf|]. split.
  - rewrite <- En. apply (Rnd_ge _ _ (- CDS)%F Hr Hf Hn). lra.
  - apply (Rnd_nonpos _ _ Hr Hf). lra.
Qed.

(** The reciprocal [1 / CONTENT_DISTANCE_STRETCHED], when it does not
    overflow, is within one unit of rounding of the exact one. *)
Lemma derived_inverse (CDS : binary32) :
  finite32 CDS = true -> 0 < SF2Q CDS -> is_finite (1 / CDS)%F = true ->
  let ia := (1 / CDS)%F in
  finite32 ia = true /\ 0 <= SF2Q ia /\ SF2Q CDS * SF2Q ia <= 2.
Proof.
  intros HC HC0 Hfin ia.
  assert (HCn : ~ SF2Q CDS == 0) by lra.
  pose proof (b32_div_Rnd _ CDS finite32_one HC HCn) as Hr. fold ia in Hr.
  change (@fone binary32 _) with b32_one in Hr.
  assert (Hf : finite32 ia = true).
  { apply finite32_iff. split; [exact (Rnd_valid _ _ Hr)|exact Hfin]. }
  pose proof SF2Q_one as E1.
  set (A := SF2Q CDS) in *. set (R := SF2Q b32_one / A) in *.
  assert (ER : A * R == 1) by (unfold R; rewrite E1; field; exact HCn).
  assert (HR : 0 < R) by (unfold R; apply Qlt_shift_div_l; lra).
  pose proof (Rnd_error_model _ _ Hr (finite32_is_finite _ Hf)) as Herr.
  rewrite (Qabs_pos R) in Herr by lra.
  apply Qabs_Qle_condition in Herr as [Hlo Hhi].
  pose proof (finite32_bound CDS HC) as HB. fold A in HB.
  rewrite (Qabs_pos A) in HB by lra.
  pose proof bpow_128 as E128. pose proof bpow_104 as E104.
  pose proof bpow_m150 as E150. pose proof (bpow_pos 104).
  split; [exact Hf|]. split.
  - apply (Rnd_nonneg _ _ Hr Hf). lra.
  - unfold ia. change (@fone binary32 _) with b32_one.
    set (I := SF2Q (b32_one / CDS)%F) in *. clearbody I R A.
    assert (A * (I - R) <= A * (R * (1 # 16777216) + bpow (-150))).
    { rewrite !(Qmult_comm A). apply Qmult_le_compat_r; lra. }
    nra.
Qed.

(** ** Single precision: the divisor of the easing *)

(** The core of both easing functions: with an offset [off >= 0], an
    inverse distance [ia >= 0] whose product with the offset does not
    overflow, an overscroll magnitude [w] in [0, 1] and the
    interpolation strength [0.7f], every intermediate result is finite,
    the divisor [1. + stretchIntensity] is at least [1], and the
    quotient lies between [0] and the offset. *)
Lemma easing_core (off ia w : binary32) :
  finite32 off = true -> 0 <= SF2Q off ->
  finite32 ia = true -> 0 <= SF2Q ia ->
  SF2Q off * SF2Q ia <= 8 ->
  finite32 w = true -> 0 <= SF2Q w <= 1 ->
  let D := (1 + w * mix 1 (easeIn off ia) f0_7)%F in
  finite32 D = true /\ 1 <= SF2Q D
  /\ finite32 (off / D)%F = true /\ 0 <= SF2Q (off / D)%F <= SF2Q off.
Proof.
  intros Hoff Hoff0 Hia Hia0 Hprod Hw [Hw0 Hw1] D.
  pose proof SF2Q_one as E1. pose proof SF2Q_0_7 as E7.
  pose proof SF2Q_0_3 as E3.
  pose proof bpow_128 as E128. pose proof bpow_104 as E104.
  pose proof bpow_103 as E103.
  (* easeIn *)
  pose proof (b32_mul_Rnd off ia Hoff Hia) as Re.
  set (e := (off * ia)%F) in *.
  assert (He0 : 0 <= SF2Q off * SF2Q ia) by (apply Qmult_le_0_compat; assumption).
  assert (Hef : finite32 e = true).
  { apply finite32_iff. split; [exact (Rnd_valid _ _ Re)|].
    apply (Rnd_finite_bound _ _ Re). rewrite Qabs_pos by exact He0. lra. }
  pose proof (Rnd_nonneg _ _ Re Hef He0) as He.
  (* mix *)
  pose proof (b32_mul_Rnd e b32_0_7 Hef finite32_0_7) as Rs.
  set (es := (e * b32_0_7)%F) in *.
  assert (Hes0 : 0 <= SF2Q e * SF2Q b32_0_7 <= SF2Q e) by (split; nra).
  assert (Hesf : finite32 es = true).
  { apply (Rnd_finite32 _ _ e Rs Hef). rewrite !Qabs_pos by lra. lra. }
  pose proof (Rnd_nonneg _ _ Rs Hesf ltac:(lra)) as Hes.
  pose proof (b32_add_Rnd b32_0_3 es finite32_0_3 Hesf) as Rp.
  set (pbv := (b32_0_3 + es)%F) in *.
  assert (Hpf : finite32 pbv = true).
  { apply (Rnd_finite32_near _ _ es Rp Hesf).
    rewrite !Qabs_pos by lra. lra. }
  pose proof (Rnd_nonneg _ _ Rp Hpf ltac:(lra)) as Hp.
  (* stretchIntensity *)
  pose proof (b32_mul_Rnd w pbv Hw Hpf) as Ri.
  set (si := (w * pbv)%F) in *.
  assert (Hsi0 : 0 <= SF2Q w * SF2Q pbv <= SF2Q pbv) by (split; nra).
  assert (Hsif : finite32 si = true).
  { apply (Rnd_finite32 _ _ pbv Ri Hpf). rewrite !Qabs_pos by lra. lra. }
  pose proof (Rnd_nonneg _ _ Ri Hsif ltac:(lra)) as Hsi.
  (* the divisor *)
  pose proof (b32_add_Rnd b32_one si finite32_one Hsif) as Rd.
  assert (ED : D = (b32_one + si)%F).
  { unfold D, easeIn. rewrite mix_0_7. reflexivity. }
  rewrite ED. clear ED D.
  set (D := (b32_one + si)%F) in *.
  assert (HDf : finite32 D = true).
  { apply (Rnd_finite32_near _ _ si Rd Hsif).
    rewrite !Qabs_pos by lra. lra. }
  assert (HD1 : 1 <= SF2Q D).
  { rewrite <- E1 at 1. apply (Rnd_ge _ _ b32_one Rd HDf finite32_one). lra. }
  split; [exact HDf|]. split; [exact HD1|].
  (* the quotient *)
  assert (HDn : ~ SF2Q D == 0) by lra.
  pose proof (b32_div_Rnd off D Hoff HDf HDn) as Rq.
  assert (Hq : 0 <= SF2Q off / SF2Q D <= SF2Q off).
  { split.
    - apply Qle_shift_div_l; lra.
    - apply Qle_shift_div_r; [lra|]. nra. }
  assert (Hqf : finite32 (off / D)%F = true).
  { apply (Rnd_finite32 _ _ off Rq Hoff). rewrite !Qabs_pos by lra. lra. }
  split; [exact Hqf|]. split.
  - apply (Rnd_nonneg _ _ Rq Hqf). lra.
  - apply (Rnd_le _ _ off Rq Hqf Hoff). lra.
Qed.

(** The offset of the start easing, for a position between [0] and the
    affected distance. *)
Lemma start_offset (CDS ia inPos : binary32) :
  finite32 CDS = true -> finite32 ia = true -> 0 <= SF2Q ia ->
  SF2Q CDS * SF2Q ia <= 2 ->
  finite32 inPos = true -> 0 <= SF2Q inPos <= SF2Q CDS ->
  let off := (CDS - inPos)%F in
  finite32 off = true /\ 0 <= SF2Q off <= SF2Q CDS
  /\ SF2Q off * SF2Q ia <= 8.
Proof.
  intros HC Hia Hia0 Hprod Hp [Hp0 Hp1] off.
  pose proof (b32_sub_Rnd CDS inPos HC Hp) as Hr. fold off in Hr.
  assert (Hf : finite32 off = true).
  { apply (Rnd_finite32 _ _ CDS Hr HC). rewrite !Qabs_pos by lra. lra. }
  pose proof (Rnd_nonneg _ _ Hr Hf ltac:(lra)) as H0.
  pose proof (Rnd_le _ _ CDS Hr Hf HC ltac:(lra)) as H1.
  split; [exact Hf|]. split; [split; assumption|].
  assert (SF2Q off * SF2Q ia <= SF2Q CDS * SF2Q ia)
    by (apply Qmult_le_compat_r; assumption).
  lra.
Qed.

(** The offset of the end easing, for a position between
    [1. - affectedDist] and [1]: the float [1. - affectedDist] is a
    nearest one to the exact difference and [1] is a float, so the
    offset is at most about twice the affected distance. *)
Lemma end_offset (CDS ia inPos : binary32) :
  finite32 CDS = true -> 0 < SF2Q CDS ->
  finite32 ia = true -> 0 <= SF2Q ia -> SF2Q CDS * SF2Q ia <= 2 ->
  finite32 inPos = true -> SF2Q inPos <= 1 ->
  SF2Q (1 - CDS)%F <= SF2Q inPos ->
  let off := (inPos - (1 - CDS))%F in
  finite32 (1 - CDS)%F = true
  /\ finite32 off = true /\ 0 <= SF2Q off
  /\ SF2Q off * SF2Q ia <= 8.
Proof.
  intros HC HC0 Hia Hia0 Hprod Hp Hp1 Hge off.
  pose proof SF2Q_one as E1.
  pose proof bpow_128 as E128. pose proof bpow_104 as E104.
  pose proof bpow_m150 as E150.
  change (@fone binary32 _) with b32_one in *.
  pose proof (b32_sub_Rnd b32_one CDS finite32_one HC) as Rr.
  set (rsd := (b32_one - CDS)%F) in *.
  assert (Hrf : finite32 rsd = true).
  { apply (Rnd_finite32_near _ _ CDS Rr HC).
    rewrite (Qabs_pos (SF2Q CDS)) by lra.
    apply Qabs_Qle_condition. lra. }
  pose proof (Rnd_nearest _ _ b32_one Rr (finite32_is_finite _ Hrf)
                (finite32_valid _ finite32_one) (finite32_is_finite _ finite32_one))
    as Hn.
  assert (En : SF2Q b32_one - (SF2Q b32_one - SF2Q CDS) == SF2Q CDS) by ring.
  rewrite En, (Qabs_pos (SF2Q CDS)) in Hn by lra. clear En.
  apply Qabs_Qle_condition in Hn as [Hnlo Hnhi].
  pose proof (b32_sub_Rnd inPos rsd Hp Hrf) as Ro. fold off in Ro.
  pose proof (finite32_bound rsd Hrf) as Hrb.
  assert (Hof : finite32 off = true).
  { apply (Rnd_finite32_near _ _ rsd Ro Hrf).
    rewrite (Qabs_pos (SF2Q inPos - SF2Q rsd)) by lra.
    apply Qabs_Qle_condition in Hrb.
    destruct (Qlt_le_dec (SF2Q rsd) 0) as [Hneg | Hpos].
    - rewrite (Qabs_neg (SF2Q rsd)) by lra. lra.
    - rewrite (Qabs_pos (SF2Q rsd)) by lra. lra. }
  pose proof (Rnd_nonneg _ _ Ro Hof ltac:(lra)) as Ho0.
  pose proof (Rnd_error_model _ _ Ro (finite32_is_finite _ Hof)) as Herr.
  rewrite (Qabs_pos (SF2Q inPos - SF2Q rsd)) in Herr by lra.
  apply Qabs_Qle_condition in Herr as [_ Hhi].
  pose proof (finite32_bound CDS HC) as HCb.
  rewrite (Qabs_pos (SF2Q CDS)) in HCb by lra.
  pose proof (finite32_bound ia Hia) as Hib.
  rewrite (Qabs_pos (SF2Q ia)) in Hib by lra.
  pose proof (bpow_pos 104).
  split; [exact Hrf|]. split; [exact Hof|]. split; [exact Ho0|].
  set (O := SF2Q off) in *. set (I := SF2Q ia) in *. set (A := SF2Q CDS) in *.
  set (p := SF2Q inPos) in *. set (r := SF2Q rsd) in *.
  clearbody O I A p r.
  assert (HU : O <= 2 * A * (1 + (1 # 16777216)) + bpow (-150)) by lra.
  assert (O * I <= (2 * A * (1 + (1 # 16777216)) + bpow (-150)) * I)
    by (apply Qmult_le_compat_r; assumption).
  nra.
Qed.

(** The tests that select the two easing branches, for every float
    instance. *)
Lemma region_StartEasing {F : Type} {ops : FloatOps F} (p v a ds : F) :
  region p v a ds = StartEasing ->
  (v >? 0)%F = true /\ (p <=? a)%F = true.
Proof.
  unfold region. destruct (v >? 0)%F.
  - destruct (p <=? a)%F; [intros _; split; reflexivity|].
    destruct (p >=? ds)%F; discriminate.
  - destruct (v <? 0)%F; [|discriminate]. cbv zeta.
    destruct (p >=? 1 - a)%F; [discriminate|].
    destruct (p <? 1 - a)%F; discriminate.
Qed.

Lemma region_EndEasing {F : Type} {ops : FloatOps F} (p v a ds : F) :
  region p v a ds = EndEasing ->
  (v <? 0)%F = true /\ (p >=? 1 - a)%F = true.
Proof.
  unfold region. destruct (v >? 0)%F.
  - destruct (p <=? a)%F; [discriminate|].
    destruct (p >=? ds)%F; discriminate.
  - destruct (v <? 0)%F; [|discriminate]. cbv zeta.
    destruct (p >=? 1 - a)%F; [intros _; split; reflexivity|].
    destruct (p <? 1 - a)%F; discriminate.
Qed.

(** The parameters that [createSkShader] derives for either axis, in
    terms of the overscroll of that axis, for every float instance. *)
Lemma createSkShader_axis {F : Type} {ops : FloatOps F} {C : Type} (CDS : F)
    (inputShader : vec2 F -> C) (e : StretchEffect F) (sh : RuntimeShader F C)
    (q : AxisParams F) :
  createSkShader CDS inputShader e = Some sh ->
  q = axisX (uniforms sh) \/ q = axisY (uniforms sh) ->
  affectedDist q = CDS
  /\ invAffectedDist q = (1 / CDS)%F
  /\ distanceStretched q = (CDS / (1 + fabs (overscroll q)))%F
  /\ distanceDiff q = (distanceStretched q - CDS)%F
  /\ interpolationStrength q = f0_7.
Proof.
  unfold createSkShader. destruct (negb (hasEffect e)); [discriminate|].
  intros Hsh. injection Hsh as <-.
  intros [-> | ->]; cbn; repeat split.
Qed.

(** The start easing on derived parameters: the divisor is finite and at
    least [1], and so is the result finite. *)
Lemma start_easing_finite (CDS v inPos : binary32) :
  finite32 CDS = true -> 0 < SF2Q CDS -> is_finite (1 / CDS)%F = true ->
  finite32 v = true -> 0 <= SF2Q v <= 1 ->
  finite32 inPos = true -> 0 <= SF2Q inPos <= SF2Q CDS ->
  let D := startDenominator inPos v CDS (1 / CDS)%F f0_7 in
  let ds := (CDS / (1 + fabs v))%F in
  let res := computeOverscrollStart inPos v CDS (1 / CDS)%F ds f0_7 in
  finite32 D = true /\ 1 <= SF2Q D
  /\ finite32 res = true
  /\ SF2Q (ds - CDS)%F <= SF2Q res <= SF2Q ds.
Proof.
  intros HC HC0 Hfin Hv Hv01 Hp Hp01 D ds res.
  destruct (derived_inverse CDS HC HC0 Hfin) as (Hia & Hia0 & Hprod).
  destruct (derived_distanceStretched CDS v HC ltac:(lra) Hv) as (Hds & Hds0 & Hds1).
  fold ds in Hds, Hds0, Hds1.
  destruct (derived_distanceDiff CDS ds HC Hds (conj Hds0 Hds1)) as (Hdd & _ & _).
  destruct (start_offset CDS _ inPos HC Hia Hia0 Hprod Hp Hp01)
    as (Hoff & [Hoff0 Hoff1] & Hop).
  destruct (easing_core _ _ v Hoff Hoff0 Hia Hia0 Hop Hv Hv01)
    as (HDf & HD1 & Hqf & Hq0 & Hq1).
  split; [exact HDf|]. split; [exact HD1|].
  unfold res. rewrite computeOverscrollStart_denominator.
  set (quo := ((CDS - inPos) / startDenominator inPos v CDS (1 / CDS) f0_7)%F).
  change (finite32 quo = true) in Hqf.
  change (0 <= SF2Q quo) in Hq0.
  change (SF2Q quo <= SF2Q (CDS - inPos)%F) in Hq1.
  pose proof (b32_sub_Rnd _ quo Hds Hqf) as Hr.
  assert (Hrf : finite32 (ds - quo)%F = true).
  { apply (Rnd_finite32 _ _ CDS Hr HC).
    rewrite (Qabs_pos (SF2Q CDS)) by lra.
    apply Qabs_Qle_condition. lra. }
  split; [exact Hrf|]. split.
  - apply (proj1 (b32_le_iff _ _ Hdd Hrf)).
    apply (Rnd_mono _ _ _ _ (b32_sub_Rnd ds CDS Hds HC) Hr). lra.
  - apply (Rnd_le _ _ ds Hr Hrf Hds). lra.
Qed.

(** The end easing on derived parameters. *)
Lemma end_easing_finite (CDS v inPos : binary32) :
  finite32 CDS = true -> 0 < SF2Q CDS -> is_finite (1 / CDS)%F = true ->
  finite32 v = true -> -1 <= SF2Q v <= 0 ->
  finite32 inPos = true -> SF2Q inPos <= 1 ->
  SF2Q (1 - CDS)%F <= SF2Q inPos ->
  let D := endDenominator inPos v (1 - CDS)%F (1 / CDS)%F f0_7 in
  finite32 D = true /\ 1 <= SF2Q D
  /\ finite32 (computeOverscrollEnd inPos v (1 - CDS) CDS (1 / CDS)
                 (CDS / (1 + fabs v)) f0_7)%F = true.
Proof.
  intros HC HC0 Hfin Hv Hv01 Hp Hp1 Hge D.
  destruct (derived_inverse CDS HC HC0 Hfin) as (Hia & Hia0 & Hprod).
  destruct (derived_distanceStretched CDS v HC ltac:(lra) Hv) as (Hds & Hds0 & Hds1).
  destruct (end_offset CDS _ inPos HC HC0 Hia Hia0 Hprod Hp Hp1 Hge)
    as (Hrf & Hoff & Hoff0 & Hop).
  assert (Hw : finite32 (- v)%F = true) by (rewrite finite32_neg; exact Hv).
  pose proof (SF2Q_fneg v) as Ew.
  destruct (easing_core _ _ (- v)%F Hoff Hoff0 Hia Hia0 Hop Hw ltac:(lra))
    as (HDf & HD1 & Hqf & Hq0 & Hq1).
  split; [exact HDf|]. split; [exact HD1|].
  rewrite computeOverscrollEnd_denominator.
  set (quo := ((inPos - (1 - CDS)) / endDenominator inPos v (1 - CDS) (1 / CDS) f0_7)%F).
  change (finite32 quo = true) in Hqf.
  change (0 <= SF2Q quo) in Hq0.
  change (SF2Q quo <= SF2Q (inPos - (1 - CDS))%F) in Hq1.
  pose proof (b32_sub_Rnd _ quo Hds Hqf) as Hr.
  set (X := (CDS / (1 + fabs v) - quo)%F) in *.
  pose proof (finite32_bound _ HC) as HCb.
  rewrite (Qabs_pos (SF2Q CDS)) in HCb by lra.
  pose proof (finite32_bound _ Hoff) as Hob.
  rewrite (Qabs_pos (SF2Q (inPos - (1 - CDS))%F)) in Hob by lra.
  pose proof bpow_104 as E104. pose proof bpow_103 as E103.
  assert (HX : finite32 X = true).
  { apply finite32_iff. split; [exact (Rnd_valid _ _ Hr)|].
    apply (Rnd_finite_bound _ _ Hr). apply Qabs_case; intros; lra. }
  pose proof (b32_sub_Rnd _ X finite32_one HX) as Hr1.
  apply (Rnd_finite32_near _ _ X Hr1 HX).
  pose proof SF2Q_one as E1. change (@fone binary32 _) with b32_one.
  apply Qabs_case; intros; apply Qabs_case; intros; lra.
Qed.

Lemma one_minus_finite (x : binary32) :
  finite32 x = true -> finite32 (1 - x)%F = true.
Proof.
  intros Hx. pose proof (b32_sub_Rnd _ x finite32_one Hx) as Hr.
  apply (Rnd_finite32_near _ _ x Hr Hx).
  pose proof SF2Q_one as E1. change (@fone binary32 _) with b32_one.
  apply Qabs_case; intros; apply Qabs_case; intros; lra.
Qed.

(** What the tests on the inputs say of their values: an overscroll
    with [abs(v) <= 1] and a position with [0 <= inPos <= 1] are finite
    floats with values in those ranges. *)
Lemma unit_range_values (CDS v inPos : binary32) :
  finite32 CDS = true -> (0 <? CDS)%F = true ->
  valid32 v = true -> (fabs v <=? 1)%F = true ->
  valid32 inPos = true -> (0 <=? inPos)%F = true -> (inPos <=? 1)%F = true ->
  0 < SF2Q CDS
  /\ finite32 v = true /\ -1 <= SF2Q v <= 1
  /\ finite32 inPos = true /\ 0 <= SF2Q inPos <= 1.
Proof.
  intros HC HCpos Vv Hv1 Vp Hp0 Hp1.
  assert (Hv : finite32 v = true) by (apply le_one_finite; assumption).
  assert (Hp : finite32 inPos = true).
  { apply (between_finite inPos (S754_zero false) b32_one); try assumption;
      reflexivity. }
  pose proof SF2Q_one as E1.
  split.
  { apply (proj1 (b32_lt_iff (S754_zero false) CDS (finite32_zero false) HC)) in HCpos.
    exact HCpos. }
  split; [exact Hv|]. split.
  { assert (Hva : Qabs (SF2Q v) <= 1).
    { rewrite <- SF2Q_fabs, <- E1.
      apply (proj1 (b32_le_iff (fabs v) b32_one
                      ltac:(rewrite finite32_abs; exact Hv) finite32_one)).
      exact Hv1. }
    apply Qabs_Qle_condition in Hva. exact Hva. }
  split; [exact Hp|]. split.
  - apply (proj1 (b32_le_iff (S754_zero false) inPos (finite32_zero false) Hp)) in Hp0.
    exact Hp0.
  - rewrite <- E1. apply (proj1 (b32_le_iff inPos b32_one Hp finite32_one)). exact Hp1.
Qed.

(** C9 (as the code has it).  On the parameters that [createSkShader]
    derives for an axis from a constant [CONTENT_DISTANCE_STRETCHED] that
    is a positive float whose reciprocal does not overflow, for an
    overscroll and a position that are floats of the format with
    [|overscroll| <= 1] and [inPos] in [[0, 1]], in single precision:
    whenever [computeOverscroll] takes an easing branch, the divisor
    [1. + stretchIntensity] of that branch is a finite float and at least
    [1], and the result of [computeOverscroll] is finite. *)
Theorem easing_denominator_at_least_one {C : Type} (CDS : binary32)
    (inputShader : vec2 binary32 -> C) (e : StretchEffect binary32)
    (sh : RuntimeShader binary32 C) (q : AxisParams binary32)
    (inPos : binary32) :
  finite32 CDS = true -> (0 <? CDS)%F = true ->
  is_finite (1 / CDS)%F = true ->
  createSkShader CDS inputShader e = Some sh ->
  q = axisX (uniforms sh) \/ q = axisY (uniforms sh) ->
  valid32 (overscroll q) = true -> (fabs (overscroll q) <=? 1)%F = true ->
  valid32 inPos = true -> (0 <=? inPos)%F = true -> (inPos <=? 1)%F = true ->
  let r := region inPos (overscroll q) (affectedDist q) (distanceStretched q) in
  let startD :=
    startDenominator inPos (overscroll q) (affectedDist q) (invAffectedDist q)
      (interpolationStrength q) in
  let endD :=
    endDenominator inPos (overscroll q) (1 - affectedDist q)%F
      (invAffectedDist q) (interpolationStrength q) in
  (r = StartEasing ->
     (1 <=? startD)%F = true /\ is_finite startD = true
     /\ is_finite (remap q inPos) = true)
  /\ (r = EndEasing ->
        (1 <=? endD)%F = true /\ is_finite endD = true
        /\ is_finite (remap q inPos) = true).
Proof.
  intros HC HCpos Hfin Hsh Hq Vv Hv1 Vp Hp0 Hp1 r startD endD.
  destruct (createSkShader_axis CDS inputShader e sh q Hsh Hq)
    as (Ha & Hia & Hds & Hdd & Hs).
  unfold remap. rewrite computeOverscroll_region.
  subst r startD endD. rewrite Ha, Hia, Hds, Hs. clear Ha Hia Hds Hs Hdd.
  set (v := overscroll q) in *.
  destruct (unit_range_values CDS v inPos HC HCpos Vv Hv1 Vp Hp0 Hp1)
    as (HA & Hv & [Hvlo Hvhi] & Hp & [Hq0 Hq1]).
  pose proof SF2Q_one as E1.
  split; intros Hr; rewrite Hr.
  - destruct (region_StartEasing _ _ _ _ Hr) as [Hpos Hle].
    unfold fgt in Hpos.
    apply (proj1 (b32_lt_iff (S754_zero false) v (finite32_zero false) Hv)) in Hpos.
    apply (proj1 (b32_le_iff inPos CDS Hp HC)) in Hle.
    cbn [SF2Q] in Hpos.
    destruct (start_easing_finite CDS v inPos HC HA Hfin Hv ltac:(lra) Hp
                ltac:(lra)) as (HDf & HD1 & Hres & _).
    split; [|split].
    + apply (proj2 (b32_le_iff b32_one _ finite32_one HDf)).
      apply Qle_trans with (2 := HD1). rewrite <- E1. apply Qle_refl.
    + exact (finite32_is_finite _ HDf).
    + exact (finite32_is_finite _ Hres).
  - destruct (region_EndEasing _ _ _ _ Hr) as [Hneg Hge].
    unfold fge in Hge.
    apply (proj1 (b32_lt_iff v (S754_zero false) Hv (finite32_zero false))) in Hneg.
    apply (proj1 (b32_le_iff _ inPos (one_minus_finite CDS HC) Hp)) in Hge.
    cbn [SF2Q] in Hneg.
    destruct (end_easing_finite CDS v inPos HC HA Hfin Hv ltac:(lra) Hp Hq1 Hge)
      as (HDf & HD1 & Hres).
    split; [|split].
    + apply (proj2 (b32_le_iff b32_one _ finite32_one HDf)).
      apply Qle_trans with (2 := HD1). rewrite <- E1. apply Qle_refl.
    + exact (finite32_is_finite _ HDf).
    + exact (finite32_is_finite _ Hres).
Qed.

(** ** Single precision: the boundary of the start edge *)

Lemma b32_sub_diag (x : binary32) :
  is_finite x = true -> (x - x)%F = S754_zero false.
Proof.
  destruct x as [[|]|s| |s m e]; try discriminate; intros _; try reflexivity.
  cbn [fsub binary32_float SFsub]. rewrite Z.sub_diag. reflexivity.
Qed.

Lemma b32_sub_zero (x : binary32) : (x - S754_zero false)%F = x.
Proof. destruct x as [[|]|s| |s m e]; reflexivity. Qed.

Lemma b32_zero_mul (s : bool) (y : binary32) :
  is_finite y = true -> exists s', @fmul binary32 _ (S754_zero s) y = S754_zero s'.
Proof.
  destruct y as [sy|sy| |sy my ey]; try discriminate; intros _;
    eexists; reflexivity.
Qed.

Lemma b32_add_zero_r (s : bool) :
  (b32_0_3 + S754_zero s)%F = b32_0_3.
Proof. reflexivity. Qed.

Lemma b32_le_refl (x : binary32) : is_finite x = true -> (x <=? x)%F = true.
Proof.
  destruct x as [s|s| |s m e]; try discriminate; intros _; try reflexivity.
  cbn [fle binary32_float]. unfold SFleb, SFcompare.
  rewrite Z.compare_refl, Pos.compare_cont_refl. destruct s; reflexivity.
Qed.

(** A float that is greater than zero is a positive finite float or the
    positive infinity; one that is at least [1] as well. *)
Lemma b32_pos_form (x : binary32) :
  (0 <? x)%F = true ->
  x = S754_infinity false \/ exists m e, x = S754_finite false m e.
Proof.
  destruct x as [s|[|]| |[|] m e]; try discriminate; intros _.
  - left. reflexivity.
  - right. exists m, e. reflexivity.
Qed.

Lemma b32_ge_one_form (x : binary32) :
  (1 <=? x)%F = true ->
  x = S754_infinity false \/ exists m e, x = S754_finite false m e.
Proof.
  destruct x as [s|[|]| |[|] m e]; try discriminate; intros _.
  - left. reflexivity.
  - right. exists m, e. reflexivity.
Qed.

(** For an overscroll [v > 0], the divisor of the easing at a zero
    offset, [1. + v * 0.3f], is at least [1]. *)
Lemma boundary_divisor (v : binary32) :
  valid32 v = true -> (0 <? v)%F = true ->
  (1 <=? 1 + v * b32_0_3)%F = true.
Proof.
  intros Vv Hpos.
  destruct (b32_pos_form v Hpos) as [-> | (m & e & ->)]; [reflexivity|].
  set (v := S754_finite false m e) in *.
  assert (Hv : finite32 v = true) by (apply finite32_iff; split; [exact Vv|reflexivity]).
  assert (Hv0 : 0 < SF2Q v) by apply F2Q_pos.
  pose proof SF2Q_0_3 as E3. pose proof SF2Q_one as E1.
  pose proof (b32_mul_Rnd v b32_0_3 Hv finite32_0_3) as Ri.
  set (si := (v * b32_0_3)%F) in *.
  assert (Hsi0 : 0 <= SF2Q v * SF2Q b32_0_3 <= SF2Q v) by (split; nra).
  assert (Hsif : finite32 si = true).
  { apply (Rnd_finite32 _ _ v Ri Hv). rewrite !Qabs_pos by lra. lra. }
  pose proof (Rnd_nonneg _ _ Ri Hsif ltac:(lra)) as Hsi.
  change (0 <= SF2Q si) in Hsi.
  pose proof (b32_add_Rnd b32_one si finite32_one Hsif) as Rd.
  assert (Hle : SF2Q b32_one <= SF2Q b32_one + SF2Q si) by lra.
  exact (Rnd_lower _ _ b32_one Rd eq_refl eq_refl Hle).
Qed.

(** At [inPos = affectedDist] the offset is [+0], and the start easing
    returns [distanceStretched] bit for bit. *)
Lemma boundary_easing (a v ia ds : binary32) :
  is_finite a = true -> is_finite ia = true ->
  valid32 v = true -> (0 <? v)%F = true ->
  computeOverscrollStart a v a ia ds f0_7 = ds.
Proof.
  intros Fa Fia Vv Hpos.
  unfold computeOverscrollStart, easeIn. cbv zeta. rewrite mix_0_7.
  rewrite (b32_sub_diag a Fa).
  destruct (b32_zero_mul false ia Fia) as (s1 & ->).
  destruct (b32_zero_mul s1 b32_0_7 eq_refl) as (s2 & ->).
  rewrite b32_add_zero_r.
  pose proof (boundary_divisor v Vv Hpos) as HD.
  destruct (b32_ge_one_form _ HD) as [-> | (m & e & ->)];
    cbn [fdiv binary32_float SFdiv xorb]; apply b32_sub_zero.
Qed.

Lemma derived_distanceStretched_pos (CDS v : binary32) :
  finite32 CDS = true -> 0 <= SF2Q CDS -> valid32 v = true ->
  (0 <? v)%F = true ->
  let ds := (CDS / (1 + fabs v))%F in
  finite32 ds = true /\ 0 <= SF2Q ds <= SF2Q CDS.
Proof.
  intros HC HC0 Vv Hpos.
  destruct (b32_pos_form v Hpos) as [-> | (m & e & ->)].
  - apply finite32_iff in HC as [_ FC].
    destruct CDS as [s|s| |s mc ec]; try discriminate; cbn; repeat split;
      try apply Qle_refl; exact HC0.
  - apply derived_distanceStretched; try assumption.
    apply finite32_iff. split; [exact Vv|reflexivity].
Qed.

(** The shift at the boundary, [(distanceStretched - affectedDist) +
    affectedDist], is a float within two roundings of
    [distanceStretched]. *)
Lemma boundary_shift (CDS ds : binary32) :
  finite32 CDS = true -> finite32 ds = true -> 0 <= SF2Q ds <= SF2Q CDS ->
  let shift := (ds - CDS + CDS)%F in
  finite32 shift = true
  /\ Qabs (SF2Q shift - SF2Q ds) <= SF2Q CDS * (1 # 8388608) + bpow (-149).
Proof.
  intros HC Hds [Hd0 Hd1] shift.
  destruct (derived_distanceDiff CDS ds HC Hds (conj Hd0 Hd1)) as (Hdd & Hdlo & Hdhi).
  pose proof (b32_sub_Rnd ds CDS Hds HC) as R1.
  set (dd := (ds - CDS)%F) in *.
  pose proof (b32_add_Rnd dd CDS Hdd HC) as R2. fold shift in R2.
  assert (Hsf : finite32 shift = true).
  { apply (Rnd_finite32 _ _ CDS R2 HC). rewrite !Qabs_pos by lra. lra. }
  split; [exact Hsf|].
  pose proof (Rnd_error_model _ _ R1 (finite32_is_finite _ Hdd)) as E1.
  pose proof (Rnd_error_model _ _ R2 (finite32_is_finite _ Hsf)) as E2.
  rewrite (Qabs_neg (SF2Q ds - SF2Q CDS)) in E1 by lra.
  rewrite (Qabs_pos (SF2Q dd + SF2Q CDS)) in E2 by lra.
  apply Qabs_Qle_condition in E1 as [E1lo E1hi].
  apply Qabs_Qle_condition in E2 as [E2lo E2hi].
  pose proof bpow_m150 as E150. pose proof bpow_m149 as E149.
  apply Qabs_Qle_condition. split; lra.
Qed.

(** C3 (as the code has it).  On the parameters that [createSkShader]
    derives for an axis with [overscroll > 0] (a float of the format,
    which may be the positive infinity) from a constant
    [CONTENT_DISTANCE_STRETCHED] that is a positive float whose reciprocal
    does not overflow, in single precision: at [inPos = affectedDist] the
    easing branch returns [distanceStretched] bit for bit, and it is the
    branch that [computeOverscroll] takes there; the shift
    [distanceDiff + affectedDist] is a finite float that differs from it
    by at most [2^-23 * CONTENT_DISTANCE_STRETCHED + 2^-149]. *)
Theorem easing_meets_shift_at_boundary {C : Type} (CDS : binary32)
    (inputShader : vec2 binary32 -> C) (e : StretchEffect binary32)
    (sh : RuntimeShader binary32 C) (q : AxisParams binary32) :
  finite32 CDS = true -> (0 <? CDS)%F = true ->
  is_finite (1 / CDS)%F = true ->
  createSkShader CDS inputShader e = Some sh ->
  q = axisX (uniforms sh) \/ q = axisY (uniforms sh) ->
  valid32 (overscroll q) = true -> (overscroll q >? 0)%F = true ->
  let a := affectedDist q in
  let easing :=
    computeOverscrollStart a (overscroll q) a (invAffectedDist q)
      (distanceStretched q) (interpolationStrength q) in
  let shift := (distanceDiff q + a)%F in
  easing = distanceStretched q
  /\ remap q a = distanceStretched q
  /\ is_finite easing = true
  /\ is_finite shift = true
  /\ Qabs (SF2Q shift - SF2Q easing)
     <= SF2Q CDS * (1 # 8388608) + bpow (-149).
Proof.
  intros HC HCpos Hfin Hsh Hq Vv Hpos a easing shift.
  destruct (createSkShader_axis CDS inputShader e sh q Hsh Hq)
    as (Ha & Hia & Hds & Hdd & Hs).
  assert (HA : 0 < SF2Q CDS).
  { apply (proj1 (b32_lt_iff (S754_zero false) CDS (finite32_zero false) HC)) in HCpos.
    exact HCpos. }
  pose proof (finite32_is_finite _ HC) as FC.
  unfold fgt in Hpos.
  destruct (derived_distanceStretched_pos CDS (overscroll q) HC ltac:(lra) Vv Hpos)
    as (Hdsf & Hds0 & Hds1).
  rewrite <- Hds in Hdsf, Hds0, Hds1.
  assert (He : easing = distanceStretched q).
  { subst easing a. rewrite Ha, Hia, Hs. apply boundary_easing; assumption. }
  destruct (boundary_shift CDS (distanceStretched q) HC Hdsf (conj Hds0 Hds1))
    as (Hsf & Herr).
  assert (Es : shift = (distanceStretched q - CDS + CDS)%F).
  { subst shift a. rewrite Hdd, Ha. reflexivity. }
  split; [exact He|]. split.
  - unfold remap. subst easing a. rewrite computeOverscroll_region.
    unfold region, fgt. rewrite Hpos, Ha, (b32_le_refl CDS FC).
    rewrite Ha in He. exact He.
  - rewrite He, Es. split; [exact (finite32_is_finite _ Hdsf)|].
    split; [exact (finite32_is_finite _ Hsf)|exact Herr].
Qed.

(** ** Single precision: the order of positions outside the easing bands *)




(** ** Single precision: the two easings at equal offsets *)





(** ** Single precision: the sample inputs *)

Example createSkShader_unit32 :
  createSkShader b32_one (fun c : vec2 binary32 => c) sampleEffect32
  = Some {| uContentTexture := fun c => c; uniforms := unitUniforms32 |}.
Proof. vm_compute. reflexivity. Qed.

Example createSkShader_sample32 :
  createSkShader b32_0_3 (fun c : vec2 binary32 => c) sampleEffect32
  = Some {| uContentTexture := fun c => c; uniforms := sampleUniforms32 |}.
Proof. vm_compute. reflexivity. Qed.

Example createSkShader_tiny32 :
  createSkShader b32_min_subnormal (fun c : vec2 binary32 => c) sampleEffect32
  = Some {| uContentTexture := fun c => c; uniforms := tinyUniforms32 |}.
Proof. vm_compute. reflexivity. Qed.

(** With [CONTENT_DISTANCE_STRETCHED = 2^-149] the inverse distance
    that [createSkShader] derives is infinite: at [inPos = affectedDist]
    on an axis pulled by [0.5f] the offset [+0] times the infinity is
    NaN, and so is the result of the easing, which [computeOverscroll]
    returns, while the shift is the float [2^-149]. *)
Lemma easing_meets_shift_at_boundary_fails :
  createSkShader b32_min_subnormal (fun c : vec2 binary32 => c) sampleEffect32
  = Some {| uContentTexture := fun c => c; uniforms := tinyUniforms32 |}
  /\ let q := axisX tinyUniforms32 in
     let a := affectedDist q in
     (overscroll q >? 0)%F = true
     /\ computeOverscrollStart a (overscroll q) a (invAffectedDist q)
          (distanceStretched q) (interpolationStrength q) = S754_nan
     /\ remap q a = S754_nan
     /\ (distanceDiff q + a)%F = b32_min_subnormal.
Proof. vm_compute. repeat split. Qed.

(** With the same parameters the position [2^-149], which is in
    [[0, 1]] and in the easing band of the start edge, has a divisor
    [1. + stretchIntensity] that is NaN, and is remapped to NaN. *)
Lemma easing_denominator_at_least_one_fails :
  createSkShader b32_min_subnormal (fun c : vec2 binary32 => c) sampleEffect32
  = Some {| uContentTexture := fun c => c; uniforms := tinyUniforms32 |}
  /\ let q := axisX tinyUniforms32 in
     let inPos := b32_min_subnormal in
     (fabs (overscroll q) <=? 1)%F = true
     /\ ((0 <=? interpolationStrength q)%F = true
         /\ (interpolationStrength q <=? 1)%F = true)
     /\ ((0 <=? inPos)%F = true /\ (inPos <=? 1)%F = true)
     /\ region inPos (overscroll q) (affectedDist q) (distanceStretched q)
        = StartEasing
     /\ startDenominator inPos (overscroll q) (affectedDist q)
          (invAffectedDist q) (interpolationStrength q) = S754_nan
     /\ (1 <=? startDenominator inPos (overscroll q) (affectedDist q)
                 (invAffectedDist q) (interpolationStrength q))%F = false
     /\ is_finite (remap q inPos) = false.
Proof. vm_compute. repeat split. Qed.



Lemma easing_meets_shift_at_boundary_witness :
  (finite32 b32_0_3 = true /\ (0 <? b32_0_3)%F = true
   /\ is_finite (1 / b32_0_3)%F = true
   /\ valid32 (overscroll (axisX sampleUniforms32)) = true
   /\ (overscroll (axisX sampleUniforms32) >? 0)%F = true)
  /\ remap (axisX sampleUniforms32) b32_0_3
     = distanceStretched (axisX sampleUniforms32)
  /\ Qabs (SF2Q (distanceDiff (axisX sampleUniforms32) + b32_0_3)%F
           - SF2Q (computeOverscrollStart b32_0_3 b32_0_5 b32_0_3
                     (invAffectedDist (axisX sampleUniforms32))
                     (distanceStretched (axisX sampleUniforms32)) b32_0_7))
     <= SF2Q b32_0_3 * (1 # 8388608) + bpow (-149).
Proof.
  split; [repeat split; reflexivity|].
  destruct (@easing_meets_shift_at_boundary (vec2 binary32) b32_0_3 (fun c => c)
              sampleEffect32
              {| uContentTexture := fun c => c; uniforms := sampleUniforms32 |}
              (axisX sampleUniforms32) eq_refl eq_refl eq_refl
              createSkShader_sample32 (or_introl eq_refl) eq_refl eq_refl)
    as (_ & Hremap & _ & _ & Htol).
  split; [exact Hremap|exact Htol].
Defined.

Lemma easing_denominator_at_least_one_witness :
  (finite32 b32_0_3 = true /\ (0 <? b32_0_3)%F = true
   /\ is_finite (1 / b32_0_3)%F = true
   /\ valid32 (overscroll (axisX sampleUniforms32)) = true
   /\ (fabs (overscroll (axisX sampleUniforms32)) <=? 1)%F = true
   /\ valid32 b32_0_2 = true
   /\ (0 <=? b32_0_2)%F = true /\ (b32_0_2 <=? 1)%F = true
   /\ region b32_0_2 b32_0_5 b32_0_3 (distanceStretched (axisX sampleUniforms32))
      = StartEasing)
  /\ (1 <=? startDenominator b32_0_2 b32_0_5 b32_0_3
              (invAffectedDist (axisX sampleUniforms32)) b32_0_7)%F = true
  /\ is_finite (remap (axisX sampleUniforms32) b32_0_2) = true.
Proof.
  split; [repeat split; reflexivity|].
  destruct (proj1 (@easing_denominator_at_least_one (vec2 binary32) b32_0_3
              (fun c => c) sampleEffect32
              {| uContentTexture := fun c => c; uniforms := sampleUniforms32 |}
              (axisX sampleUniforms32) b32_0_2 eq_refl eq_refl eq_refl
              createSkShader_sample32 (or_introl eq_refl) eq_refl eq_refl
              eq_refl eq_refl eq_refl) eq_refl)
    as (HD & _ & Hfin).
  split; [exact HD|exact Hfin].
Defined.



(** ** Single precision: the range of the derived parameters *)

Lemma b32_eq_refl_cases (v : binary32) :
  (v =? v)%F = true -> is_finite v = true \/ exists s, v = S754_infinity s.
Proof.
  destruct v as [s|s| |s m e]; try discriminate; intros _.
  - left. reflexivity.
  - right. exists s. reflexivity.
  - left. reflexivity.
Qed.

Lemma derived_distanceStretched_valid (CDS v : binary32) :
  finite32 CDS = true -> 0 <= SF2Q CDS -> valid32 v = true ->
  (v =? v)%F = true ->
  let ds := (CDS / (1 + fabs v))%F in
  finite32 ds = true /\ 0 <= SF2Q ds <= SF2Q CDS.
Proof.
  intros HC HC0 Vv Hnn.
  destruct (b32_eq_refl_cases v Hnn) as [Fv | (s & ->)].
  - apply derived_distanceStretched; try assumption.
    apply finite32_iff. split; assumption.
  - apply finite32_iff in HC as [_ FC].
    destruct CDS as [sc|sc| |sc mc ec]; try discriminate; cbn; repeat split;
      try apply Qle_refl; exact HC0.
Qed.

(** X10. For every shader that [createSkShader] returns from a constant
    [CONTENT_DISTANCE_STRETCHED] that is a non-negative float, and either
    axis whose overscroll is not NaN, in single precision:
    [distanceStretched] is a finite float between [0] and the affected
    distance, and [distanceDiff] a finite float between the opposite of
    the affected distance and [0]. *)
Theorem derived_parameter_ranges {C : Type} (CDS : binary32)
    (inputShader : vec2 binary32 -> C) (e : StretchEffect binary32)
    (sh : RuntimeShader binary32 C) (q : AxisParams binary32) :
  finite32 CDS = true -> (0 <=? CDS)%F = true ->
  createSkShader CDS inputShader e = Some sh ->
  q = axisX (uniforms sh) \/ q = axisY (uniforms sh) ->
  valid32 (overscroll q) = true -> (overscroll q =? overscroll q)%F = true ->
  is_finite (distanceStretched q) = true
  /\ (0 <=? distanceStretched q)%F = true
  /\ (distanceStretched q <=? affectedDist q)%F = true
  /\ is_finite (distanceDiff q) = true
  /\ (- affectedDist q <=? distanceDiff q)%F = true
  /\ (distanceDiff q <=? 0)%F = true.
Proof.
  intros HC HC0 Hsh Hq Vv Hnn.
  destruct (createSkShader_axis CDS inputShader e sh q Hsh Hq)
    as (Ha & Hia & Hds & Hdd & Hs).
  apply (proj1 (b32_le_iff (S754_zero false) CDS (finite32_zero false) HC)) in HC0.
  cbn [SF2Q] in HC0.
  destruct (derived_distanceStretched_valid CDS (overscroll q) HC HC0 Vv Hnn)
    as (Hdsf & Hds0 & Hds1).
  rewrite <- Hds in Hdsf, Hds0, Hds1.
  destruct (derived_distanceDiff CDS (distanceStretched q) HC Hdsf (conj Hds0 Hds1))
    as (Hddf & Hddlo & Hddhi).
  rewrite <- Hdd in Hddf, Hddlo, Hddhi.
  rewrite Ha.
  assert (Hn : finite32 (- CDS)%F = true) by (rewrite finite32_neg; exact HC).
  split; [exact (finite32_is_finite _ Hdsf)|].
  split; [apply (proj2 (b32_le_iff (S754_zero false) _ (finite32_zero false) Hdsf));
          exact Hds0|].
  split; [apply (proj2 (b32_le_iff _ CDS Hdsf HC)); exact Hds1|].
  split; [exact (finite32_is_finite _ Hddf)|].
  split.
  - apply (proj2 (b32_le_iff _ _ Hn Hddf)). rewrite SF2Q_fneg. exact Hddlo.
  - apply (proj2 (b32_le_iff _ (S754_zero false) Hddf (finite32_zero false))).
    exact Hddhi.
Qed.

Lemma derived_parameter_ranges_witness :
  (finite32 b32_0_3 = true /\ (0 <=? b32_0_3)%F = true
   /\ valid32 (overscroll (axisX sampleUniforms32)) = true
   /\ (overscroll (axisX sampleUniforms32)
       =? overscroll (axisX sampleUniforms32))%F = true)
  /\ (0 <=? distanceStretched (axisX sampleUniforms32))%F = true
  /\ (distanceStretched (axisX sampleUniforms32) <=? b32_0_3)%F = true
  /\ (distanceDiff (axisX sampleUniforms32) <=? 0)%F = true.
Proof.
  split; [repeat split; reflexivity|].
  destruct (@derived_parameter_ranges (vec2 binary32) b32_0_3 (fun c => c)
              sampleEffect32
              {| uContentTexture := fun c => c; uniforms := sampleUniforms32 |}
              (axisX sampleUniforms32) eq_refl eq_refl
              createSkShader_sample32 (or_introl eq_refl) eq_refl eq_refl)
    as (_ & H0 & H1 & _ & _ & H2).
  split; [exact H0|]. split; [exact H1|exact H2].
Defined.

(** ** Single precision: the remapped positions are finite *)

(** X15. On the parameters that [createSkShader] derives for an axis
    from a constant [CONTENT_DISTANCE_STRETCHED] that is a positive
    float whose reciprocal does not overflow, with [|overscroll| <= 1],
    in single precision: every position [inPos] of [[0, 1]] is remapped
    to a finite float, whatever the branch. *)
Theorem remap_finite_on_unit_interval {C : Type} (CDS : binary32)
    (inputShader : vec2 binary32 -> C) (e : StretchEffect binary32)
    (sh : RuntimeShader binary32 C) (q : AxisParams binary32)
    (inPos : binary32) :
  finite32 CDS = true -> (0 <? CDS)%F = true ->
  is_finite (1 / CDS)%F = true ->
  createSkShader CDS inputShader e = Some sh ->
  q = axisX (uniforms sh) \/ q = axisY (uniforms sh) ->
  valid32 (overscroll q) = true -> (fabs (overscroll q) <=? 1)%F = true ->
  valid32 inPos = true -> (0 <=? inPos)%F = true -> (inPos <=? 1)%F = true ->
  is_finite (remap q inPos) = true.
Proof.
  intros HC HCpos Hfin Hsh Hq Vv Hv1 Vp Hp0 Hp1.
  destruct (createSkShader_axis CDS inputShader e sh q Hsh Hq)
    as (Ha & Hia & Hds & Hdd & Hs).
  set (v := overscroll q) in *.
  destruct (unit_range_values CDS v inPos HC HCpos Vv Hv1 Vp Hp0 Hp1)
    as (HA & Hv & [Hvlo Hvhi] & Hp & [Hq0 Hq1]).
  destruct (derived_distanceStretched CDS v HC ltac:(lra) Hv) as (Hdsf & Hds0 & Hds1).
  destruct (derived_distanceDiff CDS _ HC Hdsf (conj Hds0 Hds1))
    as (Hddf & Hddlo & Hddhi).
  unfold remap. rewrite computeOverscroll_region. fold v.
  rewrite Ha, Hia, Hdd, Hds, Hs.
  set (dd := (CDS / (1 + fabs v) - CDS)%F) in *.
  destruct (region inPos v CDS (CDS / (1 + fabs v))%F) eqn:Hr.
  - destruct (region_StartEasing _ _ _ _ Hr) as [Hpos Hle].
    unfold fgt in Hpos.
    apply (proj1 (b32_lt_iff (S754_zero false) v (finite32_zero false) Hv)) in Hpos.
    apply (proj1 (b32_le_iff inPos CDS Hp HC)) in Hle.
    cbn [SF2Q] in Hpos.
    destruct (start_easing_finite CDS v inPos HC HA Hfin Hv ltac:(lra) Hp
                ltac:(lra)) as (_ & _ & Hres & _).
    exact (finite32_is_finite _ Hres).
  - apply finite32_is_finite.
    apply (Rnd_finite32_near _ _ dd (b32_add_Rnd dd inPos Hddf Hp) Hddf).
    apply Qabs_case; intros; apply Qabs_case; intros; lra.
  - destruct (region_EndEasing _ _ _ _ Hr) as [Hneg Hge].
    unfold fge in Hge.
    apply (proj1 (b32_lt_iff v (S754_zero false) Hv (finite32_zero false))) in Hneg.
    apply (proj1 (b32_le_iff _ inPos (one_minus_finite CDS HC) Hp)) in Hge.
    cbn [SF2Q] in Hneg.
    destruct (end_easing_finite CDS v inPos HC HA Hfin Hv ltac:(lra) Hp Hq1 Hge)
      as (_ & _ & Hres).
    exact (finite32_is_finite _ Hres).
  - apply finite32_is_finite.
    assert (Hn : finite32 (- dd)%F = true) by (rewrite finite32_neg; exact Hddf).
    pose proof (SF2Q_fneg dd) as En.
    apply (Rnd_finite32_near _ _ (- dd)%F (b32_add_Rnd (- dd)%F inPos Hn Hp) Hn).
    apply Qabs_case; intros; apply Qabs_case; intros; lra.
  - exact (finite32_is_finite _ Hp).
Qed.

Lemma remap_finite_on_unit_interval_witness :
  (finite32 b32_0_3 = true /\ (0 <? b32_0_3)%F = true
   /\ is_finite (1 / b32_0_3)%F = true
   /\ valid32 (overscroll (axisX sampleUniforms32)) = true
   /\ (fabs (overscroll (axisX sampleUniforms32)) <=? 1)%F = true
   /\ valid32 b32_0_7 = true
   /\ (0 <=? b32_0_7)%F = true /\ (b32_0_7 <=? 1)%F = true)
  /\ is_finite (remap (axisX sampleUniforms32) b32_0_7) = true.
Proof.
  split; [repeat split; reflexivity|].
  exact (@remap_finite_on_unit_interval (vec2 binary32) b32_0_3 (fun c => c)
           sampleEffect32
           {| uContentTexture := fun c => c; uniforms := sampleUniforms32 |}
           (axisX sampleUniforms32) b32_0_7 eq_refl eq_refl eq_refl
           createSkShader_sample32 (or_introl eq_refl) eq_refl eq_refl
           eq_refl eq_refl eq_refl).
Defined.

(** ** Single precision: the branch that leaves a position unchanged *)

Lemma b32_eq_refl_finite (x : binary32) :
  is_finite x = true -> (x =? x)%F = true.
Proof.
  destruct x as [s|s| |s m e]; try discriminate; intros _; try reflexivity.
  cbn [feq binary32_float]. unfold SFeqb, SFcompare.
  rewrite Z.compare_refl, Pos.compare_cont_refl. destruct s; reflexivity.
Qed.

Lemma SFcompare_some (x y : binary32) :
  (x =? x)%F = true -> (y =? y)%F = true -> exists c, SFcompare x y = Some c.
Proof.
  destruct x as [sx|sx| |sx mx ex]; try discriminate;
    destruct y as [sy|sy| |sy my ey]; try discriminate; intros _ _;
    eexists; reflexivity.
Qed.

(** Two floats that are not NaN are comparable. *)
Lemma b32_not_le_lt (x y : binary32) :
  (x =? x)%F = true -> (y =? y)%F = true ->
  (x <=? y)%F = false -> (y <? x)%F = true.
Proof.
  intros Hx Hy. destruct (SFcompare_some x y Hx Hy) as (c & Hc).
  cbn [fle flt binary32_float]. unfold SFleb, SFltb.
  rewrite (SFcompare_swap x y), Hc. destruct c; cbn; congruence.
Qed.

(** X5. For the parameters that [createSkShader] derives for an axis
    from a constant [CONTENT_DISTANCE_STRETCHED] that is a non-negative
    float, in single precision: a position that is not NaN reaches the
    branch of [computeOverscroll] that leaves it unchanged only when the
    overscroll is neither [> 0] nor [< 0].  On a pulled axis every such
    position is eased or shifted: [distanceStretched <= affectedDist]
    empties the middle band of the start edge, and the end edge has
    none. *)
Theorem identity_branch_only_without_overscroll {C : Type} (CDS : binary32)
    (inputShader : vec2 binary32 -> C) (e : StretchEffect binary32)
    (sh : RuntimeShader binary32 C) (q : AxisParams binary32)
    (inPos : binary32) :
  finite32 CDS = true -> (0 <=? CDS)%F = true ->
  createSkShader CDS inputShader e = Some sh ->
  q = axisX (uniforms sh) \/ q = axisY (uniforms sh) ->
  valid32 (overscroll q) = true ->
  valid32 inPos = true -> (inPos =? inPos)%F = true ->
  region inPos (overscroll q) (affectedDist q) (distanceStretched q) = Identity ->
  (overscroll q >? 0)%F = false /\ (overscroll q <? 0)%F = false.
Proof.
  intros HC HC0 Hsh Hq Vv Vp Hpn.
  destruct (createSkShader_axis CDS inputShader e sh q Hsh Hq)
    as (Ha & Hia & Hds & Hdd & Hs).
  apply (proj1 (b32_le_iff (S754_zero false) CDS (finite32_zero false) HC)) in HC0.
  cbn [SF2Q] in HC0.
  rewrite Ha, Hds. set (v := overscroll q) in *.
  unfold region. destruct (v >? 0)%F eqn:Hpos.
  - unfold fgt in Hpos.
    destruct (derived_distanceStretched_pos CDS v HC HC0 Vv Hpos)
      as (Hdsf & Hds0 & Hds1).
    set (ds := (CDS / (1 + fabs v))%F) in *.
    destruct (inPos <=? CDS)%F eqn:Hle; [discriminate|].
    unfold fge. destruct (ds <=? inPos)%F eqn:Hge; [discriminate|].
    intros _. exfalso.
    pose proof (b32_not_le_lt inPos CDS Hpn
                  (b32_eq_refl_finite _ (finite32_is_finite _ HC)) Hle) as H1.
    pose proof (b32_not_le_lt ds inPos
                  (b32_eq_refl_finite _ (finite32_is_finite _ Hdsf)) Hpn Hge) as H2.
    destruct (is_finite inPos) eqn:Fp.
    + assert (Hp : finite32 inPos = true) by (apply finite32_iff; split; assumption).
      apply (proj1 (b32_lt_iff CDS inPos HC Hp)) in H1.
      apply (proj1 (b32_lt_iff inPos ds Hp Hdsf)) in H2. lra.
    + apply finite32_iff in HC as [_ FC]. apply finite32_iff in Hdsf as [_ Fds].
      destruct inPos as [sp|[|]| |sp mp ep]; try discriminate.
      * destruct CDS; discriminate.
      * destruct ds; discriminate.
  - destruct (v <? 0)%F eqn:Hneg; [|intros _; split; reflexivity].
    cbv zeta. unfold fge.
    destruct (1 - CDS <=? inPos)%F eqn:Hge; [discriminate|].
    pose proof (b32_not_le_lt (1 - CDS)%F inPos
                  (b32_eq_refl_finite _
                     (finite32_is_finite _ (one_minus_finite CDS HC))) Hpn Hge) as H.
    rewrite H. discriminate.
Qed.

Lemma identity_branch_only_without_overscroll_witness :
  (finite32 b32_0_3 = true /\ (0 <=? b32_0_3)%F = true
   /\ valid32 (overscroll (axisY sampleUniforms32)) = true
   /\ valid32 b32_0_7 = true /\ (b32_0_7 =? b32_0_7)%F = true
   /\ region b32_0_7 (overscroll (axisY sampleUniforms32))
        (affectedDist (axisY sampleUniforms32))
        (distanceStretched (axisY sampleUniforms32)) = Identity)
  /\ (overscroll (axisY sampleUniforms32) >? 0)%F = false
  /\ (overscroll (axisY sampleUniforms32) <? 0)%F = false.
Proof.
  split; [repeat split; reflexivity|].
  exact (@identity_branch_only_without_overscroll (vec2 binary32) b32_0_3
           (fun c => c) sampleEffect32
           {| uContentTexture := fun c => c; uniforms := sampleUniforms32 |}
           (axisY sampleUniforms32) b32_0_7 eq_refl eq_refl
           createSkShader_sample32 (or_intror eq_refl) eq_refl eq_refl eq_refl
           eq_refl).
Defined.

(** ** Single precision: the boundary of the end edge *)

Lemma b32_pos_of_neg (v : binary32) :
  (v <? 0)%F = true -> (0 <? - v)%F = true /\ (v >? 0)%F = false.
Proof.
  destruct v as [s|[|]| |[|] m e]; try discriminate; intros _; split; reflexivity.
Qed.

Lemma b32_lt_zero_not_nan (v : binary32) :
  (v <? 0)%F = true -> (v =? v)%F = true.
Proof.
  destruct v as [s|[|]| |[|] m e]; try discriminate; intros _; try reflexivity.
  cbn [feq binary32_float]. unfold SFeqb, SFcompare.
  rewrite Z.compare_refl, Pos.compare_cont_refl. reflexivity.
Qed.

(** At [inPos = 1. - affectedDist] the offset is [+0], and the end
    easing returns [1 - distanceStretched]. *)
Lemma end_boundary_easing (a v ia ds : binary32) :
  is_finite (1 - a)%F = true -> is_finite ia = true ->
  valid32 v = true -> (v <? 0)%F = true ->
  computeOverscrollEnd (1 - a)%F v (1 - a)%F a ia ds f0_7 = (1 - ds)%F.
Proof.
  intros Fr Fia Vv Hneg.
  destruct (b32_pos_of_neg v Hneg) as [Hpos _].
  unfold computeOverscrollEnd, easeIn. cbv zeta. rewrite mix_0_7.
  rewrite (b32_sub_diag _ Fr).
  destruct (b32_zero_mul false ia Fia) as (s1 & ->).
  destruct (b32_zero_mul s1 b32_0_7 eq_refl) as (s2 & ->).
  rewrite b32_add_zero_r.
  assert (Vn : valid32 (- v)%F = true) by (rewrite <- Vv; apply valid32_opp).
  pose proof (boundary_divisor (- v)%F Vn Hpos) as HD.
  destruct (b32_ge_one_form _ HD) as [-> | (m & e & ->)];
    cbn [fdiv binary32_float SFdiv xorb]; rewrite b32_sub_zero; reflexivity.
Qed.

(** The shift at that boundary, [- distanceDiff + (1. - affectedDist)],
    is a float within four roundings of [1 - distanceStretched]. *)
Lemma end_boundary_shift (CDS ds : binary32) :
  finite32 CDS = true -> 0 <= SF2Q CDS ->
  finite32 ds = true -> 0 <= SF2Q ds <= SF2Q CDS ->
  let shift := (- (ds - CDS) + (1 - CDS))%F in
  let easing := (1 - ds)%F in
  finite32 shift = true /\ finite32 easing = true
  /\ Qabs (SF2Q shift - SF2Q easing)
     <= (1 + SF2Q CDS) * (1 # 2097152) + bpow (-148).
Proof.
  intros HC HC0 Hds [Hd0 Hd1] shift easing.
  pose proof SF2Q_one as E1.
  pose proof bpow_128 as E128. pose proof bpow_104 as E104.
  pose proof bpow_103 as E103. pose proof bpow_m150 as E150.
  assert (E148 : bpow (-148) == 4 * bpow (-150)).
  { change (-148)%Z with (2 + -150)%Z. rewrite bpow_add, bpow_unfold. reflexivity. }
  destruct (derived_distanceDiff CDS ds HC Hds (conj Hd0 Hd1)) as (Hdd & Hdlo & Hdhi).
  pose proof (b32_sub_Rnd ds CDS Hds HC) as R1.
  set (dd := (ds - CDS)%F) in *.
  pose proof (Rnd_error_model _ _ R1 (finite32_is_finite _ Hdd)) as Err1.
  rewrite (Qabs_neg (SF2Q ds - SF2Q CDS)) in Err1 by lra.
  apply Qabs_Qle_condition in Err1 as [Err1lo Err1hi].
  pose proof (one_minus_finite CDS HC) as Hrf.
  pose proof (b32_sub_Rnd b32_one CDS finite32_one HC) as R2.
  change (@fone binary32 _) with b32_one in *.
  set (rsd := (b32_one - CDS)%F) in *.
  pose proof (Rnd_error_model _ _ R2 (finite32_is_finite _ Hrf)) as Err2.
  pose proof (finite32_bound rsd Hrf) as Hrb.
  pose proof (finite32_bound CDS HC) as HCb.
  rewrite (Qabs_pos (SF2Q CDS)) in HCb by lra.
  assert (Hn : finite32 (- dd)%F = true) by (rewrite finite32_neg; exact Hdd).
  pose proof (SF2Q_fneg dd) as En.
  pose proof (b32_add_Rnd (- dd)%F rsd Hn Hrf) as R3. fold shift in R3.
  pose proof (b32_sub_Rnd b32_one ds finite32_one Hds) as R4. fold easing in R4.
  assert (Hef : finite32 easing = true) by (apply one_minus_finite; exact Hds).
  pose proof (Rnd_error_model _ _ R4 (finite32_is_finite _ Hef)) as Err4.
  set (A := SF2Q CDS) in *. set (S := SF2Q ds) in *.
  set (Dd := SF2Q dd) in *. set (R := SF2Q rsd) in *.
  set (Nd := SF2Q (- dd)%F) in *.
  assert (HR : - (bpow 128 - bpow 104) <= R
               /\ R <= 1 - A + (1 + A) * (1 # 16777216) + bpow (-150)
               /\ 1 - A - (1 + A) * (1 # 16777216) - bpow (-150) <= R).
  { apply Qabs_Qle_condition in Hrb as [Hrlo _].
    apply Qabs_Qle_condition in Err2 as [Err2lo Err2hi].
    destruct (Qlt_le_dec (SF2Q b32_one - A) 0) as [Hs | Hs].
    - rewrite (Qabs_neg (SF2Q b32_one - A)) in Err2lo, Err2hi by lra.
      repeat split; lra.
    - rewrite (Qabs_pos (SF2Q b32_one - A)) in Err2lo, Err2hi by lra.
      repeat split; lra. }
  destruct HR as (HRlo & HRhi & HRlo').
  assert (Hx : - (bpow 128 - bpow 104) <= Nd + R
               /\ Nd + R <= 1 + (1 + A) * (1 # 8388608) + 2 * bpow (-150)).
  { split; lra. }
  assert (Hsf : finite32 shift = true).
  { apply finite32_iff. split; [exact (Rnd_valid _ _ R3)|].
    apply (Rnd_finite_bound _ _ R3). apply Qabs_case; intros; lra. }
  pose proof (Rnd_error_model _ _ R3 (finite32_is_finite _ Hsf)) as Err3.
  split; [exact Hsf|]. split; [exact Hef|].
  set (Zs := SF2Q shift) in *. set (Ze := SF2Q easing) in *.
  assert (Hax : Qabs (Nd + R) <= 2 * (1 + A)).
  { apply Qabs_case; intros; lra. }
  assert (Hay : Qabs (SF2Q b32_one - S) <= 1 + A).
  { apply Qabs_case; intros; lra. }
  apply Qabs_Qle_condition in Err3 as [Err3lo Err3hi].
  apply Qabs_Qle_condition in Err4 as [Err4lo Err4hi].
  clearbody Zs Ze Nd R Dd S A.
  assert (H3 : Qabs (Nd + R) * (1 # 16777216) <= 2 * (1 + A) * (1 # 16777216)).
  { apply Qmult_le_compat_r; [exact Hax|discriminate]. }
  assert (H4 : Qabs (SF2Q b32_one - S) * (1 # 16777216)
               <= (1 + A) * (1 # 16777216)).
  { apply Qmult_le_compat_r; [exact Hay|discriminate]. }
  apply Qabs_Qle_condition. split; lra.
Qed.

(** X6. On the parameters that [createSkShader] derives for an axis with
    [overscroll < 0] from a constant [CONTENT_DISTANCE_STRETCHED] that is
    a positive float whose reciprocal does not overflow, in single
    precision: at [inPos = 1. - affectedDist] the end easing returns the
    float [1 - distanceStretched], and it is the branch that
    [computeOverscroll] takes there; the shift [- distanceDiff + inPos]
    is a finite float that differs from it by at most
    [2^-21 * (1 + CONTENT_DISTANCE_STRETCHED) + 2^-148]. *)
Theorem easing_meets_shift_at_end_boundary {C : Type} (CDS : binary32)
    (inputShader : vec2 binary32 -> C) (e : StretchEffect binary32)
    (sh : RuntimeShader binary32 C) (q : AxisParams binary32) :
  finite32 CDS = true -> (0 <? CDS)%F = true ->
  is_finite (1 / CDS)%F = true ->
  createSkShader CDS inputShader e = Some sh ->
  q = axisX (uniforms sh) \/ q = axisY (uniforms sh) ->
  valid32 (overscroll q) = true -> (overscroll q <? 0)%F = true ->
  let r := (1 - affectedDist q)%F in
  let easing :=
    computeOverscrollEnd r (overscroll q) r (affectedDist q) (invAffectedDist q)
      (distanceStretched q) (interpolationStrength q) in
  let shift := (- distanceDiff q + r)%F in
  easing = (1 - distanceStretched q)%F
  /\ remap q r = easing
  /\ is_finite easing = true
  /\ is_finite shift = true
  /\ Qabs (SF2Q shift - SF2Q easing)
     <= (1 + SF2Q CDS) * (1 # 2097152) + bpow (-148).
Proof.
  intros HC HCpos Hfin Hsh Hq Vv Hneg r easing shift.
  destruct (createSkShader_axis CDS inputShader e sh q Hsh Hq)
    as (Ha & Hia & Hds & Hdd & Hs).
  assert (HA : 0 < SF2Q CDS).
  { apply (proj1 (b32_lt_iff (S754_zero false) CDS (finite32_zero false) HC)) in HCpos.
    exact HCpos. }
  pose proof (one_minus_finite CDS HC) as Hrf.
  destruct (derived_distanceStretched_valid CDS (overscroll q) HC ltac:(lra) Vv
              (b32_lt_zero_not_nan _ Hneg)) as (Hdsf & Hds0 & Hds1).
  rewrite <- Hds in Hdsf, Hds0, Hds1.
  destruct (end_boundary_shift CDS (distanceStretched q) HC ltac:(lra) Hdsf
              (conj Hds0 Hds1)) as (Hsf & Hef & Herr).
  assert (He : easing = (1 - distanceStretched q)%F).
  { subst easing r. rewrite Ha, Hia, Hs.
    apply end_boundary_easing; try assumption.
    exact (finite32_is_finite _ Hrf). }
  assert (Es : shift = (- (distanceStretched q - CDS) + (1 - CDS))%F).
  { subst shift r. rewrite Hdd, Ha. reflexivity. }
  split; [exact He|]. split.
  - unfold remap. subst easing r. rewrite computeOverscroll_region.
    unfold region. rewrite (proj2 (b32_pos_of_neg _ Hneg)), Hneg. cbv zeta.
    unfold fge. rewrite Ha, (b32_le_refl _ (finite32_is_finite _ Hrf)).
    reflexivity.
  - rewrite He, Es. split; [exact (finite32_is_finite _ Hef)|].
    split; [exact (finite32_is_finite _ Hsf)|exact Herr].
Qed.

Example createSkShader_mirrored32 :
  createSkShader b32_0_3 (fun c : vec2 binary32 => c) mirroredEffect32
  = Some {| uContentTexture := fun c => c; uniforms := mirroredUniforms32 |}.
Proof. vm_compute. reflexivity. Qed.

Lemma easing_meets_shift_at_end_boundary_witness :
  (finite32 b32_0_3 = true /\ (0 <? b32_0_3)%F = true
   /\ is_finite (1 / b32_0_3)%F = true
   /\ valid32 (overscroll (axisX mirroredUniforms32)) = true
   /\ (overscroll (axisX mirroredUniforms32) <? 0)%F = true)
  /\ remap (axisX mirroredUniforms32) (1 - b32_0_3)%F
     = (1 - distanceStretched (axisX mirroredUniforms32))%F
  /\ is_finite (- distanceDiff (axisX mirroredUniforms32) + (1 - b32_0_3))%F
     = true.
Proof.
  split; [repeat split; reflexivity|].
  destruct (@easing_meets_shift_at_end_boundary (vec2 binary32) b32_0_3
              (fun c => c) mirroredEffect32
              {| uContentTexture := fun c => c; uniforms := mirroredUniforms32 |}
              (axisX mirroredUniforms32) eq_refl eq_refl eq_refl
              createSkShader_mirrored32 (or_introl eq_refl) eq_refl eq_refl)
    as (He & Hremap & _ & Hfin & _).
  split; [rewrite <- He; exact Hremap|exact Hfin].
Defined.

(** ** Single precision: the range of the start easing *)

(** X16. On the parameters that [createSkShader] derives for an axis
    from a constant [CONTENT_DISTANCE_STRETCHED] that is a positive
    float whose reciprocal does not overflow, with [|overscroll| <= 1],
    in single precision: a position [inPos] of [[0, 1]] that takes the
    start easing is remapped to a float between [distanceDiff] and
    [distanceStretched], the value of the easing at the boundary of its
    band. *)
Theorem start_easing_range {C : Type} (CDS : binary32)
    (inputShader : vec2 binary32 -> C) (e : StretchEffect binary32)
    (sh : RuntimeShader binary32 C) (q : AxisParams binary32)
    (inPos : binary32) :
  finite32 CDS = true -> (0 <? CDS)%F = true ->
  is_finite (1 / CDS)%F = true ->
  createSkShader CDS inputShader e = Some sh ->
  q = axisX (uniforms sh) \/ q = axisY (uniforms sh) ->
  valid32 (overscroll q) = true -> (fabs (overscroll q) <=? 1)%F = true ->
  valid32 inPos = true -> (0 <=? inPos)%F = true -> (inPos <=? 1)%F = true ->
  region inPos (overscroll q) (affectedDist q) (distanceStretched q)
  = StartEasing ->
  (distanceDiff q <=? remap q inPos)%F = true
  /\ (remap q inPos <=? distanceStretched q)%F = true.
Proof.
  intros HC HCpos Hfin Hsh Hq Vv Hv1 Vp Hp0 Hp1 Hr.
  destruct (createSkShader_axis CDS inputShader e sh q Hsh Hq)
    as (Ha & Hia & Hds & Hdd & Hs).
  unfold remap. rewrite computeOverscroll_region, Hr.
  rewrite Ha, Hds in Hr. rewrite Hdd, Ha, Hia, Hds, Hs.
  set (v := overscroll q) in *.
  destruct (unit_range_values CDS v inPos HC HCpos Vv Hv1 Vp Hp0 Hp1)
    as (HA & Hv & [Hvlo Hvhi] & Hp & [Hq0 Hq1]).
  destruct (region_StartEasing _ _ _ _ Hr) as [Hpos Hle].
  unfold fgt in Hpos.
  apply (proj1 (b32_lt_iff (S754_zero false) v (finite32_zero false) Hv)) in Hpos.
  apply (proj1 (b32_le_iff inPos CDS Hp HC)) in Hle.
  cbn [SF2Q] in Hpos.
  destruct (derived_distanceStretched CDS v HC ltac:(lra) Hv) as (Hdsf & Hds0 & Hds1).
  destruct (derived_distanceDiff CDS _ HC Hdsf (conj Hds0 Hds1)) as (Hddf & _ & _).
  destruct (start_easing_finite CDS v inPos HC HA Hfin Hv ltac:(lra) Hp
              ltac:(lra)) as (_ & _ & Hres & Hlo & Hhi).
  split.
  - apply (proj2 (b32_le_iff _ _ Hddf Hres)). exact Hlo.
  - apply (proj2 (b32_le_iff _ _ Hres Hdsf)). exact Hhi.
Qed.

Lemma start_easing_range_witness :
  (finite32 b32_0_3 = true /\ (0 <? b32_0_3)%F = true
   /\ is_finite (1 / b32_0_3)%F = true
   /\ valid32 (overscroll (axisX sampleUniforms32)) = true
   /\ (fabs (overscroll (axisX sampleUniforms32)) <=? 1)%F = true
   /\ valid32 b32_0_2 = true
   /\ (0 <=? b32_0_2)%F = true /\ (b32_0_2 <=? 1)%F = true
   /\ region b32_0_2 (overscroll (axisX sampleUniforms32))
        (affectedDist (axisX sampleUniforms32))
        (distanceStretched (axisX sampleUniforms32)) = StartEasing)
  /\ (distanceDiff (axisX sampleUniforms32)
      <=? remap (axisX sampleUniforms32) b32_0_2)%F = true
  /\ (remap (axisX sampleUniforms32) b32_0_2
      <=? distanceStretched (axisX sampleUniforms32))%F = true.
Proof.
  split; [repeat split; reflexivity|].
  exact (@start_easing_range (vec2 binary32) b32_0_3 (fun c => c)
           sampleEffect32
           {| uContentTexture := fun c => c; uniforms := sampleUniforms32 |}
           (axisX sampleUniforms32) b32_0_2 eq_refl eq_refl eq_refl
           createSkShader_sample32 (or_introl eq_refl) eq_refl eq_refl
           eq_refl eq_refl eq_refl eq_refl).
Defined.
